(** * DetachedScrollbar: the scroll coordinator of [src/detached-scrollbar.ts]

    A shallow embedding of the [DetachedScrollbar] class and of the part of
    the browser it talks to, followed by the properties of the coordinator.

    - JavaScript numbers are IEEE 754 binary64 values: they are modelled by
      Rocq's primitive floats, so [NaN], the infinities, signed zeros and
      rounding are those of the source.
    - The DOM is a store of elements addressed by node identity; the class
      holds node identities, so two references to one element alias.
    - A method is a computation in a state-and-exception monad: a JavaScript
      exception keeps the mutations made before it was thrown.
    - Every interaction with the host (a property read, a style write, a
      listener registration, an observer call) is appended to a trace. *)

From Stdlib Require Import ZArith Floats Uint63 Bool Lia.
From stdpp Require Import base functions gmap strings list.

(** ** JavaScript numbers *)

Module JSNumber.
Local Open Scope float_scope.

(** [Math.min(a, b)]: NaN when an argument is NaN, and [-0] below [+0]. *)
Definition Math_min (a b : float) : float :=
  if is_nan a || is_nan b then nan
  else if a <? b then a
  else if b <? a then b
  else match classify a with NZero => a | _ => b end.

(** [Math.round(x)]: the integer nearest to [x], a tie going towards
    positive infinity; NaN, the infinities and integral values are
    returned as they are, and a result of zero keeps the sign of [x]. *)
Definition Math_round (x : float) : float :=
  match Prim2SF x with
  | S754_finite s m e =>
      if (0 <=? e)%Z then x
      else
        let n := if s then Z.neg m else Z.pos m in
        let k := Z.shiftr (2 * n + 2 ^ (- e))%Z (1 - e) in
        if (k =? 0)%Z then (if s then neg_zero else zero)
        else if (k <? 0)%Z then - of_uint63 (Uint63.of_Z (- k))
        else of_uint63 (Uint63.of_Z k)
  | _ => x
  end.

(** [0 <= r && r <= 1], with JavaScript's comparisons. *)
Definition in_unit (r : float) : bool := (0 <=? r) && (r <=? 1).

(** The value the two statements [if (r < 0) r = 0; if (r > 1) r = 1;]
    of [clampAndApply] leave in [r]. *)
Definition clamp01 (r : float) : float :=
  let r' := if r <? 0 then 0 else r in
  if 1 <? r' then 1 else r'.

End JSNumber.
Export JSNumber.

(** ** Exceptions and the method monad *)

Inductive Exn :=
| TypeError (msg : string)
| Error (msg : string).

Inductive Result (A : Type) :=
| Ok (a : A)
| Throw (e : Exn).
Arguments Ok {A} a.
Arguments Throw {A} e.

(** A computation over a state [S]: it returns or throws, and in both cases
    leaves a state behind. *)
Definition M (S A : Type) : Type := S -> Result A * S.

Definition ret {S A} (a : A) : M S A := fun s => (Ok a, s).

Definition bind {S A B} (m : M S A) (k : A -> M S B) : M S B :=
  fun s => match m s with
           | (Ok a, s') => k a s'
           | (Throw e, s') => (Throw e, s')
           end.

Definition throw {S A} (e : Exn) : M S A := fun s => (Throw e, s).
Definition gets {S A} (f : S -> A) : M S A := fun s => (Ok (f s), s).
Definition modify {S} (f : S -> S) : M S unit := fun s => (Ok tt, f s).

Notation "x <- m ;; k" := (bind m (fun x => k))
  (at level 100, m at next level, right associativity).
Notation "m ;; k" := (bind m (fun _ => k))
  (at level 100, right associativity).

(** [for (const x of xs) body(x)] *)
Fixpoint for_of {S A} (xs : list A) (body : A -> M S unit) : M S unit :=
  match xs with
  | [] => ret tt
  | x :: rest => body x ;; for_of rest body
  end.

(** [if (c) body] *)
Definition when {S} (c : bool) (body : M S unit) : M S unit :=
  if c then body else ret tt.

Definition state_of {S A} (r : Result A * S) : S := snd r.
Definition result_of {S A} (r : Result A * S) : Result A := fst r.


(** ** The host: elements, listeners, timers and the trace *)

Module DOM.
(** An element is named by its identity. *)
Definition node := nat.

(** The layout properties the class reads (all numbers, computed by the
    host's layout engine). *)
Inductive LayoutProp :=
| offsetWidth | offsetHeight | offsetLeft | offsetTop
| scrollWidth | scrollHeight.

(** The inline style properties the class assigns. *)
Inductive StyleProp := left_ | top_ | width_ | height_.

(** The text [x + 'px'] assigned to a style property. *)
Inductive CssText := Px (x : float).

(** An attribute value: a literal, or [String(x)] of a number. *)
Inductive AttrVal :=
| AttrStr (s : string)
| AttrNum (x : float).

(** The part of [getBoundingClientRect()] that is read. *)
Record DOMRect := { rect_left : float; rect_top : float }.

Record Element := {
  layout : LayoutProp -> float;
  boundingClientRect : DOMRect;
  style : StyleProp -> option CssText;
  attributes : gmap string AttrVal
}.

Inductive Target := TNode (n : node) | TDocument | TWindow.

Inductive EventType :=
| mousedown | touchstart | keydown
| mousemove | touchmove | mouseup | touchend
| click | resize.

(** The six bound handlers of an instance; each is created once by the
    constructor, so a handler has one identity for adding and removing. *)
Inductive Handler := OnDown | OnMove | OnUp | OnKey | OnTrackClick | OnResize.

Definition Listener : Type := Target * EventType * Handler.

(** The observers given in the options. *)
Inductive Notification :=
| onScroll (ratio : float)
| onDragStart
| onDragEnd.

Inductive Effect :=
| Get (n : node) (p : LayoutProp)
| GetBoundingClientRect (n : node)
| Contains (n m : node)
| QuerySelector (sel : string)
| HasAttribute (n : node) (name : string)
| SetAttribute (n : node) (name : string) (v : AttrVal)
| SetStyle (n : node) (p : StyleProp) (v : CssText)
| Focus (n : node)
| AddEventListener (l : Listener)
| RemoveEventListener (l : Listener)
| SetTimeout (id : nat) (delay : float)
| ClearTimeout (id : nat)
| PreventDefault
| Notify (c : Notification).

(** A read of the document, and a write to it. *)
Definition is_read (e : Effect) : bool :=
  match e with
  | Get _ _ | GetBoundingClientRect _ | Contains _ _
  | QuerySelector _ | HasAttribute _ _ => true
  | _ => false
  end.

Definition is_write (e : Effect) : bool :=
  match e with
  | SetAttribute _ _ _ | SetStyle _ _ _ | Focus _ => true
  | _ => false
  end.

Definition is_listener_removal (e : Effect) : bool :=
  match e with RemoveEventListener _ => true | _ => false end.

Record World := {
  elements : node -> Element;
  selectors : string -> option node;      (* document.querySelector *)
  descendant : node -> node -> bool;      (* a.contains(b) *)
  listeners : list Listener;
  timeouts : list nat;                    (* the pending timers *)
  nextTimeout : nat;
  activeElement : option node;
  trace : list Effect                     (* oldest first *)
}.

#[global] Instance LayoutProp_eq_dec : EqDecision LayoutProp.
Proof. solve_decision. Defined.
#[global] Instance StyleProp_eq_dec : EqDecision StyleProp.
Proof. solve_decision. Defined.
#[global] Instance Target_eq_dec : EqDecision Target.
Proof. solve_decision. Defined.
#[global] Instance EventType_eq_dec : EqDecision EventType.
Proof. solve_decision. Defined.
#[global] Instance Handler_eq_dec : EqDecision Handler.
Proof. solve_decision. Defined.

Definition with_elements (f : node -> Element) (w : World) : World :=
  {| elements := f; selectors := selectors w; descendant := descendant w;
     listeners := listeners w; timeouts := timeouts w;
     nextTimeout := nextTimeout w; activeElement := activeElement w;
     trace := trace w |}.

Definition with_listeners (ls : list Listener) (w : World) : World :=
  {| elements := elements w; selectors := selectors w;
     descendant := descendant w;
     listeners := ls; timeouts := timeouts w;
     nextTimeout := nextTimeout w; activeElement := activeElement w;
     trace := trace w |}.

Definition with_timeouts (ts : list nat) (next : nat) (w : World) : World :=
  {| elements := elements w; selectors := selectors w;
     descendant := descendant w;
     listeners := listeners w; timeouts := ts;
     nextTimeout := next; activeElement := activeElement w;
     trace := trace w |}.

Definition with_activeElement (a : option node) (w : World) : World :=
  {| elements := elements w; selectors := selectors w;
     descendant := descendant w;
     listeners := listeners w; timeouts := timeouts w;
     nextTimeout := nextTimeout w; activeElement := a;
     trace := trace w |}.

Definition set_style (p : StyleProp) (v : CssText) (e : Element) : Element :=
  {| layout := layout e; boundingClientRect := boundingClientRect e;
     style := <[p := Some v]> (style e); attributes := attributes e |}.

Definition set_attribute (name : string) (v : AttrVal) (e : Element) : Element :=
  {| layout := layout e; boundingClientRect := boundingClientRect e;
     style := style e; attributes := <[name := v]> (attributes e) |}.

(** The host side of a relayout: new layout numbers for an element. *)
Definition set_layout (f : LayoutProp -> float) (r : DOMRect) (e : Element)
  : Element :=
  {| layout := f; boundingClientRect := r;
     style := style e; attributes := attributes e |}.

(** What an effect changes in the host. Adding a listener that is already
    registered is a no-op, as the DOM specifies, and so is removing one
    that is not registered; [setTimeout] uses a fresh timer identity. *)
Definition change (e : Effect) (w : World) : World :=
  match e with
  | SetAttribute n name v =>
      with_elements (<[n := set_attribute name v (elements w n)]> (elements w)) w
  | SetStyle n p v =>
      with_elements (<[n := set_style p v (elements w n)]> (elements w)) w
  | Focus n => with_activeElement (Some n) w
  | AddEventListener l =>
      if bool_decide (l ∈ listeners w) then w
      else with_listeners (listeners w ++ [l]) w
  | RemoveEventListener l =>
      with_listeners (filter (fun l' => l' ≠ l) (listeners w)) w
  | SetTimeout id _ => with_timeouts (timeouts w ++ [id]) (S id) w
  | ClearTimeout id =>
      with_timeouts (filter (fun t => t ≠ id) (timeouts w)) (nextTimeout w) w
  | _ => w
  end.

Definition log (e : Effect) (w : World) : World :=
  {| elements := elements w; selectors := selectors w;
     descendant := descendant w;
     listeners := listeners w; timeouts := timeouts w;
     nextTimeout := nextTimeout w; activeElement := activeElement w;
     trace := trace w ++ [e] |}.

(** An effect happens: the host changes and the trace grows. *)
Definition effect (e : Effect) (w : World) : World := log e (change e w).

(** *** The DOM calls the class makes *)

(** [el.offsetWidth] and the like. *)
Definition get (n : node) (p : LayoutProp) : M World float :=
  fun w => (Ok (layout (elements w n) p), effect (Get n p) w).

Definition getBoundingClientRect (n : node) : M World DOMRect :=
  fun w => (Ok (boundingClientRect (elements w n)),
            effect (GetBoundingClientRect n) w).

Definition contains (n m : node) : M World bool :=
  fun w => (Ok (descendant w n m), effect (Contains n m) w).

Definition querySelector (sel : string) : M World (option node) :=
  fun w => (Ok (selectors w sel), effect (QuerySelector sel) w).

Definition hasAttribute (n : node) (name : string) : M World bool :=
  fun w => (Ok (bool_decide (is_Some (attributes (elements w n) !! name))),
            effect (HasAttribute n name) w).

Definition setAttribute (n : node) (name : string) (v : AttrVal)
  : M World unit :=
  fun w => (Ok tt, effect (SetAttribute n name v) w).

(** [el.style.p = x + 'px'] *)
Definition setStyle (n : node) (p : StyleProp) (v : CssText) : M World unit :=
  fun w => (Ok tt, effect (SetStyle n p v) w).

Definition focus (n : node) : M World unit :=
  fun w => (Ok tt, effect (Focus n) w).

Definition addEventListener (t : Target) (ty : EventType) (h : Handler)
  : M World unit :=
  fun w => (Ok tt, effect (AddEventListener (t, ty, h)) w).

Definition removeEventListener (t : Target) (ty : EventType) (h : Handler)
  : M World unit :=
  fun w => (Ok tt, effect (RemoveEventListener (t, ty, h)) w).

(** [setTimeout(callback, delay)] returns the identity of the new timer. *)
Definition setTimeout (delay : float) : M World nat :=
  fun w => (Ok (nextTimeout w), effect (SetTimeout (nextTimeout w) delay) w).

Definition clearTimeout (id : nat) : M World unit :=
  fun w => (Ok tt, effect (ClearTimeout id) w).

Definition preventDefault : M World unit :=
  fun w => (Ok tt, effect PreventDefault w).

(** Calling an observer of the options: what the observer does is the
    caller's business, the call is recorded. *)
Definition notify (c : Notification) : M World unit :=
  fun w => (Ok tt, effect (Notify c) w).
End DOM.
Export DOM.

(** ** The class [DetachedScrollbar] *)

Inductive Direction := horizontal | vertical.

#[global] Instance Direction_eq_dec : EqDecision Direction.
Proof. solve_decision. Defined.

(** The fields assigned once by the constructor. An observer is present or
    absent; [keyboardSteps] and [resizeDebounce] are numbers. *)
Record Config := {
  track : node;
  thumb : node;
  contentEls : list node;
  viewport : node;
  direction : Direction;
  keyboardSteps : float;
  trackClick : bool;
  autoResize : bool;
  resizeDebounce : float;
  onScrollCb : bool;
  onDragStartCb : bool;
  onDragEndCb : bool
}.

(** An instance: its configuration and its six mutable fields. *)
Record Scrollbar := {
  config : Config;
  _ratio : float;
  _dragStep : float;
  _lastPointer : float;
  _isDragging : bool;
  _resizeTimer : option nat;
  _destroyed : bool
}.

Definition set_ratio (r : float) (t : Scrollbar) : Scrollbar :=
  {| config := config t; _ratio := r; _dragStep := _dragStep t;
     _lastPointer := _lastPointer t; _isDragging := _isDragging t;
     _resizeTimer := _resizeTimer t; _destroyed := _destroyed t |}.

Definition set_dragStep (x : float) (t : Scrollbar) : Scrollbar :=
  {| config := config t; _ratio := _ratio t; _dragStep := x;
     _lastPointer := _lastPointer t; _isDragging := _isDragging t;
     _resizeTimer := _resizeTimer t; _destroyed := _destroyed t |}.

Definition set_lastPointer (x : float) (t : Scrollbar) : Scrollbar :=
  {| config := config t; _ratio := _ratio t; _dragStep := _dragStep t;
     _lastPointer := x; _isDragging := _isDragging t;
     _resizeTimer := _resizeTimer t; _destroyed := _destroyed t |}.

Definition set_isDragging (b : bool) (t : Scrollbar) : Scrollbar :=
  {| config := config t; _ratio := _ratio t; _dragStep := _dragStep t;
     _lastPointer := _lastPointer t; _isDragging := b;
     _resizeTimer := _resizeTimer t; _destroyed := _destroyed t |}.

Definition set_resizeTimer (o : option nat) (t : Scrollbar) : Scrollbar :=
  {| config := config t; _ratio := _ratio t; _dragStep := _dragStep t;
     _lastPointer := _lastPointer t; _isDragging := _isDragging t;
     _resizeTimer := o; _destroyed := _destroyed t |}.

Definition set_destroyed (b : bool) (t : Scrollbar) : Scrollbar :=
  {| config := config t; _ratio := _ratio t; _dragStep := _dragStep t;
     _lastPointer := _lastPointer t; _isDragging := _isDragging t;
     _resizeTimer := _resizeTimer t; _destroyed := b |}.

(** The state a method runs in: the instance and the host. *)
Record Sys := { this : Scrollbar; host : World }.

Definition with_this (f : Scrollbar -> Scrollbar) (s : Sys) : Sys :=
  {| this := f (this s); host := host s |}.

(** A DOM call made from a method. *)
Definition dom {A} (m : M World A) : M Sys A :=
  fun s => let '(r, w) := m (host s) in (r, {| this := this s; host := w |}).

Definition field {A} (f : Scrollbar -> A) : M Sys A := gets (fun s => f (this s)).
Definition option_ {A} (f : Config -> A) : M Sys A :=
  gets (fun s => f (config (this s))).
Definition assign (f : Scrollbar -> Scrollbar) : M Sys unit := modify (with_this f).

(** The events the host delivers. A mouse or click event carries its target
    and client coordinates, a touch event its list of touch points. *)
Inductive Event :=
| MouseEvent (target : node) (clientX clientY : float)
| TouchEvent (touches : list (float * float))
| KeyboardEvent (key : string)
| UIEvent.

Module DetachedScrollbar.
Local Open Scope float_scope.

(** *** Public accessors *)

Definition ratio (s : Sys) : float := _ratio (this s).
Definition isDragging (s : Sys) : bool := _isDragging (this s).

(** *** Measurement helpers *)

Definition isHorizontal : M Sys bool :=
  d <- option_ direction ;; ret (bool_decide (d = horizontal)).

Definition trackSize : M Sys float :=
  h <- isHorizontal ;;
  el <- option_ track ;;
  if h then dom (get el offsetWidth) else dom (get el offsetHeight).

Definition thumbSize : M Sys float :=
  h <- isHorizontal ;;
  el <- option_ thumb ;;
  if h then dom (get el offsetWidth) else dom (get el offsetHeight).

Definition viewportSize : M Sys float :=
  h <- isHorizontal ;;
  el <- option_ viewport ;;
  if h then dom (get el offsetWidth) else dom (get el offsetHeight).

(** [this.contentEls[0]] is [undefined] for an empty array, and reading a
    property of [undefined] throws a [TypeError]. *)
Definition contentSize : M Sys float :=
  els <- option_ contentEls ;;
  h <- isHorizontal ;;
  match head els with
  | Some el => if h then dom (get el scrollWidth) else dom (get el scrollHeight)
  | None => throw (TypeError "Cannot read properties of undefined")
  end.

(** *** Thumb sizing *)

Definition sizeThumb : M Sys unit :=
  v <- viewportSize ;;
  c <- contentSize ;;
  let visible := v / c in
  t <- trackSize ;;
  let size := t * Math_min visible 1 in
  h <- isHorizontal ;;
  el <- option_ thumb ;;
  (if h then dom (setStyle el width_ (Px size))
   else dom (setStyle el height_ (Px size))) ;;
  t' <- trackSize ;;
  k <- option_ keyboardSteps ;;
  assign (set_dragStep (t' / k)).

(** *** Position application *)

Definition applyPosition : M Sys unit :=
  r <- field _ratio ;;
  t <- trackSize ;;
  th <- thumbSize ;;
  let thumbPos := r * (t - th) in
  r' <- field _ratio ;;
  c <- contentSize ;;
  v <- viewportSize ;;
  let contentPos := - r' * (c - v) in
  h <- isHorizontal ;;
  el <- option_ thumb ;;
  els <- option_ contentEls ;;
  (if h then
     dom (setStyle el left_ (Px thumbPos)) ;;
     for_of els (fun c => dom (setStyle c left_ (Px contentPos)))
   else
     dom (setStyle el top_ (Px thumbPos)) ;;
     for_of els (fun c => dom (setStyle c top_ (Px contentPos)))) ;;
  r'' <- field _ratio ;;
  dom (setAttribute el "aria-valuenow" (AttrNum (Math_round (r'' * 100)))) ;;
  cb <- option_ onScrollCb ;;
  r''' <- field _ratio ;;
  when cb (dom (notify (onScroll r'''))).

Definition clampAndApply : M Sys unit :=
  r <- field _ratio ;;
  when (r <? 0) (assign (set_ratio 0)) ;;
  r' <- field _ratio ;;
  when (1 <? r') (assign (set_ratio 1)) ;;
  applyPosition.

(** *** Public methods *)

Definition scrollTo (ratio : float) : M Sys unit :=
  assign (set_ratio ratio) ;;
  clampAndApply.

Definition scrollToOffset (offset : float) : M Sys unit :=
  vSize <- viewportSize ;;
  cSize <- contentSize ;;
  let target := offset - vSize / 2 in
  assign (set_ratio (target / (cSize - vSize))) ;;
  clampAndApply.

Definition update : M Sys unit :=
  sizeThumb ;;
  applyPosition.

Definition focus : M Sys unit :=
  el <- option_ thumb ;;
  dom (DOM.focus el).

Definition destroy : M Sys unit :=
  d <- field _destroyed ;;
  if d then ret tt
  else
    assign (set_destroyed true) ;;
    th <- option_ thumb ;;
    dom (removeEventListener (TNode th) mousedown OnDown) ;;
    dom (removeEventListener (TNode th) touchstart OnDown) ;;
    dom (removeEventListener (TNode th) keydown OnKey) ;;
    dom (removeEventListener TDocument mousemove OnMove) ;;
    dom (removeEventListener TDocument touchmove OnMove) ;;
    dom (removeEventListener TDocument mouseup OnUp) ;;
    dom (removeEventListener TDocument touchend OnUp) ;;
    tc <- option_ trackClick ;;
    tr <- option_ track ;;
    when tc (dom (removeEventListener (TNode tr) click OnTrackClick)) ;;
    ar <- option_ autoResize ;;
    when ar (dom (removeEventListener TWindow resize OnResize)) ;;
    timer <- field _resizeTimer ;;
    match timer with
    | Some id => dom (clearTimeout id)
    | None => ret tt
    end.

(** *** Initialisation *)

Definition init : M Sys unit :=
  th <- option_ thumb ;;
  has_tabindex <- dom (hasAttribute th "tabindex") ;;
  when (negb has_tabindex) (dom (setAttribute th "tabindex" (AttrStr "0"))) ;;
  has_role <- dom (hasAttribute th "role") ;;
  when (negb has_role)
    (dom (setAttribute th "role" (AttrStr "slider")) ;;
     dom (setAttribute th "aria-valuemin" (AttrStr "0")) ;;
     dom (setAttribute th "aria-valuemax" (AttrStr "100")) ;;
     dom (setAttribute th "aria-valuenow" (AttrStr "0"))) ;;
  has_label <- dom (hasAttribute th "aria-label") ;;
  when (negb has_label)
    (dom (setAttribute th "aria-label" (AttrStr "Scrollbar"))) ;;
  dom (addEventListener (TNode th) mousedown OnDown) ;;
  dom (addEventListener (TNode th) touchstart OnDown) ;;
  dom (addEventListener (TNode th) keydown OnKey) ;;
  tc <- option_ trackClick ;;
  tr <- option_ track ;;
  when tc (dom (addEventListener (TNode tr) click OnTrackClick)) ;;
  ar <- option_ autoResize ;;
  when ar (dom (addEventListener TWindow resize OnResize)) ;;
  sizeThumb.

(** *** Utilities *)

(** ['clientX' in e] holds of a mouse event; otherwise the first touch
    point is read, and [touches[0]] of an empty list is [undefined]. *)
Definition pointerPos (e : Event) : M Sys float :=
  match e with
  | MouseEvent _ x y => h <- isHorizontal ;; ret (if h then x else y)
  | TouchEvent ts =>
      match head ts with
      | Some (x, y) => h <- isHorizontal ;; ret (if h then x else y)
      | None => throw (TypeError "Cannot read properties of undefined")
      end
  | _ => throw (TypeError "Cannot read properties of undefined")
  end.

Definition currentThumbPos : M Sys float :=
  h <- isHorizontal ;;
  el <- option_ thumb ;;
  if h then dom (get el offsetLeft) else dom (get el offsetTop).

(** *** Pointer drag *)

Definition handleDown (e : Event) : M Sys unit :=
  dom preventDefault ;;
  th <- option_ thumb ;;
  dom (DOM.focus th) ;;
  assign (set_isDragging true) ;;
  p <- pointerPos e ;;
  assign (set_lastPointer p) ;;
  dom (addEventListener TDocument mousemove OnMove) ;;
  dom (addEventListener TDocument touchmove OnMove) ;;
  dom (addEventListener TDocument mouseup OnUp) ;;
  dom (addEventListener TDocument touchend OnUp) ;;
  cb <- option_ onDragStartCb ;;
  when cb (dom (notify onDragStart)).

Definition handleMove (e : Event) : M Sys unit :=
  dom preventDefault ;;
  pos <- pointerPos e ;;
  last <- field _lastPointer ;;
  let delta := last - pos in
  assign (set_lastPointer pos) ;;
  cur <- currentThumbPos ;;
  let newPos := cur - delta in
  t <- trackSize ;;
  th <- thumbSize ;;
  assign (set_ratio (newPos / (t - th))) ;;
  clampAndApply.

Definition handleUp : M Sys unit :=
  assign (set_isDragging false) ;;
  dom (removeEventListener TDocument mousemove OnMove) ;;
  dom (removeEventListener TDocument touchmove OnMove) ;;
  dom (removeEventListener TDocument mouseup OnUp) ;;
  dom (removeEventListener TDocument touchend OnUp) ;;
  cb <- option_ onDragEndCb ;;
  when cb (dom (notify onDragEnd)).

(** *** Keyboard *)

Definition handleKey (key : string) : M Sys unit :=
  h <- isHorizontal ;;
  let backKey := if h then "ArrowLeft" else "ArrowUp" in
  h' <- isHorizontal ;;
  let fwdKey := if h' then "ArrowRight" else "ArrowDown" in
  ds <- field _dragStep ;;
  t <- trackSize ;;
  th <- thumbSize ;;
  let step := ds / (t - th) in
  if String.eqb key backKey then
    dom preventDefault ;;
    r <- field _ratio ;;
    assign (set_ratio (r - step)) ;;
    clampAndApply
  else if String.eqb key fwdKey then
    dom preventDefault ;;
    r <- field _ratio ;;
    assign (set_ratio (r + step)) ;;
    clampAndApply
  else if String.eqb key "Home" then
    dom preventDefault ;;
    assign (set_ratio 0) ;;
    clampAndApply
  else if String.eqb key "End" then
    dom preventDefault ;;
    assign (set_ratio 1) ;;
    clampAndApply
  else ret tt.

(** *** Track click *)

Definition handleTrackClick (target : node) (clientX clientY : float)
  : M Sys unit :=
  th <- option_ thumb ;;
  inside <- (if bool_decide (target = th) then ret true
             else dom (contains th target)) ;;
  if inside then ret tt
  else
    tr <- option_ track ;;
    rect <- dom (getBoundingClientRect tr) ;;
    h <- isHorizontal ;;
    let clickPos := if h then clientX - rect_left rect
                    else clientY - rect_top rect in
    t <- trackSize ;;
    assign (set_ratio (clickPos / t)) ;;
    clampAndApply.

(** *** Resize *)

(** The callback given to [setTimeout]. *)
Definition resizeCallback : M Sys unit :=
  sizeThumb ;;
  applyPosition.

Definition handleResize : M Sys unit :=
  timer <- field _resizeTimer ;;
  match timer with
  | Some id => dom (clearTimeout id)
  | None => ret tt
  end ;;
  delay <- option_ resizeDebounce ;;
  id <- dom (setTimeout delay) ;;
  assign (set_resizeTimer (Some id)).
End DetachedScrollbar.
Export DetachedScrollbar.

(** The statements of [init] after the attributes of the thumb are set:
    the registrations and the first [sizeThumb]. *)
Definition init_listen : M Sys unit :=
  th <- option_ thumb ;;
  dom (addEventListener (TNode th) mousedown OnDown) ;;
  dom (addEventListener (TNode th) touchstart OnDown) ;;
  dom (addEventListener (TNode th) keydown OnKey) ;;
  tc <- option_ trackClick ;;
  tr <- option_ track ;;
  when tc (dom (addEventListener (TNode tr) click OnTrackClick)) ;;
  ar <- option_ autoResize ;;
  when ar (dom (addEventListener TWindow resize OnResize)) ;;
  sizeThumb.

(** ** Construction *)

(** An element is given by a selector or by reference; the content is one
    such item or an array of them. *)
Inductive ElementInput := Selector (sel : string) | Reference (n : node).
Inductive ContentInput := Single (i : ElementInput) | Array (items : list ElementInput).

Record DetachedScrollbarOptions := {
  opt_track : ElementInput;
  opt_thumb : ElementInput;
  opt_content : ContentInput;
  opt_viewport : ElementInput;
  opt_direction : option Direction;
  opt_keyboardSteps : option float;
  opt_trackClick : option bool;
  opt_autoResize : option bool;
  opt_resizeDebounce : option float;
  opt_onScroll : bool;
  opt_onDragStart : bool;
  opt_onDragEnd : bool
}.

Definition resolveElement (input : ElementInput) : M World node :=
  match input with
  | Selector sel =>
      el <- querySelector sel ;;
      match el with
      | Some n => ret n
      | None => throw (Error "DetachedScrollbar: element not found for selector")
      end
  | Reference n => ret n
  end.

(** [items.map(resolveElement)] *)
Fixpoint map_resolve (items : list ElementInput) : M World (list node) :=
  match items with
  | [] => ret []
  | i :: rest =>
      n <- resolveElement i ;;
      ns <- map_resolve rest ;;
      ret (n :: ns)
  end.

Definition resolveContentElements (input : ContentInput) : M World (list node) :=
  let items := match input with Array arr => arr | Single i => [i] end in
  map_resolve items.

(** [new DetachedScrollbar(options)]: the instance, or the exception that
    [resolveElement] or [init] threw. *)
Definition constructor (options : DetachedScrollbarOptions) : M World Scrollbar :=
  tr <- resolveElement (opt_track options) ;;
  th <- resolveElement (opt_thumb options) ;;
  vp <- resolveElement (opt_viewport options) ;;
  els <- resolveContentElements (opt_content options) ;;
  let c := {| track := tr; thumb := th; contentEls := els; viewport := vp;
              direction := default horizontal (opt_direction options);
              keyboardSteps := default 50%float (opt_keyboardSteps options);
              trackClick := default true (opt_trackClick options);
              autoResize := default true (opt_autoResize options);
              resizeDebounce := default 100%float (opt_resizeDebounce options);
              onScrollCb := opt_onScroll options;
              onDragStartCb := opt_onDragStart options;
              onDragEndCb := opt_onDragEnd options |} in
  let t := {| config := c; _ratio := 0%float; _dragStep := 0%float;
              _lastPointer := 0%float; _isDragging := false;
              _resizeTimer := None; _destroyed := false |} in
  fun w => match init {| this := t; host := w |} with
           | (Ok _, s) => (Ok (this s), host s)
           | (Throw e, s) => (Throw e, host s)
           end.

(** ** The host's event loop *)

Module Host.
(** The host delivers to a listener an event of the class of its type; the
    touch list of a [touchstart] or [touchmove] holds the touch that started
    or moved, so it is not empty (that of a [touchend] may be). *)
Definition event_class (ty : EventType) (e : Event) : bool :=
  match ty, e with
  | (mousedown | mousemove | mouseup | click), MouseEvent _ _ _ => true
  | (touchstart | touchmove), TouchEvent (_ :: _) => true
  | touchend, TouchEvent _ => true
  | keydown, KeyboardEvent _ => true
  | resize, UIEvent => true
  | _, _ => false
  end.

(** The bound handlers of the constructor. *)
Definition invoke (h : Handler) (e : Event) : M Sys unit :=
  match h, e with
  | OnDown, _ => handleDown e
  | OnMove, _ => handleMove e
  | OnUp, _ => handleUp
  | OnKey, KeyboardEvent key => handleKey key
  | OnTrackClick, MouseEvent target x y => handleTrackClick target x y
  | OnResize, _ => handleResize
  | _, _ => ret tt
  end.

(** An exception that escapes a listener or a timer callback is reported
    by the host; the state it left stays. *)
Definition attempt (m : M Sys unit) : Sys -> Sys := fun s => snd (m s).

Definition registered (t : Target) (ty : EventType) (s : Sys) : list Handler :=
  omap (fun l : Listener =>
          let '(t', ty', h) := l in
          if bool_decide (t' = t /\ ty' = ty) then Some h else None)
       (listeners (host s)).

Definition deliver (t : Target) (ty : EventType) (e : Event) (s : Sys) : Sys :=
  if event_class ty e then
    fold_left (fun s' h => attempt (invoke h e) s') (registered t ty s) s
  else s.

Definition fire (id : nat) (s : Sys) : Sys :=
  if bool_decide (id ∈ timeouts (host s)) then
    attempt resizeCallback
      {| this := this s;
         host := with_timeouts (filter (fun t => t ≠ id) (timeouts (host s)))
                   (nextTimeout (host s)) (host s) |}
  else s.

(** The host lays the document out again: every layout number may change,
    styles and attributes stay. *)
Definition relayout (g : node -> LayoutProp -> float) (r : node -> DOMRect)
    (s : Sys) : Sys :=
  {| this := this s;
     host := with_elements
               (fun n => set_layout (g n) (r n) (elements (host s) n))
               (host s) |}.

(** What can happen to an instance: a call of a public method, an event
    delivered to the listeners registered for it, a timer that fires, and
    a relayout. *)
Inductive Op :=
| CallScrollTo (r : float)
| CallScrollToOffset (x : float)
| CallUpdate
| CallFocus
| CallDestroy
| Deliver (t : Target) (ty : EventType) (e : Event)
| Fire (id : nat)
| Relayout (g : node -> LayoutProp -> float) (r : node -> DOMRect).

Definition step (s : Sys) (o : Op) : Sys :=
  match o with
  | CallScrollTo r => attempt (scrollTo r) s
  | CallScrollToOffset x => attempt (scrollToOffset x) s
  | CallUpdate => attempt update s
  | CallFocus => attempt focus s
  | CallDestroy => attempt destroy s
  | Deliver t ty e => deliver t ty e s
  | Fire id => fire id s
  | Relayout g r => relayout g r s
  end.

Definition run (ops : list Op) (s : Sys) : Sys := fold_left step ops s.
End Host.
Export Host.

(** ** What a state shows: the geometry snapshot and the trace *)

Module Snapshot.
Local Open Scope float_scope.

Definition cfg (s : Sys) : Config := config (this s).

Definition horizontal_p (s : Sys) : bool :=
  bool_decide (direction (cfg s) = horizontal).

(** The properties of the active axis. *)
Definition sizeProp (s : Sys) : LayoutProp :=
  if horizontal_p s then offsetWidth else offsetHeight.
Definition scrollProp (s : Sys) : LayoutProp :=
  if horizontal_p s then scrollWidth else scrollHeight.
Definition offsetProp (s : Sys) : LayoutProp :=
  if horizontal_p s then offsetLeft else offsetTop.
Definition posStyle (s : Sys) : StyleProp :=
  if horizontal_p s then left_ else top_.
Definition extentStyle (s : Sys) : StyleProp :=
  if horizontal_p s then width_ else height_.
Definition backKey (s : Sys) : string :=
  if horizontal_p s then "ArrowLeft" else "ArrowUp".
Definition fwdKey (s : Sys) : string :=
  if horizontal_p s then "ArrowRight" else "ArrowDown".

Definition measure (s : Sys) (n : node) (p : LayoutProp) : float :=
  layout (elements (host s) n) p.

Definition trackExtent (s : Sys) : float := measure s (track (cfg s)) (sizeProp s).
Definition thumbExtent (s : Sys) : float := measure s (thumb (cfg s)) (sizeProp s).
Definition viewportExtent (s : Sys) : float :=
  measure s (viewport (cfg s)) (sizeProp s).
(** The content extent, measured on the element [c]. *)
Definition contentExtent (s : Sys) (c : node) : float := measure s c (scrollProp s).
Definition thumbOffset (s : Sys) : float := measure s (thumb (cfg s)) (offsetProp s).

Definition travel (s : Sys) : float := trackExtent s - thumbExtent s.
Definition overflow (s : Sys) (c : node) : float :=
  contentExtent s c - viewportExtent s.

(** The state [s] after the effects [es] happened, in this order. *)
Definition after (es : list Effect) (s : Sys) : Sys :=
  {| this := this s; host := fold_left (fun w e => effect e w) es (host s) |}.

(** The effects recorded between [s] and a later state [s']. *)
Definition since (s s' : Sys) : list Effect :=
  drop (length (trace (host s))) (trace (host s')).

Definition writes (es : list Effect) : list Effect := filter (fun e => is_write e) es.
Definition reads (es : list Effect) : list Effect := filter (fun e => is_read e) es.

(** The ratio is a number of the unit interval, or not a number at all. *)
Definition ratio_ok (r : float) : Prop := is_nan r = true \/ in_unit r = true.

(** The reads of [applyPosition], its writes, and its observer call. *)
Definition apply_reads (s : Sys) (c : node) : list Effect :=
  [Get (track (cfg s)) (sizeProp s); Get (thumb (cfg s)) (sizeProp s);
   Get c (scrollProp s); Get (viewport (cfg s)) (sizeProp s)].

Definition apply_writes (s : Sys) (c : node) : list Effect :=
  SetStyle (thumb (cfg s)) (posStyle s) (Px (ratio s * travel s))
  :: map (fun el => SetStyle el (posStyle s) (Px (- ratio s * overflow s c)))
       (contentEls (cfg s))
  ++ [SetAttribute (thumb (cfg s)) "aria-valuenow"
        (AttrNum (Math_round (ratio s * 100)))].

Definition apply_notify (s : Sys) : list Effect :=
  if onScrollCb (cfg s) then [Notify (onScroll (ratio s))] else [].
(** The ratio [scrollToOffset] computes before the clamp. *)
Definition offset_ratio (offset : float) (s : Sys) (c : node) : float :=
  (offset - viewportExtent s / 2) / (contentExtent s c - viewportExtent s).

(** The step of a keyboard arrow, as a ratio. *)
Definition key_step (s : Sys) : float := _dragStep (this s) / travel s.

(** The ratio [handleMove] computes before the clamp, for a pointer at
    [pos]. *)
Definition move_ratio (pos : float) (s : Sys) : float :=
  (thumbOffset s - (_lastPointer (this s) - pos)) / travel s.

(** The thumb extent [sizeThumb] computes. *)
Definition thumb_size (s : Sys) (c : node) : float :=
  trackExtent s * Math_min (viewportExtent s / contentExtent s c) 1.

(** The effects of [sizeThumb], in their order. *)
Definition size_effects (s : Sys) (c : node) : list Effect :=
  [Get (viewport (cfg s)) (sizeProp s); Get c (scrollProp s);
   Get (track (cfg s)) (sizeProp s);
   SetStyle (thumb (cfg s)) (extentStyle s) (Px (thumb_size s c));
   Get (track (cfg s)) (sizeProp s)].

(** The coordinate [pointerPos] reads from an event, when it reads one. *)
Definition pointer_of (e : Event) (s : Sys) : option float :=
  match e with
  | MouseEvent _ x y => Some (if horizontal_p s then x else y)
  | TouchEvent ((x, y) :: _) => Some (if horizontal_p s then x else y)
  | _ => None
  end.

(** The reads [handleKey] makes before it looks at the key. *)
Definition key_reads (s : Sys) : list Effect :=
  [Get (track (cfg s)) (sizeProp s); Get (thumb (cfg s)) (sizeProp s)].

(** The state in which [handleKey] calls [clampAndApply] for a recognised
    key: the two reads and [preventDefault] have happened, and [raw] has
    been assigned to the ratio. *)
Definition key_assigned (raw : float) (s : Sys) : Sys :=
  with_this (set_ratio raw) (after (key_reads s ++ [PreventDefault]) s).

(** The ratio [handleTrackClick] computes before the clamp. *)
Definition click_ratio (x y : float) (s : Sys) : float :=
  let rect := boundingClientRect (elements (host s) (track (cfg s))) in
  (if horizontal_p s then x - rect_left rect else y - rect_top rect)
  / trackExtent s.

(** The effects of [handleDown] and of [handleUp], in their order. *)
Definition down_effects (s : Sys) : list Effect :=
  [PreventDefault; Focus (thumb (cfg s));
   AddEventListener (TDocument, mousemove, OnMove);
   AddEventListener (TDocument, touchmove, OnMove);
   AddEventListener (TDocument, mouseup, OnUp);
   AddEventListener (TDocument, touchend, OnUp)]
  ++ (if onDragStartCb (cfg s) then [Notify onDragStart] else []).

Definition up_effects (s : Sys) : list Effect :=
  [RemoveEventListener (TDocument, mousemove, OnMove);
   RemoveEventListener (TDocument, touchmove, OnMove);
   RemoveEventListener (TDocument, mouseup, OnUp);
   RemoveEventListener (TDocument, touchend, OnUp)]
  ++ (if onDragEndCb (cfg s) then [Notify onDragEnd] else []).

(** The effects of [destroy] on an instance that is not destroyed yet. *)
Definition destroy_effects (s : Sys) : list Effect :=
  [RemoveEventListener (TNode (thumb (cfg s)), mousedown, OnDown);
   RemoveEventListener (TNode (thumb (cfg s)), touchstart, OnDown);
   RemoveEventListener (TNode (thumb (cfg s)), keydown, OnKey);
   RemoveEventListener (TDocument, mousemove, OnMove);
   RemoveEventListener (TDocument, touchmove, OnMove);
   RemoveEventListener (TDocument, mouseup, OnUp);
   RemoveEventListener (TDocument, touchend, OnUp)]
  ++ (if trackClick (cfg s)
      then [RemoveEventListener (TNode (track (cfg s)), click, OnTrackClick)]
      else [])
  ++ (if autoResize (cfg s)
      then [RemoveEventListener (TWindow, resize, OnResize)] else [])
  ++ match _resizeTimer (this s) with
     | Some id => [ClearTimeout id]
     | None => []
     end.

(** The effects of [handleResize]. *)
Definition resize_effects (s : Sys) : list Effect :=
  match _resizeTimer (this s) with
  | Some id => [ClearTimeout id]
  | None => []
  end
  ++ [SetTimeout (nextTimeout (host s)) (resizeDebounce (cfg s))].

(** An effect that touches neither the listeners nor the timers. *)
Definition quiet (e : Effect) : bool :=
  match e with
  | AddEventListener _ | RemoveEventListener _ | SetTimeout _ _ | ClearTimeout _ => false
  | _ => true
  end.

(** A step that leaves the listeners, the timers, the configuration, the
    drag flag, the resize timer and the destroyed flag alone, and the ratio
    either as it was or in order. *)
Definition quiet_step (s s' : Sys) : Prop :=
  exists es,
    Forall (fun e => quiet e = true) es /\
    host s' = host (after es s) /\
    config (this s') = config (this s) /\
    _isDragging (this s') = _isDragging (this s) /\
    _resizeTimer (this s') = _resizeTimer (this s) /\
    _destroyed (this s') = _destroyed (this s) /\
    (ratio s' = ratio s \/ ratio_ok (ratio s')).

(** What an effect does to the list of listeners and to the pending
    timers. *)
Definition listener_change (ls : list Listener) (e : Effect) : list Listener :=
  match e with
  | AddEventListener l => if bool_decide (l ∈ ls) then ls else ls ++ [l]
  | RemoveEventListener l => filter (fun l' => l' ≠ l) ls
  | _ => ls
  end.

Definition timer_change (ts : list nat) (e : Effect) : list nat :=
  match e with
  | SetTimeout id _ => ts ++ [id]
  | ClearTimeout id => filter (fun t => t ≠ id) ts
  | _ => ts
  end.

Definition is_timer (e : Effect) : bool :=
  match e with SetTimeout _ _ | ClearTimeout _ => true | _ => false end.

(** The registrations at the end of [init], in their order. *)
Definition init_effects (s : Sys) : list Effect :=
  [AddEventListener (TNode (thumb (cfg s)), mousedown, OnDown);
   AddEventListener (TNode (thumb (cfg s)), touchstart, OnDown);
   AddEventListener (TNode (thumb (cfg s)), keydown, OnKey)]
  ++ (if trackClick (cfg s)
      then [AddEventListener (TNode (track (cfg s)), click, OnTrackClick)] else [])
  ++ (if autoResize (cfg s)
      then [AddEventListener (TWindow, resize, OnResize)] else []).


(** The listeners an instance ever registers. *)
Definition thumb_listeners (c : Config) : list Listener :=
  [(TNode (thumb c), mousedown, OnDown); (TNode (thumb c), touchstart, OnDown);
   (TNode (thumb c), keydown, OnKey)].

Definition drag_listeners : list Listener :=
  [(TDocument, mousemove, OnMove); (TDocument, touchmove, OnMove);
   (TDocument, mouseup, OnUp); (TDocument, touchend, OnUp)].

Definition option_listeners (c : Config) : list Listener :=
  (if trackClick c then [(TNode (track c), click, OnTrackClick)] else [])
  ++ (if autoResize c then [(TWindow, resize, OnResize)] else []).

Definition owned (c : Config) : list Listener :=
  thumb_listeners c ++ drag_listeners ++ option_listeners c.


(** What holds of the listeners and timers of an instance throughout its
    life: the host holds no listener but the instance's own and no timer
    but its resize timer; a live instance listens on its thumb, and for
    the release while it is dragging; a destroyed one holds nothing. *)
Record lifecycle (s : Sys) : Prop := {
  listeners_owned : forall l, l ∈ listeners (host s) -> l ∈ owned (cfg s);
  timer_known : forall id, id ∈ timeouts (host s) -> _resizeTimer (this s) = Some id;
  destroyed_bare :
    _destroyed (this s) = true -> listeners (host s) = [] /\ timeouts (host s) = [];
  thumb_listening :
    _destroyed (this s) = false ->
    forall l, l ∈ thumb_listeners (cfg s) -> l ∈ listeners (host s);
  release_listening :
    _destroyed (this s) = false -> _isDragging (this s) = true ->
    (TDocument, mouseup, OnUp) ∈ listeners (host s) /\
    (TDocument, touchend, OnUp) ∈ listeners (host s)
}.

(** What a handler does to the fields that matter here. *)
Record handled (h : Handler) (s s' : Sys) : Prop := {
  handled_config : config (this s') = config (this s);
  handled_destroyed : _destroyed (this s') = _destroyed (this s);
  handled_ratio : ratio s' = ratio s \/ ratio_ok (ratio s');
  handled_dragging :
    isDragging s' = match h with
                    | OnDown => true
                    | OnUp => false
                    | _ => isDragging s
                    end
}.

(** A document in which no instance has registered anything yet. *)
Definition pristine (w : World) : Prop := listeners w = [] /\ timeouts w = [].




Definition is_destroy (o : Op) : bool :=
  match o with CallDestroy => true | _ => false end.

(** The events of the host, as opposed to the calls of the page. *)
Definition is_host_event (o : Op) : bool :=
  match o with Deliver _ _ _ | Fire _ => true | _ => false end.

(** The effects of [update]: those of [sizeThumb], then those of
    [applyPosition]. *)
Definition update_effects (s : Sys) (c : node) : list Effect :=
  size_effects s c ++ apply_reads s c ++ apply_writes s c ++ apply_notify s.


(** The observer calls among the effects [es]. *)
Definition notifications (es : list Effect) : list Notification :=
  omap (fun e => match e with Notify c => Some c | _ => None end) es.
End Snapshot.
Export Snapshot.

(** ** A sample document *)

Module Sample.
Local Open Scope float_scope.

(** An element with the given offset size, offset position and scroll size. *)
Definition box (w h l t sw sh : float) : Element :=
  {| layout := fun p =>
       match p with
       | offsetWidth => w | offsetHeight => h
       | offsetLeft => l | offsetTop => t
       | scrollWidth => sw | scrollHeight => sh
       end;
     boundingClientRect := {| rect_left := 0; rect_top := 0 |};
     style := fun _ => None;
     attributes := ∅ |}.

(** A track (node 1) of extent [tw], a thumb (node 2) of extent [thw] at
    offset [thl], a viewport (node 3) of extent [vw], and content elements
    (every other node) of extent [cw]. *)
Definition page (tw thw thl vw cw : float) : World :=
  {| elements := fun n =>
       match n with
       | 1%nat => box tw 10 0 0 tw 10
       | 2%nat => box thw 10 thl 0 thw 10
       | 3%nat => box vw 100 0 0 vw 100
       | _ => box cw 100 0 0 cw 100
       end;
     selectors := fun _ => None;
     descendant := fun _ _ => false;
     listeners := []; timeouts := []; nextTimeout := 0%nat;
     activeElement := None; trace := [] |}.

Definition options (content : list node) : DetachedScrollbarOptions :=
  {| opt_track := Reference 1%nat; opt_thumb := Reference 2%nat;
     opt_content := Array (map Reference content);
     opt_viewport := Reference 3%nat;
     opt_direction := None; opt_keyboardSteps := None;
     opt_trackClick := None; opt_autoResize := None;
     opt_resizeDebounce := None;
     opt_onScroll := true; opt_onDragStart := true; opt_onDragEnd := true |}.

(** The instance that [new DetachedScrollbar(options)] would leave in its
    fields had [init] not thrown. *)
Definition blank (content : list node) : Scrollbar :=
  {| config := {| track := 1%nat; thumb := 2%nat; contentEls := content;
                  viewport := 3%nat; direction := horizontal;
                  keyboardSteps := 50; trackClick := true; autoResize := true;
                  resizeDebounce := 100; onScrollCb := true;
                  onDragStartCb := true; onDragEndCb := true |};
     _ratio := 0; _dragStep := 0; _lastPointer := 0; _isDragging := false;
     _resizeTimer := None; _destroyed := false |}.

(** The state after [new DetachedScrollbar(options content)] on a page. *)
Definition constructed (content : list node) (w : World) : Sys :=
  match constructor (options content) w with
  | (Ok t, w') => {| this := t; host := w' |}
  | (Throw _, w') => {| this := blank content; host := w' |}
  end.

(** Two content rows of extent 400 in a viewport of 100, under a track of
    200 whose thumb measures 40. *)
Definition two_rows : Sys := constructed [4%nat; 5%nat] (page 200 40 0 100 400).

(** The same document with the thumb laid out at offset 80, the place of
    ratio 0.5 on a travel of 160, after [scrollTo(0.5)]. *)
Definition halfway : Sys :=
  snd (scrollTo 0.5 (constructed [4%nat; 5%nat] (page 200 40 80 100 400))).

(** A press on the thumb at client coordinate [p], and a move to [p]. *)
Definition press (p : float) : Op := Deliver (TNode 2%nat) mousedown (MouseEvent 2%nat p 0).
Definition move (p : float) : Op := Deliver TDocument mousemove (MouseEvent 2%nat p 0).
Definition release : Op := Deliver TDocument mouseup (MouseEvent 2%nat 0 0).

(** A document that is not laid out (hidden): every extent is 0. *)
Definition hidden : Sys := constructed [4%nat] (page 0 0 0 0 0).


End Sample.

(** ** Further vocabulary: construction, listeners, footprint *)

Module Coverage.
Local Open Scope float_scope.

Definition base_listeners (c : Config) : list Listener :=
  thumb_listeners c ++ option_listeners c.

Definition has_attribute (s : Sys) (a : string) : bool :=
  bool_decide (is_Some (attributes (elements (host s) (thumb (cfg s))) !! a)).

Definition attr_effects (s : Sys) : list Effect :=
  let th := thumb (cfg s) in
  [HasAttribute th "tabindex"]
  ++ (if has_attribute s "tabindex" then []
      else [SetAttribute th "tabindex" (AttrStr "0")])
  ++ [HasAttribute th "role"]
  ++ (if has_attribute s "role" then []
      else [SetAttribute th "role" (AttrStr "slider");
            SetAttribute th "aria-valuemin" (AttrStr "0");
            SetAttribute th "aria-valuemax" (AttrStr "100");
            SetAttribute th "aria-valuenow" (AttrStr "0")])
  ++ [HasAttribute th "aria-label"]
  ++ (if has_attribute s "aria-label" then []
      else [SetAttribute th "aria-label" (AttrStr "Scrollbar")]).

(** The fields of an instance before [init] runs. *)
Definition fresh_fields (t : Scrollbar) : Prop :=
  _ratio t = 0%float /\ _dragStep t = 0%float /\ _lastPointer t = 0%float /\
  _isDragging t = false /\ _resizeTimer t = None /\ _destroyed t = false.

(** The options as the constructor reads them, with their defaults. *)
Definition configured (options : DetachedScrollbarOptions) (c : Config) : Prop :=
  direction c = default horizontal (opt_direction options) /\
  keyboardSteps c = default 50%float (opt_keyboardSteps options) /\
  trackClick c = default true (opt_trackClick options) /\
  autoResize c = default true (opt_autoResize options) /\
  resizeDebounce c = default 100%float (opt_resizeDebounce options) /\
  onScrollCb c = opt_onScroll options /\
  onDragStartCb c = opt_onDragStart options /\
  onDragEndCb c = opt_onDragEnd options.

(** The element an effect writes to. *)
Definition target_of (e : Effect) : option node :=
  match e with
  | SetStyle n _ _ | SetAttribute n _ _ => Some n
  | _ => None
  end.

(** The names [init] may set on the thumb. *)
Definition init_attribute_names : list string :=
  ["tabindex"; "role"; "aria-valuemin"; "aria-valuemax"; "aria-valuenow"; "aria-label"].

Definition resolves (w : World) (i : ElementInput) : bool :=
  match i with
  | Selector sel => bool_decide (is_Some (selectors w sel))
  | Reference _ => true
  end.

Definition content_items (input : ContentInput) : list ElementInput :=
  match input with Array arr => arr | Single i => [i] end.

(** The elements the constructor resolves, in its order. *)
Definition inputs (options : DetachedScrollbarOptions) : list ElementInput :=
  opt_track options :: opt_thumb options :: opt_viewport options
  :: content_items (opt_content options).

(** The page [w'] is the page [w] but for the trace. *)
Definition untouched (w w' : World) : Prop :=
  elements w' = elements w /\ selectors w' = selectors w /\
  descendant w' = descendant w /\ listeners w' = listeners w /\
  timeouts w' = timeouts w /\ nextTimeout w' = nextTimeout w /\
  activeElement w' = activeElement w.

(** The listeners an instance holds: none once destroyed; otherwise those
    of the construction and, while dragging, those of the document. *)
Definition expected_listeners (s : Sys) : list Listener :=
  if _destroyed (this s) then []
  else base_listeners (cfg s) ++ (if _isDragging (this s) then drag_listeners else []).

(** At most one timer is pending, and it is the one the instance holds. *)
Definition one_timer (s : Sys) : Prop :=
  timeouts (host s) = [] \/
  exists id, timeouts (host s) = [id] /\ _resizeTimer (this s) = Some id.

Record steady (s : Sys) : Prop := {
  steady_listeners : listeners (host s) = expected_listeners s;
  steady_timer : one_timer s;
  steady_content : contentEls (cfg s) <> []
}.

Definition is_preventDefault (e : Effect) : bool :=
  match e with PreventDefault => true | _ => false end.

(** How many times [preventDefault] is called among the effects [es]. *)
Definition prevented (es : list Effect) : nat :=
  length (filter (fun e => is_preventDefault e) es).

(** The keys [handleKey] recognises. *)
Definition recognised (s : Sys) (key : string) : bool :=
  bool_decide (key ∈ [backKey s; fwdKey s; "Home"; "End"]).



(** The style properties an instance writes: the position and the extent
    of the thumb along the axis, and the position of the content elements
    along the axis. *)
Definition footprint_style (s : Sys) (n : node) (p : StyleProp) : Prop :=
  (n = thumb (cfg s) /\ (p = posStyle s \/ p = extentStyle s)) \/
  (n ∈ contentEls (cfg s) /\ p = posStyle s).

(** An effect that writes nothing outside this footprint, and no attribute
    but [aria-valuenow] of the thumb. *)
Definition confined (s : Sys) (e : Effect) : Prop :=
  match e with
  | SetStyle n p _ => footprint_style s n p
  | SetAttribute n a _ => n = thumb (cfg s) /\ a = "aria-valuenow"
  | _ => True
  end.

(** From [s] to [s'] every style outside the footprint and every attribute
    but [aria-valuenow] of the thumb is kept. *)
Definition keeps (s s' : Sys) : Prop :=
  cfg s' = cfg s /\
  (forall n p, ~ footprint_style s n p ->
     style (elements (host s') n) p = style (elements (host s) n) p) /\
  (forall n a, n <> thumb (cfg s) \/ a <> "aria-valuenow" ->
     attributes (elements (host s') n) !! a = attributes (elements (host s) n) !! a).
End Coverage.
Export Coverage.

(** * Properties *)

(** ** Numbers *)

Section NumberFacts.
Local Open Scope float_scope.

Lemma is_nan_SF x : is_nan x = true <-> Prim2SF x = S754_nan.
Proof.
  unfold is_nan. rewrite FloatAxioms.eqb_spec. unfold SFeqb.
  destruct (Prim2SF x) as [s|s| |s m e]; simpl.
  - split; discriminate.
  - destruct s; split; discriminate.
  - tauto.
  - destruct s; rewrite Z.compare_refl, ?Pos.compare_cont_refl; simpl;
      split; discriminate.
Qed.

Lemma not_nan_SF x : is_nan x = false <-> Prim2SF x <> S754_nan.
Proof.
  rewrite <- is_nan_SF. destruct (is_nan x); split; congruence.
Qed.

Lemma SFcompare_antisym x y :
  SFcompare y x = option_map CompOpp (SFcompare x y).
Proof.
  destruct x as [s|s| |s m e], y as [s'|s'| |s' m' e']; simpl;
    try reflexivity;
    try (destruct s; reflexivity); try (destruct s'; reflexivity);
    try (destruct s, s'; reflexivity).
  destruct s, s'; simpl; try reflexivity; f_equal;
    rewrite (Z.compare_antisym e e'); destruct (e ?= e')%Z eqn:E; simpl;
    try reflexivity;
    rewrite (Pos.compare_cont_antisym _ _ Eq); simpl; try reflexivity.
  rewrite CompOpp_involutive. reflexivity.
Qed.

Lemma SFcompare_total x y :
  x <> S754_nan -> y <> S754_nan -> SFcompare x y <> None.
Proof.
  destruct x as [s|s| |s m e], y as [s'|s'| |s' m' e']; simpl; congruence.
Qed.

(** A comparison with NaN is false. *)
Lemma ltb_nan_l x y : is_nan x = true -> (x <? y) = false.
Proof.
  intros H. apply is_nan_SF in H. rewrite FloatAxioms.ltb_spec. unfold SFltb.
  rewrite H. reflexivity.
Qed.

Lemma ltb_nan_r x y : is_nan y = true -> (x <? y) = false.
Proof.
  intros H. apply is_nan_SF in H. rewrite FloatAxioms.ltb_spec. unfold SFltb.
  rewrite H. destruct (Prim2SF x); reflexivity.
Qed.


(** On numbers, [not (x < y)] is [y <= x]. *)
Lemma ltb_false_leb x y :
  is_nan x = false -> is_nan y = false -> (x <? y) = false -> (y <=? x) = true.
Proof.
  intros Hx Hy. apply not_nan_SF in Hx, Hy.
  rewrite FloatAxioms.ltb_spec, FloatAxioms.leb_spec. unfold SFltb, SFleb.
  rewrite (SFcompare_antisym (Prim2SF x) (Prim2SF y)).
  pose proof (SFcompare_total _ _ Hx Hy) as T.
  destruct (SFcompare (Prim2SF x) (Prim2SF y)) as [[]|]; simpl; congruence.
Qed.

Lemma leb_ltb_false x y : (x <=? y) = true -> (y <? x) = false.
Proof.
  rewrite FloatAxioms.ltb_spec, FloatAxioms.leb_spec. unfold SFltb, SFleb.
  rewrite (SFcompare_antisym (Prim2SF x) (Prim2SF y)).
  destruct (SFcompare (Prim2SF x) (Prim2SF y)) as [[]|]; simpl; congruence.
Qed.

Lemma ltb_leb x y : (x <? y) = true -> (x <=? y) = true.
Proof.
  rewrite FloatAxioms.ltb_spec, FloatAxioms.leb_spec. unfold SFltb, SFleb.
  destruct (SFcompare (Prim2SF x) (Prim2SF y)) as [[]|]; simpl; congruence.
Qed.

(** The clamp leaves NaN alone and brings every number into [0, 1]. *)
Lemma clamp01_nan r : is_nan r = true -> clamp01 r = r.
Proof.
  intros H. unfold clamp01.
  rewrite (ltb_nan_l r 0 H), (ltb_nan_r 1 r H). reflexivity.
Qed.

Lemma clamp01_in_unit r : is_nan r = false -> in_unit (clamp01 r) = true.
Proof.
  intros H. unfold clamp01.
  destruct (r <? 0) eqn:E0; [reflexivity|].
  destruct (1 <? r) eqn:E1; [reflexivity|].
  unfold in_unit. apply andb_true_iff. split.
  - apply ltb_false_leb; first [assumption | reflexivity].
  - apply ltb_false_leb; first [assumption | reflexivity].
Qed.

Lemma clamp01_ok r : ratio_ok (clamp01 r).
Proof.
  destruct (is_nan r) eqn:E.
  - left. rewrite clamp01_nan; auto.
  - right. apply clamp01_in_unit; auto.
Qed.


Lemma clamp01_idem r : clamp01 (clamp01 r) = clamp01 r.
Proof.
  destruct (is_nan r) eqn:E.
  - rewrite (clamp01_nan r E). apply clamp01_nan, E.
  - pose proof (clamp01_in_unit r E) as U. unfold in_unit in U.
    apply andb_true_iff in U as [U0 U1].
    apply leb_ltb_false in U0, U1.
    unfold clamp01 at 1. rewrite U0, U1. reflexivity.
Qed.











End NumberFacts.

(** *** Division

    The quotient of two positive binary64 numbers is computed from their
    mantissas and exponents; when the dividend is at least the divisor the
    rounded quotient is at least 1. *)

Section DivisionFacts.
Local Open Scope Z_scope.

Lemma digits2_pos_size p : digits2_pos p = Pos.size p.
Proof. induction p as [p IH|p IH|]; simpl; rewrite ?IH; reflexivity. Qed.

Lemma digits2_pos_bounds p :
  2 ^ (Z.pos (digits2_pos p) - 1) <= Z.pos p < 2 ^ Z.pos (digits2_pos p).
Proof.
  rewrite digits2_pos_size.
  pose proof (Pos.size_gt p) as G. pose proof (Pos.size_le p) as L.
  apply Pos2Z.pos_lt_pos in G. apply Pos2Z.pos_le_pos in L.
  rewrite Pos2Z.inj_pow in G, L.
  change (Z.pos p~0) with (2 * Z.pos p) in L.
  replace (Z.pos (Pos.size p)) with (Z.pos (Pos.size p) - 1 + 1) in L at 1 by lia.
  rewrite Z.pow_add_r in L by lia. change (2 ^ 1) with 2 in L. lia.
Qed.

Lemma digits2_pos_unique p k :
  2 ^ (k - 1) <= Z.pos p < 2 ^ k -> Z.pos (digits2_pos p) = k.
Proof.
  intros [L U]. destruct (digits2_pos_bounds p) as [L' U'].
  assert (K : 0 < k).
  { destruct (Z.ltb_spec 0 k) as [|N]; [assumption|].
    assert (2 ^ k <= 2 ^ 0) by (destruct (Z.eq_dec k 0) as [->|]; [lia|];
      rewrite Z.pow_neg_r by lia; simpl; lia).
    simpl in *. lia. }
  assert (A : k - 1 < Z.pos (digits2_pos p)).
  { apply (Z.pow_lt_mono_r_iff 2); lia. }
  assert (B : Z.pos (digits2_pos p) - 1 < k).
  { apply (Z.pow_lt_mono_r_iff 2); lia. }
  lia.
Qed.

Lemma shr_m_of_loc m l : shr_m (shr_record_of_loc m l) = m.
Proof. destruct l as [|[]]; reflexivity. Qed.

Lemma shr_m_shr_1 mrs : 0 <= shr_m mrs -> shr_m (shr_1 mrs) = Z.div2 (shr_m mrs).
Proof.
  destruct mrs as [m r s]. simpl. intros H.
  destruct m as [|[p|p|]|p]; try reflexivity; lia.
Qed.

Lemma round_nearest_even_bounds m l :
  m <= round_nearest_even m l <= m + 1.
Proof.
  destruct l as [|[]]; simpl; try lia. destruct (Z.even m); lia.
Qed.

(** Normalising a mantissa of 53 or 54 bits: at most one shift. *)
Lemma shr_fexp_norm m e l :
  2 ^ 52 <= m < 2 ^ 54 -> -1021 <= e ->
  exists mrs e1,
    shr_fexp 53 1024 m e l = (mrs, e1) /\
    2 ^ 52 <= shr_m mrs < 2 ^ 53 /\ e <= e1 /\ (2 ^ 53 <= m -> e1 = e + 1).
Proof.
  intros [L U] He. destruct m as [|p|p]; try (simpl in L; lia).
  unfold shr_fexp, fexp, emin, Zdigits2.
  destruct (Z.lt_ge_cases (Z.pos p) (2 ^ 53)) as [Hs|Hb].
  - rewrite (digits2_pos_unique p 53) by (split; [exact L|exact Hs]).
    replace (Z.max (53 + e - 53) (3 - 1024 - 53) - e) with 0 by lia.
    eexists _, _. split; [reflexivity|]. rewrite shr_m_of_loc.
    split; [lia|]. split; lia.
  - rewrite (digits2_pos_unique p 54) by (split; [exact Hb|exact U]).
    replace (Z.max (54 + e - 53) (3 - 1024 - 53) - e) with 1 by lia.
    eexists _, _. split; [reflexivity|]. cbn [SpecFloat.iter_pos].
    rewrite shr_m_shr_1 by (rewrite shr_m_of_loc; lia).
    rewrite shr_m_of_loc, Z.div2_div.
    split; [|split; lia].
    split; [apply Z.div_le_lower_bound; lia|apply Z.div_lt_upper_bound; lia].
Qed.

(** The quotient of two positive binary64 numbers, the first at least the
    second, is at least 1: the division is rounded to nearest, and 1 is a
    binary64 number. *)
Lemma SFdiv_ge_one mx ex my ey :
  bounded 53 1024 mx ex = true -> bounded 53 1024 my ey = true ->
  ey < ex \/ (ex = ey /\ Z.pos my <= Z.pos mx) ->
  SFleb (S754_finite false 4503599627370496 (-52))
    (SFdiv 53 1024 (S754_finite false mx ex) (S754_finite false my ey)) = true.
Proof.
  intros Bx By Hxy.
  unfold bounded, canonical_mantissa, fexp, emin in Bx, By.
  apply andb_true_iff in Bx as [Cx _]. apply andb_true_iff in By as [Cy _].
  apply Z.eqb_eq in Cx, Cy.
  destruct (digits2_pos_bounds mx) as [Lx Ux].
  destruct (digits2_pos_bounds my) as [Ly Uy].
  set (d1 := Z.pos (digits2_pos mx)) in *. set (d2 := Z.pos (digits2_pos my)) in *.
  assert (P1 : 0 < d1) by (unfold d1; lia). assert (P2 : 0 < d2) by (unfold d2; lia).
  assert (Hd : d2 <= d1).
  { destruct Hxy as [Hlt|[-> Hm]]; [lia|].
    destruct (Z.le_gt_cases d2 d1) as [|N]; [assumption|exfalso].
    assert (2 ^ d1 <= 2 ^ (d2 - 1)) by (apply Z.pow_le_mono_r; lia). lia. }
  assert (HD : 0 <= d1 + ex - (d2 + ey)) by lia.
  unfold SFdiv, SFdiv_core_binary, fexp, emin. cbn [Zdigits2 xorb]. fold d1 d2.
  set (e' := Z.min (Z.max (d1 + ex - (d2 + ey) - 53) (3 - 1024 - 53)) (ex - ey)).
  assert (He' : e' = d1 + ex - (d2 + ey) - 53) by (unfold e'; lia).
  assert (Hs : ex - ey - e' = 53 - d1 + d2) by lia.
  rewrite Hs.
  assert (Hm' : match 53 - d1 + d2 with
                | Z.pos _ => Z.shiftl (Z.pos mx) (53 - d1 + d2)
                | 0 => Z.pos mx
                | Z.neg _ => 0
                end = Z.pos mx * 2 ^ (53 - d1 + d2)).
  { destruct (53 - d1 + d2) eqn:E; try lia. rewrite Z.shiftl_mul_pow2 by lia.
    reflexivity. }
  rewrite Hm'. clear Hm'.
  set (m' := Z.pos mx * 2 ^ (53 - d1 + d2)).
  pose proof (Z_div_mod m' (Z.pos my) eq_refl) as Hdiv.
  destruct (Z.div_eucl m' (Z.pos my)) as [q r]. destruct Hdiv as [Hq Hr].
  assert (E1 : 2 ^ (d1 - 1) * 2 ^ (53 - d1 + d2) = 2 ^ 52 * 2 ^ d2).
  { rewrite <- !Z.pow_add_r by lia. f_equal. lia. }
  assert (E2 : 2 ^ d1 * 2 ^ (53 - d1 + d2) = 2 ^ 53 * 2 ^ d2).
  { rewrite <- !Z.pow_add_r by lia. f_equal. lia. }
  assert (E3 : 2 ^ d2 = 2 * 2 ^ (d2 - 1)).
  { replace d2 with (1 + (d2 - 1)) at 1 by lia. rewrite Z.pow_add_r by lia.
    reflexivity. }
  assert (Pp : 0 < 2 ^ (53 - d1 + d2)) by (apply Z.pow_pos_nonneg; lia).
  assert (Pd : 0 < 2 ^ (d2 - 1)) by (apply Z.pow_pos_nonneg; lia).
  assert (Lm : 2 ^ 52 * 2 ^ d2 <= m') by (unfold m'; rewrite <- E1; nia).
  assert (Um : m' < 2 ^ 53 * 2 ^ d2) by (unfold m'; rewrite <- E2; nia).
  assert (Lq : 2 ^ 52 <= q) by nia.
  assert (Uq : q < 2 ^ 54) by nia.
  assert (Hz : -52 <= e' \/ 2 ^ 53 <= q).
  { destruct Hxy as [Hlt|[-> Hm]]; [left; lia|].
    destruct (Z.eq_dec d1 d2) as [Heq|]; [right|left; lia].
    unfold m' in Hq. rewrite Heq in Hq.
    replace (53 - d2 + d2) with 53 in Hq by lia. nia. }
  unfold binary_round_aux.
  destruct (shr_fexp_norm q e' (new_location (Z.pos my) r))
    as (mrs1 & e1 & -> & [L1 U1] & G1 & S1); [lia|lia|].
  pose proof (round_nearest_even_bounds (shr_m mrs1) (loc_of_shr_record mrs1)) as Rb.
  destruct (shr_fexp_norm (round_nearest_even (shr_m mrs1) (loc_of_shr_record mrs1))
              e1 loc_Exact) as (mrs2 & e2 & -> & [L2 U2] & G2 & S2); [lia|lia|].
  destruct (shr_m mrs2) as [|m|m] eqn:Em; try lia.
  destruct (e2 <=? 1024 - 53); [|reflexivity].
  unfold SFleb, SFcompare.
  assert (He2 : -52 <= e2) by (destruct Hz as [|Hz]; [lia|specialize (S1 Hz); lia]).
  destruct (Z.compare_spec (-52) e2) as [<-| |]; try reflexivity; [|lia].
  change (Pos.compare_cont Eq 4503599627370496 m) with (4503599627370496 ?= m)%positive.
  destruct (Pos.compare_spec 4503599627370496 m) as [| |N]; try reflexivity.
  apply Pos2Z.pos_lt_pos in N. revert N L2. clear.
  change (2 ^ 52) with 4503599627370496. intros N L2. lia.
Qed.
End DivisionFacts.

Section QuotientFacts.
Local Open Scope float_scope.

(** For binary64 numbers [0 < y <= x] with [y] finite, [x / y >= 1]. *)
Lemma div_ge_one x y :
  (0 <? y) = true -> (y <=? x) = true -> (y <? infinity) = true ->
  (1 <=? x / y) = true.
Proof.
  rewrite !FloatAxioms.ltb_spec, !FloatAxioms.leb_spec, FloatAxioms.div_spec.
  pose proof (FloatAxioms.Prim2SF_valid x) as Vx.
  pose proof (FloatAxioms.Prim2SF_valid y) as Vy.
  change (Prim2SF 0) with (S754_zero false).
  change (Prim2SF infinity) with (S754_infinity false).
  change (Prim2SF 1) with (S754_finite false 4503599627370496 (-52)).
  intros Hy Hle Hf.
  destruct (Prim2SF y) as [sy|sy| |sy my ey];
    try (destruct sy; discriminate Hy || discriminate Hf); try discriminate Hy.
  destruct sy; [discriminate Hy|].
  destruct (Prim2SF x) as [sx|sx| |sx mx ex]; try discriminate Hle.
  - destruct sx; [discriminate Hle|reflexivity].
  - destruct sx; [discriminate Hle|].
    apply SFdiv_ge_one; [exact Vx|exact Vy|].
    unfold SFleb, SFcompare in Hle.
    destruct (Z.compare_spec ey ex) as [->| |]; [right|left; lia|discriminate].
    split; [reflexivity|].
    change (Pos.compare_cont Eq my mx) with (my ?= mx)%positive in Hle.
    destruct (Pos.compare_spec my mx) as [->| |]; [lia|lia|discriminate].
Qed.
End QuotientFacts.

(** ** Running the methods *)

Local Open Scope float_scope.

Lemma sys_eta s : {| this := this s; host := host s |} = s.
Proof. destruct s; reflexivity. Qed.

Lemma after_nil s : after [] s = s.
Proof. apply sys_eta. Qed.

Lemma after_app es1 es2 s : after (es1 ++ es2) s = after es2 (after es1 s).
Proof. unfold after; simpl. rewrite fold_left_app. reflexivity. Qed.

Lemma after_cons e es s : after (e :: es) s = after es (after [e] s).
Proof. reflexivity. Qed.

Lemma change_trace e w : trace (change e w) = trace w.
Proof. destruct e; simpl; try reflexivity. case_bool_decide; reflexivity. Qed.

Lemma change_layout e w n : layout (elements (change e w) n) = layout (elements w n).
Proof.
  destruct e; simpl; try reflexivity.
  - unfold insert, fn_insert. case_decide; subst; reflexivity.
  - unfold insert, fn_insert. case_decide; subst; reflexivity.
  - case_bool_decide; reflexivity.
Qed.

Lemma after_trace es s : trace (host (after es s)) = trace (host s) ++ es.
Proof.
  revert s. induction es as [|e es IH]; intros s.
  - simpl. rewrite app_nil_r. reflexivity.
  - rewrite after_cons, IH. simpl. rewrite change_trace, <- app_assoc. reflexivity.
Qed.

(** No effect of the class changes a layout number: layout is the host's. *)
Lemma measure_after es s n p : measure (after es s) n p = measure s n p.
Proof.
  revert s. induction es as [|e es IH]; intros s.
  - reflexivity.
  - rewrite after_cons, IH. unfold measure. simpl. rewrite change_layout. reflexivity.
Qed.

Lemma since_after es s : since s (after es s) = es.
Proof. unfold since. rewrite after_trace. apply drop_app_length. Qed.

(** The loop of [applyPosition] over the content elements. *)
Lemma for_of_setStyle els p v s :
  for_of els (fun c => dom (setStyle c p v)) s
  = (Ok tt, after (map (fun c => SetStyle c p v) els) s).
Proof.
  revert s. induction els as [|c els IH]; intros s.
  - simpl. rewrite after_nil. reflexivity.
  - simpl. unfold bind at 1. simpl. rewrite IH. reflexivity.
Qed.

(** *** What effects and assignments leave unchanged *)

Lemma after_after es1 es2 s : after es2 (after es1 s) = after (es1 ++ es2) s.
Proof. symmetry. apply after_app. Qed.

Lemma this_after es s : this (after es s) = this s.
Proof. reflexivity. Qed.

Lemma cfg_after es s : cfg (after es s) = cfg s.
Proof. reflexivity. Qed.

Lemma ratio_after es s : ratio (after es s) = ratio s.
Proof. reflexivity. Qed.

Lemma horizontal_p_after es s : horizontal_p (after es s) = horizontal_p s.
Proof. reflexivity. Qed.

Lemma sizeProp_after es s : sizeProp (after es s) = sizeProp s.
Proof. reflexivity. Qed.

Lemma scrollProp_after es s : scrollProp (after es s) = scrollProp s.
Proof. reflexivity. Qed.

Lemma offsetProp_after es s : offsetProp (after es s) = offsetProp s.
Proof. reflexivity. Qed.

Lemma posStyle_after es s : posStyle (after es s) = posStyle s.
Proof. reflexivity. Qed.

Lemma extentStyle_after es s : extentStyle (after es s) = extentStyle s.
Proof. reflexivity. Qed.

Lemma trackExtent_after es s : trackExtent (after es s) = trackExtent s.
Proof. apply measure_after. Qed.

Lemma thumbExtent_after es s : thumbExtent (after es s) = thumbExtent s.
Proof. apply measure_after. Qed.

Lemma viewportExtent_after es s : viewportExtent (after es s) = viewportExtent s.
Proof. apply measure_after. Qed.

Lemma contentExtent_after es s c : contentExtent (after es s) c = contentExtent s c.
Proof. apply measure_after. Qed.

Lemma thumbOffset_after es s : thumbOffset (after es s) = thumbOffset s.
Proof. apply measure_after. Qed.

Lemma travel_after es s : travel (after es s) = travel s.
Proof. unfold travel. rewrite trackExtent_after, thumbExtent_after. reflexivity. Qed.

Lemma overflow_after es s c : overflow (after es s) c = overflow s c.
Proof.
  unfold overflow. rewrite contentExtent_after, viewportExtent_after. reflexivity.
Qed.

Lemma after_with_this es f s : after es (with_this f s) = with_this f (after es s).
Proof. reflexivity. Qed.

Create Rewrite HintDb obs.
#[global] Hint Rewrite after_after this_after cfg_after ratio_after
  horizontal_p_after sizeProp_after scrollProp_after offsetProp_after
  posStyle_after extentStyle_after trackExtent_after thumbExtent_after
  viewportExtent_after contentExtent_after thumbOffset_after travel_after
  overflow_after : obs.

(** An assignment to a mutable field changes no observation of the
    configuration or of the document. *)
Ltac drop_assign :=
  match goal with
  | |- context [?o (with_this ?f ?s)] =>
      progress change (o (with_this f s)) with (o s)
  end.

Ltac obs := repeat first [progress autorewrite with obs | drop_assign].

(** *** One statement at a time

    Each lemma runs the first statement of a method body and hands the
    state it leaves to the rest of the body. *)

Lemma bind_bind {A B C} (m : M Sys A) (f : A -> M Sys B) (g : B -> M Sys C) s :
  bind (bind m f) g s = bind m (fun x => bind (f x) g) s.
Proof. unfold bind. destruct (m s) as [[a|e] s']; reflexivity. Qed.

Lemma bind_ret {A B} (a : A) (k : A -> M Sys B) s : bind (ret a) k s = k a s.
Proof. reflexivity. Qed.

Lemma bind_throw {A B} e (k : A -> M Sys B) s : bind (throw e) k s = (Throw e, s).
Proof. reflexivity. Qed.

Lemma bind_field {A B} (f : Scrollbar -> A) (k : A -> M Sys B) s :
  bind (field f) k s = k (f (this s)) s.
Proof. reflexivity. Qed.

Lemma bind_option {A B} (f : Config -> A) (k : A -> M Sys B) s :
  bind (option_ f) k s = k (f (cfg s)) s.
Proof. reflexivity. Qed.

Lemma bind_assign {B} f (k : unit -> M Sys B) s :
  bind (assign f) k s = k tt (with_this f s).
Proof. reflexivity. Qed.

Lemma bind_get {B} n p (k : float -> M Sys B) s :
  bind (dom (get n p)) k s = k (measure s n p) (after [Get n p] s).
Proof. reflexivity. Qed.

Lemma bind_setStyle {B} n p v (k : unit -> M Sys B) s :
  bind (dom (setStyle n p v)) k s = k tt (after [SetStyle n p v] s).
Proof. reflexivity. Qed.

Lemma bind_setAttribute {B} n a v (k : unit -> M Sys B) s :
  bind (dom (setAttribute n a v)) k s = k tt (after [SetAttribute n a v] s).
Proof. reflexivity. Qed.

Lemma bind_preventDefault {B} (k : unit -> M Sys B) s :
  bind (dom preventDefault) k s = k tt (after [PreventDefault] s).
Proof. reflexivity. Qed.

Lemma bind_focus {B} n (k : unit -> M Sys B) s :
  bind (dom (DOM.focus n)) k s = k tt (after [Focus n] s).
Proof. reflexivity. Qed.

Lemma bind_addEventListener {B} t ty h (k : unit -> M Sys B) s :
  bind (dom (addEventListener t ty h)) k s = k tt (after [AddEventListener (t, ty, h)] s).
Proof. reflexivity. Qed.

Lemma bind_removeEventListener {B} t ty h (k : unit -> M Sys B) s :
  bind (dom (removeEventListener t ty h)) k s
  = k tt (after [RemoveEventListener (t, ty, h)] s).
Proof. reflexivity. Qed.

Lemma bind_notify {B} c (k : unit -> M Sys B) s :
  bind (dom (notify c)) k s = k tt (after [Notify c] s).
Proof. reflexivity. Qed.

Lemma bind_isHorizontal {B} (k : bool -> M Sys B) s :
  bind isHorizontal k s = k (horizontal_p s) s.
Proof. reflexivity. Qed.

Lemma bind_trackSize {B} (k : float -> M Sys B) s :
  bind trackSize k s = k (trackExtent s) (after [Get (track (cfg s)) (sizeProp s)] s).
Proof.
  unfold trackSize, trackExtent, sizeProp. rewrite bind_bind, bind_isHorizontal.
  rewrite bind_bind, bind_option. destruct (horizontal_p s); apply bind_get.
Qed.

Lemma bind_thumbSize {B} (k : float -> M Sys B) s :
  bind thumbSize k s = k (thumbExtent s) (after [Get (thumb (cfg s)) (sizeProp s)] s).
Proof.
  unfold thumbSize, thumbExtent, sizeProp. rewrite bind_bind, bind_isHorizontal.
  rewrite bind_bind, bind_option. destruct (horizontal_p s); apply bind_get.
Qed.

Lemma bind_viewportSize {B} (k : float -> M Sys B) s :
  bind viewportSize k s
  = k (viewportExtent s) (after [Get (viewport (cfg s)) (sizeProp s)] s).
Proof.
  unfold viewportSize, viewportExtent, sizeProp. rewrite bind_bind, bind_isHorizontal.
  rewrite bind_bind, bind_option. destruct (horizontal_p s); apply bind_get.
Qed.

Lemma bind_currentThumbPos {B} (k : float -> M Sys B) s :
  bind currentThumbPos k s
  = k (thumbOffset s) (after [Get (thumb (cfg s)) (offsetProp s)] s).
Proof.
  unfold currentThumbPos, thumbOffset, offsetProp.
  rewrite bind_bind, bind_isHorizontal.
  rewrite bind_bind, bind_option. destruct (horizontal_p s); apply bind_get.
Qed.

Lemma bind_contentSize {B} (k : float -> M Sys B) s c els :
  contentEls (cfg s) = c :: els ->
  bind contentSize k s = k (contentExtent s c) (after [Get c (scrollProp s)] s).
Proof.
  intros H. unfold contentSize, contentExtent, scrollProp.
  rewrite bind_bind, bind_option, bind_bind, bind_isHorizontal, H. simpl.
  destruct (horizontal_p s); apply bind_get.
Qed.

Lemma bind_contentSize_empty {B} (k : float -> M Sys B) s :
  contentEls (cfg s) = [] ->
  bind contentSize k s = (Throw (TypeError "Cannot read properties of undefined"), s).
Proof.
  intros H. unfold contentSize.
  rewrite bind_bind, bind_option, bind_bind, bind_isHorizontal, H. reflexivity.
Qed.

Lemma bind_for_of_setStyle {B} els p v (k : unit -> M Sys B) s :
  bind (for_of els (fun c => dom (setStyle c p v))) k s
  = k tt (after (map (fun c => SetStyle c p v) els) s).
Proof. unfold bind. rewrite for_of_setStyle. reflexivity. Qed.

Lemma dom_notify c s : dom (notify c) s = (Ok tt, after [Notify c] s).
Proof. reflexivity. Qed.

(** Two runs of the same effects, up to the bracketing of the lists. *)
Ltac same_effects :=
  repeat f_equal; simpl; rewrite <- ?app_assoc, ?app_nil_r; simpl; reflexivity.

Lemma applyPosition_eq s c els :
  contentEls (cfg s) = c :: els ->
  applyPosition s
  = (Ok tt, after (apply_reads s c ++ apply_writes s c ++ apply_notify s) s).
Proof.
  intros H. unfold applyPosition.
  rewrite bind_field, bind_trackSize, bind_thumbSize, bind_field.
  rewrite (bind_contentSize _ _ c els) by exact H.
  rewrite bind_viewportSize, bind_isHorizontal, !bind_option.
  autorewrite with obs.
  unfold apply_reads, apply_writes, apply_notify, posStyle, travel, overflow.
  destruct (horizontal_p s) eqn:E.
  - rewrite bind_bind, bind_setStyle, bind_for_of_setStyle, bind_field.
    rewrite bind_setAttribute, bind_option, bind_field.
    autorewrite with obs.
    destruct (onScrollCb (cfg s)); simpl when.
    + rewrite dom_notify. autorewrite with obs. same_effects.
    + unfold ret. same_effects.
  - rewrite bind_bind, bind_setStyle, bind_for_of_setStyle, bind_field.
    rewrite bind_setAttribute, bind_option, bind_field.
    autorewrite with obs.
    destruct (onScrollCb (cfg s)); simpl when.
    + rewrite dom_notify. autorewrite with obs. same_effects.
    + unfold ret. same_effects.
Qed.

Lemma applyPosition_empty s :
  contentEls (cfg s) = [] ->
  applyPosition s
  = (Throw (TypeError "Cannot read properties of undefined"),
     after [Get (track (cfg s)) (sizeProp s); Get (thumb (cfg s)) (sizeProp s)] s).
Proof.
  intros H. unfold applyPosition.
  rewrite bind_field, bind_trackSize, bind_thumbSize, bind_field.
  rewrite bind_contentSize_empty by exact H.
  autorewrite with obs. reflexivity.
Qed.

(** [applyPosition] never assigns a field of the instance. *)
Lemma applyPosition_this s : this (snd (applyPosition s)) = this s.
Proof.
  destruct (contentEls (cfg s)) as [|c els] eqn:H.
  - rewrite applyPosition_empty by exact H. reflexivity.
  - rewrite (applyPosition_eq s c els) by exact H. reflexivity.
Qed.

Lemma set_ratio_same s : with_this (set_ratio (ratio s)) s = s.
Proof. destruct s as [[c r ds lp dr rt de] w]. reflexivity. Qed.

(** [clampAndApply] is [applyPosition] on the clamped ratio: the clamp
    comes first, and it is the only thing before the first effect. *)
Lemma clampAndApply_eq s :
  clampAndApply s = applyPosition (with_this (set_ratio (clamp01 (ratio s))) s).
Proof.
  unfold clampAndApply, clamp01. rewrite bind_field.
  change (_ratio (this s)) with (ratio s).
  destruct (ratio s <? 0) eqn:E0; simpl when.
  - rewrite bind_assign, bind_field. simpl.
    change (1 <? 0) with false. simpl when. rewrite bind_ret. reflexivity.
  - rewrite bind_ret, bind_field. change (_ratio (this s)) with (ratio s).
    destruct (1 <? ratio s) eqn:E1; simpl when.
    + rewrite bind_assign. reflexivity.
    + rewrite bind_ret, set_ratio_same. reflexivity.
Qed.

Lemma scrollTo_eq r s :
  scrollTo r s = applyPosition (with_this (set_ratio (clamp01 r)) s).
Proof.
  unfold scrollTo. rewrite bind_assign, clampAndApply_eq. reflexivity.
Qed.

Lemma scrollToOffset_eq x s c els :
  contentEls (cfg s) = c :: els ->
  scrollToOffset x s
  = applyPosition
      (with_this (set_ratio (clamp01 (offset_ratio x s c)))
         (after [Get (viewport (cfg s)) (sizeProp s); Get c (scrollProp s)] s)).
Proof.
  intros H. unfold scrollToOffset.
  rewrite bind_viewportSize, (bind_contentSize _ _ c els) by exact H.
  rewrite bind_assign, clampAndApply_eq. autorewrite with obs. reflexivity.
Qed.

Lemma scrollToOffset_empty x s :
  contentEls (cfg s) = [] ->
  scrollToOffset x s
  = (Throw (TypeError "Cannot read properties of undefined"),
     after [Get (viewport (cfg s)) (sizeProp s)] s).
Proof.
  intros H. unfold scrollToOffset.
  rewrite bind_viewportSize, bind_contentSize_empty by exact H. reflexivity.
Qed.

Lemma sizeThumb_eq s c els :
  contentEls (cfg s) = c :: els ->
  sizeThumb s
  = (Ok tt,
     with_this (set_dragStep (trackExtent s / keyboardSteps (cfg s)))
       (after (size_effects s c) s)).
Proof.
  intros H. unfold sizeThumb.
  rewrite bind_viewportSize, (bind_contentSize _ _ c els) by exact H.
  rewrite bind_trackSize, bind_isHorizontal, bind_option.
  autorewrite with obs. unfold size_effects, extentStyle, thumb_size.
  destruct (horizontal_p s) eqn:E;
    rewrite bind_setStyle, bind_trackSize, bind_option;
    autorewrite with obs; reflexivity.
Qed.

Lemma sizeThumb_empty s :
  contentEls (cfg s) = [] ->
  sizeThumb s
  = (Throw (TypeError "Cannot read properties of undefined"),
     after [Get (viewport (cfg s)) (sizeProp s)] s).
Proof.
  intros H. unfold sizeThumb.
  rewrite bind_viewportSize, bind_contentSize_empty by exact H. reflexivity.
Qed.

Lemma bind_sizeThumb {B} (k : unit -> M Sys B) s c els :
  contentEls (cfg s) = c :: els ->
  bind sizeThumb k s
  = k tt (with_this (set_dragStep (trackExtent s / keyboardSteps (cfg s)))
            (after (size_effects s c) s)).
Proof. intros H. unfold bind. rewrite (sizeThumb_eq s c els H). reflexivity. Qed.

Lemma update_eq s c els :
  contentEls (cfg s) = c :: els ->
  update s
  = applyPosition
      (with_this (set_dragStep (trackExtent s / keyboardSteps (cfg s)))
         (after (size_effects s c) s)).
Proof. intros H. unfold update. rewrite (bind_sizeThumb _ s c els H). reflexivity. Qed.

Lemma update_empty s :
  contentEls (cfg s) = [] ->
  update s
  = (Throw (TypeError "Cannot read properties of undefined"),
     after [Get (viewport (cfg s)) (sizeProp s)] s).
Proof.
  intros H. unfold update, bind. rewrite sizeThumb_empty by exact H. reflexivity.
Qed.

Lemma bind_pointerPos {B} e (k : float -> M Sys B) s p :
  pointer_of e s = Some p -> bind (pointerPos e) k s = k p s.
Proof.
  unfold pointer_of, pointerPos.
  destruct e as [t x y|[|[x y] ts]|key|]; try discriminate;
    intros [= <-]; cbn [head]; cbv iota beta;
    rewrite bind_bind, bind_isHorizontal; reflexivity.
Qed.

Lemma bind_pointerPos_none {B} e (k : float -> M Sys B) s :
  pointer_of e s = None ->
  bind (pointerPos e) k s
  = (Throw (TypeError "Cannot read properties of undefined"), s).
Proof.
  unfold pointer_of, pointerPos.
  destruct e as [t x y|[|[x y] ts]|key|]; try discriminate; reflexivity.
Qed.

Lemma handleMove_eq e s pos :
  pointer_of e s = Some pos ->
  handleMove e s
  = applyPosition
      (with_this (fun t => set_ratio (clamp01 (move_ratio pos s)) (set_lastPointer pos t))
         (after [PreventDefault; Get (thumb (cfg s)) (offsetProp s);
                 Get (track (cfg s)) (sizeProp s); Get (thumb (cfg s)) (sizeProp s)] s)).
Proof.
  intros H. unfold handleMove.
  rewrite bind_preventDefault, (bind_pointerPos e _ _ pos) by exact H.
  rewrite bind_field, bind_assign, bind_currentThumbPos, bind_trackSize.
  rewrite bind_thumbSize, bind_assign, clampAndApply_eq.
  autorewrite with obs. reflexivity.
Qed.

Lemma handleKey_back s key :
  key = backKey s ->
  handleKey key s
  = applyPosition
      (with_this (set_ratio (clamp01 (ratio s - key_step s)))
         (after (key_reads s ++ [PreventDefault]) s)).
Proof.
  intros ->. unfold handleKey.
  rewrite !bind_isHorizontal, bind_field, bind_trackSize, bind_thumbSize.
  fold (backKey s). rewrite String.eqb_refl.
  rewrite bind_preventDefault, bind_field, bind_assign, clampAndApply_eq.
  autorewrite with obs. reflexivity.
Qed.

Lemma fwd_not_back s : String.eqb (fwdKey s) (backKey s) = false.
Proof. unfold fwdKey, backKey. destruct (horizontal_p s); reflexivity. Qed.

Lemma home_not_arrow s :
  String.eqb "Home" (backKey s) = false /\ String.eqb "Home" (fwdKey s) = false.
Proof. unfold fwdKey, backKey. destruct (horizontal_p s); split; reflexivity. Qed.

Lemma end_not_arrow s :
  String.eqb "End" (backKey s) = false /\ String.eqb "End" (fwdKey s) = false.
Proof. unfold fwdKey, backKey. destruct (horizontal_p s); split; reflexivity. Qed.

Lemma handleKey_fwd s key :
  key = fwdKey s ->
  handleKey key s
  = applyPosition
      (with_this (set_ratio (clamp01 (ratio s + key_step s)))
         (after (key_reads s ++ [PreventDefault]) s)).
Proof.
  intros ->. unfold handleKey.
  rewrite !bind_isHorizontal, bind_field, bind_trackSize, bind_thumbSize.
  fold (backKey s). fold (fwdKey s). rewrite fwd_not_back, String.eqb_refl.
  rewrite bind_preventDefault, bind_field, bind_assign, clampAndApply_eq.
  autorewrite with obs. reflexivity.
Qed.

Lemma handleKey_home s :
  handleKey "Home" s
  = applyPosition
      (with_this (set_ratio 0) (after (key_reads s ++ [PreventDefault]) s)).
Proof.
  unfold handleKey.
  rewrite !bind_isHorizontal, bind_field, bind_trackSize, bind_thumbSize.
  fold (backKey s). fold (fwdKey s).
  destruct (home_not_arrow s) as [-> ->].
  change (String.eqb "Home" "Home") with true. cbv iota.
  rewrite bind_preventDefault, bind_assign, clampAndApply_eq.
  autorewrite with obs. reflexivity.
Qed.

Lemma handleKey_end s :
  handleKey "End" s
  = applyPosition
      (with_this (set_ratio 1) (after (key_reads s ++ [PreventDefault]) s)).
Proof.
  unfold handleKey.
  rewrite !bind_isHorizontal, bind_field, bind_trackSize, bind_thumbSize.
  fold (backKey s). fold (fwdKey s).
  destruct (end_not_arrow s) as [-> ->].
  change (String.eqb "End" "Home") with false.
  change (String.eqb "End" "End") with true. cbv iota.
  rewrite bind_preventDefault, bind_assign, clampAndApply_eq.
  autorewrite with obs. reflexivity.
Qed.

Lemma handleKey_other s key :
  key <> backKey s -> key <> fwdKey s -> key <> "Home" -> key <> "End" ->
  handleKey key s = (Ok tt, after (key_reads s) s).
Proof.
  intros Hb Hf Hh He. unfold handleKey.
  rewrite !bind_isHorizontal, bind_field, bind_trackSize, bind_thumbSize.
  fold (backKey s). fold (fwdKey s).
  apply String.eqb_neq in Hb, Hf, Hh, He. rewrite Hb, Hf, Hh, He.
  autorewrite with obs. reflexivity.
Qed.

Lemma handleTrackClick_thumb target x y s :
  target = thumb (cfg s) -> handleTrackClick target x y s = (Ok tt, s).
Proof.
  intros ->. unfold handleTrackClick. rewrite bind_option.
  rewrite bool_decide_eq_true_2 by reflexivity. reflexivity.
Qed.

Lemma handleTrackClick_inside target x y s :
  target <> thumb (cfg s) -> descendant (host s) (thumb (cfg s)) target = true ->
  handleTrackClick target x y s
  = (Ok tt, after [Contains (thumb (cfg s)) target] s).
Proof.
  intros Hne Hin. unfold handleTrackClick. rewrite bind_option.
  rewrite bool_decide_eq_false_2 by exact Hne.
  unfold bind at 1. unfold dom, contains. rewrite Hin. reflexivity.
Qed.

Lemma handleTrackClick_outside target x y s :
  target <> thumb (cfg s) -> descendant (host s) (thumb (cfg s)) target = false ->
  handleTrackClick target x y s
  = applyPosition
      (with_this (set_ratio (clamp01 (click_ratio x y s)))
         (after [Contains (thumb (cfg s)) target;
                 GetBoundingClientRect (track (cfg s));
                 Get (track (cfg s)) (sizeProp s)] s)).
Proof.
  intros Hne Hin. unfold handleTrackClick. rewrite bind_option.
  rewrite bool_decide_eq_false_2 by exact Hne.
  unfold bind at 1. unfold dom at 1, contains. rewrite Hin.
  cbv iota beta. rewrite bind_option.
  unfold bind at 1. unfold dom at 1, getBoundingClientRect. cbv iota beta.
  rewrite bind_isHorizontal, bind_trackSize, bind_assign, clampAndApply_eq.
  autorewrite with obs. unfold click_ratio. reflexivity.
Qed.

(** *** The elements after a run of effects *)

Lemma change_style e w n p :
  style (elements (change e w) n) p
  = match e with
    | SetStyle n' p' v =>
        if bool_decide (n' = n /\ p' = p) then Some v else style (elements w n) p
    | _ => style (elements w n) p
    end.
Proof.
  destruct e; simpl; try reflexivity.
  - unfold insert, fn_insert. case_decide; subst; reflexivity.
  - unfold insert, fn_insert. case_decide; subst; simpl.
    + unfold insert, fn_insert.
      case_decide; subst; case_bool_decide; try reflexivity; intuition congruence.
    + rewrite bool_decide_eq_false_2 by (intros [? ?]; congruence). reflexivity.
  - case_bool_decide; reflexivity.
Qed.

Lemma change_attribute e w n a :
  attributes (elements (change e w) n) !! a
  = match e with
    | SetAttribute n' a' v =>
        if bool_decide (n' = n /\ a' = a) then Some v
        else attributes (elements w n) !! a
    | _ => attributes (elements w n) !! a
    end.
Proof.
  destruct e; simpl; try reflexivity.
  - unfold insert at 1, fn_insert. case_decide; subst; simpl.
    + destruct (decide (name = a)) as [->|Hne].
      * rewrite lookup_insert_eq, bool_decide_eq_true_2 by done. reflexivity.
      * rewrite lookup_insert_ne, bool_decide_eq_false_2 by (try intros [? ?]; congruence).
        reflexivity.
    + rewrite bool_decide_eq_false_2 by (intros [? ?]; congruence). reflexivity.
  - unfold insert, fn_insert. case_decide; subst; reflexivity.
  - case_bool_decide; reflexivity.
Qed.

Lemma after_snoc es e s : after (es ++ [e]) s = after [e] (after es s).
Proof. apply after_app. Qed.

(** When every assignment to the style [p] of [n] among [es] assigns [v],
    and there is one, the style is [v] afterwards. *)
Lemma style_after es s n p v :
  (forall v', SetStyle n p v' ∈ es -> v' = v) ->
  SetStyle n p v ∈ es ->
  style (elements (host (after es s)) n) p = Some v.
Proof.
  induction es as [|e es IH] using rev_ind; intros Hall Hin.
  - inversion Hin.
  - rewrite after_snoc. simpl. rewrite change_style.
    destruct e as [| | | | | |n' p' v'| | | | | | |];
      try (apply IH;
           [ intros v' Hv; apply Hall, elem_of_app; left; exact Hv
           | apply elem_of_app in Hin as [Hin|Hin];
             [exact Hin | apply list_elem_of_singleton in Hin; discriminate] ]).
    case_bool_decide as Hd.
    + destruct Hd as [-> ->]. f_equal. apply Hall, elem_of_app. right.
      apply list_elem_of_singleton. reflexivity.
    + apply IH.
      * intros v'' Hv. apply Hall, elem_of_app. left. exact Hv.
      * apply elem_of_app in Hin as [Hin|Hin]; [exact Hin|].
        apply list_elem_of_singleton in Hin. inversion Hin; subst. exfalso. apply Hd. split; reflexivity.
Qed.

Lemma attribute_after es s n a v :
  (forall v', SetAttribute n a v' ∈ es -> v' = v) ->
  SetAttribute n a v ∈ es ->
  attributes (elements (host (after es s)) n) !! a = Some v.
Proof.
  induction es as [|e es IH] using rev_ind; intros Hall Hin.
  - inversion Hin.
  - rewrite after_snoc. simpl. rewrite change_attribute.
    destruct e as [| | | | |n' a' v'| | | | | | | |];
      try (apply IH;
           [ intros v' Hv; apply Hall, elem_of_app; left; exact Hv
           | apply elem_of_app in Hin as [Hin|Hin];
             [exact Hin | apply list_elem_of_singleton in Hin; discriminate] ]).
    case_bool_decide as Hd.
    + destruct Hd as [-> ->]. f_equal. apply Hall, elem_of_app. right.
      apply list_elem_of_singleton. reflexivity.
    + apply IH.
      * intros v'' Hv. apply Hall, elem_of_app. left. exact Hv.
      * apply elem_of_app in Hin as [Hin|Hin]; [exact Hin|].
        apply list_elem_of_singleton in Hin. inversion Hin; subst. exfalso. apply Hd. split; reflexivity.
Qed.

(** *** Reads, writes and observer calls of a run of effects *)

Lemma writes_app es1 es2 : writes (es1 ++ es2) = writes es1 ++ writes es2.
Proof. apply filter_app. Qed.

Lemma writes_cons e es : is_write e = true -> writes (e :: es) = e :: writes es.
Proof.
  intros H. unfold writes. rewrite filter_cons_True; [reflexivity|].
  rewrite H. exact I.
Qed.

Lemma writes_setStyles (els : list node) p v :
  writes (map (fun el => SetStyle el p v) els) = map (fun el => SetStyle el p v) els.
Proof.
  induction els as [|el els IH]; [reflexivity|].
  simpl. unfold writes in *. rewrite filter_cons_True by exact I.
  rewrite IH. reflexivity.
Qed.

Lemma notifications_app es1 es2 :
  notifications (es1 ++ es2) = notifications es1 ++ notifications es2.
Proof. apply omap_app. Qed.

Lemma notifications_setStyles (els : list node) p v :
  notifications (map (fun el => SetStyle el p v) els) = [].
Proof. induction els as [|el els IH]; [reflexivity|exact IH]. Qed.

Lemma writes_apply s c :
  writes (apply_reads s c ++ apply_writes s c ++ apply_notify s) = apply_writes s c.
Proof.
  rewrite !writes_app. unfold apply_writes, apply_notify.
  change (writes (apply_reads s c)) with (@nil Effect).
  rewrite writes_cons by reflexivity. rewrite writes_app, writes_setStyles.
  destruct (onScrollCb (cfg s)); simpl; rewrite ?app_nil_r; reflexivity.
Qed.

Lemma notifications_apply s c :
  notifications (apply_reads s c ++ apply_writes s c ++ apply_notify s)
  = if onScrollCb (cfg s) then [onScroll (ratio s)] else [].
Proof.
  rewrite !notifications_app. unfold apply_writes, apply_notify.
  change (notifications (apply_reads s c)) with (@nil Notification).
  change (notifications (?e :: ?l)) with (notifications l).
  rewrite notifications_app, notifications_setStyles.
  destruct (onScrollCb (cfg s)); reflexivity.
Qed.

(** What the writes of [applyPosition] leave in the elements. *)
Lemma apply_tail_style s c n v' :
  SetStyle n (posStyle s) v'
  ∈ (map (fun el => SetStyle el (posStyle s) (Px (- ratio s * overflow s c)))
       (contentEls (cfg s))
     ++ [SetAttribute (thumb (cfg s)) "aria-valuenow"
           (AttrNum (Math_round (ratio s * 100)))])
    ++ apply_notify s ->
  n ∈ contentEls (cfg s) /\ v' = Px (- ratio s * overflow s c).
Proof.
  intros Hin. apply elem_of_app in Hin as [Hin|Hin].
  - apply elem_of_app in Hin as [Hin|Hin].
    + apply list_elem_of_In, in_map_iff in Hin as (el & Heq & Hel).
      inversion Heq; subst. split; [apply list_elem_of_In, Hel | reflexivity].
    + apply list_elem_of_singleton in Hin. discriminate.
  - unfold apply_notify in Hin. destruct (onScrollCb (cfg s)).
    + apply list_elem_of_singleton in Hin. discriminate.
    + inversion Hin.
Qed.

Lemma apply_split s c s0 :
  after (apply_reads s c ++ apply_writes s c ++ apply_notify s) s0
  = after ((map (fun el => SetStyle el (posStyle s) (Px (- ratio s * overflow s c)))
              (contentEls (cfg s))
            ++ [SetAttribute (thumb (cfg s)) "aria-valuenow"
                  (AttrNum (Math_round (ratio s * 100)))])
           ++ apply_notify s)
      (after (apply_reads s c
              ++ [SetStyle (thumb (cfg s)) (posStyle s) (Px (ratio s * travel s))]) s0).
Proof.
  rewrite after_after. reflexivity.
Qed.

Lemma apply_style_content s c el :
  el ∈ contentEls (cfg s) ->
  style (elements (host (after (apply_reads s c ++ apply_writes s c ++ apply_notify s) s))
           el) (posStyle s)
  = Some (Px (- ratio s * overflow s c)).
Proof.
  intros Hel. rewrite apply_split. apply style_after.
  - intros v' Hin. apply apply_tail_style in Hin as [_ ->]. reflexivity.
  - apply elem_of_app. left. apply elem_of_app. left.
    apply list_elem_of_In, in_map_iff. exists el. split; [reflexivity|].
    apply list_elem_of_In, Hel.
Qed.

Lemma apply_style_thumb s c :
  thumb (cfg s) ∉ contentEls (cfg s) ->
  style (elements (host (after (apply_reads s c ++ apply_writes s c ++ apply_notify s) s))
           (thumb (cfg s))) (posStyle s)
  = Some (Px (ratio s * travel s)).
Proof.
  intros Hth.
  apply style_after.
  - intros v' Hin. apply elem_of_app in Hin as [Hin|Hin].
    { unfold apply_reads in Hin. repeat (apply elem_of_cons in Hin as [Hin|Hin]; [discriminate|]).
      inversion Hin. }
    apply elem_of_app in Hin as [Hin|Hin].
    + unfold apply_writes in Hin. apply elem_of_cons in Hin as [Hin|Hin].
      * inversion Hin. reflexivity.
      * assert (SetStyle (thumb (cfg s)) (posStyle s) v'
                ∈ (map (fun el => SetStyle el (posStyle s) (Px (- ratio s * overflow s c)))
                     (contentEls (cfg s))
                   ++ [SetAttribute (thumb (cfg s)) "aria-valuenow"
                         (AttrNum (Math_round (ratio s * 100)))])
                  ++ apply_notify s) as Hin'
          by (apply elem_of_app; left; exact Hin).
        apply apply_tail_style in Hin' as [Hc _]. contradiction.
    + unfold apply_notify in Hin. destruct (onScrollCb (cfg s)).
      * apply list_elem_of_singleton in Hin. discriminate.
      * inversion Hin.
  - apply elem_of_app. right. apply elem_of_app. left.
    unfold apply_writes. apply elem_of_cons. left. reflexivity.
Qed.

Lemma apply_attribute s c :
  attributes (elements (host (after (apply_reads s c ++ apply_writes s c ++ apply_notify s) s))
                (thumb (cfg s))) !! "aria-valuenow"
  = Some (AttrNum (Math_round (ratio s * 100))).
Proof.
  apply attribute_after.
  - intros v' Hin. apply elem_of_app in Hin as [Hin|Hin].
    { unfold apply_reads in Hin. repeat (apply elem_of_cons in Hin as [Hin|Hin]; [discriminate|]).
      inversion Hin. }
    apply elem_of_app in Hin as [Hin|Hin].
    + unfold apply_writes in Hin. apply elem_of_cons in Hin as [Hin|Hin]; [discriminate|].
      apply elem_of_app in Hin as [Hin|Hin].
      * apply list_elem_of_In, in_map_iff in Hin as (el & Heq & _). discriminate.
      * apply list_elem_of_singleton in Hin. inversion Hin. reflexivity.
    + unfold apply_notify in Hin. destruct (onScrollCb (cfg s)).
      * apply list_elem_of_singleton in Hin. discriminate.
      * inversion Hin.
  - apply elem_of_app. right. apply elem_of_app. left.
    unfold apply_writes. apply elem_of_cons. right.
    apply elem_of_app. right. apply list_elem_of_singleton. reflexivity.
Qed.

(** ** The apply step (C2) *)

(** C2 -- For every ratio and every geometry snapshot, [applyPosition]
    assigns [ratio * (trackExtent - thumbExtent)] to the positional style
    of the thumb ([left] when horizontal, [top] when vertical), assigns
    [-ratio * (contentExtent - viewportExtent)] to the positional style of
    every content element (one value for all of them), sets the thumb's
    [aria-valuenow] to [Math.round(ratio * 100)], calls the on-scroll
    observer (when there is one) with the ratio, and leaves the fields of
    the instance, the ratio among them, as they were. These are all its
    writes, in this order. *)
Theorem applyPosition_writes s c els :
  contentEls (cfg s) = c :: els ->
  let thumbPos := ratio s * (trackExtent s - thumbExtent s) in
  let contentPos := - ratio s * (contentExtent s c - viewportExtent s) in
  let valuenow := AttrNum (Math_round (ratio s * 100)) in
  exists s',
    applyPosition s = (Ok tt, s') /\
    writes (since s s')
    = SetStyle (thumb (cfg s)) (posStyle s) (Px thumbPos)
      :: map (fun el => SetStyle el (posStyle s) (Px contentPos)) (contentEls (cfg s))
      ++ [SetAttribute (thumb (cfg s)) "aria-valuenow" valuenow] /\
    (forall el, el ∈ contentEls (cfg s) ->
       style (elements (host s') el) (posStyle s) = Some (Px contentPos)) /\
    (thumb (cfg s) ∉ contentEls (cfg s) ->
       style (elements (host s') (thumb (cfg s))) (posStyle s) = Some (Px thumbPos)) /\
    attributes (elements (host s') (thumb (cfg s))) !! "aria-valuenow" = Some valuenow /\
    notifications (since s s')
    = (if onScrollCb (cfg s) then [onScroll (ratio s)] else []) /\
    this s' = this s.
Proof.
  intros H thumbPos contentPos valuenow.
  eexists. split; [apply (applyPosition_eq s c els H)|].
  rewrite since_after, writes_apply, notifications_apply.
  split; [reflexivity|]. split; [|split; [|split; [|split; reflexivity]]].
  - apply apply_style_content.
  - apply apply_style_thumb.
  - apply apply_attribute.
Qed.

(** ** Programmatic scrolling (C3, C4) *)






(** ** Dragging (C5) *)

Lemma handleDown_eq e s p :
  pointer_of e s = Some p ->
  handleDown e s
  = (Ok tt,
     with_this (fun t => set_lastPointer p (set_isDragging true t))
       (after (down_effects s) s)).
Proof.
  intros H. unfold handleDown.
  rewrite bind_preventDefault, bind_option, bind_focus, bind_assign.
  rewrite (bind_pointerPos e _ _ p) by exact H.
  rewrite bind_assign, !bind_addEventListener, bind_option.
  unfold down_effects. obs.
  destruct (onDragStartCb (cfg s)); reflexivity.
Qed.

Lemma handleUp_eq s :
  handleUp s = (Ok tt, with_this (set_isDragging false) (after (up_effects s) s)).
Proof.
  unfold handleUp.
  rewrite bind_assign, !bind_removeEventListener, bind_option.
  unfold up_effects. obs.
  destruct (onDragEndCb (cfg s)); reflexivity.
Qed.




(** ** Thumb sizing (C6) *)




(** ** The keyboard (C7) *)

Lemma clampAndApply_ratio s : ratio (snd (clampAndApply s)) = clamp01 (ratio s).
Proof.
  rewrite clampAndApply_eq. unfold ratio at 1. rewrite applyPosition_this.
  reflexivity.
Qed.

Lemma clampAndApply_ok s c els :
  contentEls (cfg s) = c :: els -> fst (clampAndApply s) = Ok tt.
Proof.
  intros H. rewrite clampAndApply_eq, (applyPosition_eq _ c els); [reflexivity|].
  exact H.
Qed.

(** C7 -- On a key-down at the thumb, with [step = stepSize / travel]: the
    back key ([ArrowLeft] when horizontal, [ArrowUp] when vertical) assigns
    [ratio - step] and the forward key ([ArrowRight], [ArrowDown]) assigns
    [ratio + step], [Home] assigns 0 and [End] assigns 1; each then runs
    [clampAndApply] once, and nothing else, so the ratio ends as the clamp
    of what was assigned, exactly 0 for [Home] and exactly 1 for [End].
    Any other key returns after the two reads of the step: no field of the
    instance changes, no element changes, and nothing is written or
    notified. *)
Theorem handleKey_steps s key c els :
  contentEls (cfg s) = c :: els ->
  let step := _dragStep (this s) / travel s in
  (key = backKey s ->
     handleKey key s = clampAndApply (key_assigned (ratio s - step) s) /\
     fst (handleKey key s) = Ok tt /\
     ratio (snd (handleKey key s)) = clamp01 (ratio s - step)) /\
  (key = fwdKey s ->
     handleKey key s = clampAndApply (key_assigned (ratio s + step) s) /\
     fst (handleKey key s) = Ok tt /\
     ratio (snd (handleKey key s)) = clamp01 (ratio s + step)) /\
  (key = "Home" ->
     handleKey key s = clampAndApply (key_assigned 0 s) /\
     fst (handleKey key s) = Ok tt /\
     ratio (snd (handleKey key s)) = 0) /\
  (key = "End" ->
     handleKey key s = clampAndApply (key_assigned 1 s) /\
     fst (handleKey key s) = Ok tt /\
     ratio (snd (handleKey key s)) = 1) /\
  (key <> backKey s -> key <> fwdKey s -> key <> "Home" -> key <> "End" ->
     fst (handleKey key s) = Ok tt /\
     this (snd (handleKey key s)) = this s /\
     elements (host (snd (handleKey key s))) = elements (host s) /\
     writes (since s (snd (handleKey key s))) = [] /\
     notifications (since s (snd (handleKey key s))) = []).
Proof.
  intros H step.
  assert (K : forall raw, contentEls (cfg (key_assigned raw s)) = c :: els)
    by (intros raw; exact H).
  split; [|split; [|split; [|split]]].
  - intros Hk. assert (E : handleKey key s = clampAndApply (key_assigned (ratio s - step) s)).
    { rewrite (handleKey_back s key Hk), clampAndApply_eq. reflexivity. }
    rewrite E. split; [reflexivity|]. split; [apply (clampAndApply_ok _ c els), K|].
    apply clampAndApply_ratio.
  - intros Hk. assert (E : handleKey key s = clampAndApply (key_assigned (ratio s + step) s)).
    { rewrite (handleKey_fwd s key Hk), clampAndApply_eq. reflexivity. }
    rewrite E. split; [reflexivity|]. split; [apply (clampAndApply_ok _ c els), K|].
    apply clampAndApply_ratio.
  - intros ->. assert (E : handleKey "Home" s = clampAndApply (key_assigned 0 s)).
    { rewrite handleKey_home, clampAndApply_eq. reflexivity. }
    rewrite E. split; [reflexivity|]. split; [apply (clampAndApply_ok _ c els), K|].
    apply clampAndApply_ratio.
  - intros ->. assert (E : handleKey "End" s = clampAndApply (key_assigned 1 s)).
    { rewrite handleKey_end, clampAndApply_eq. reflexivity. }
    rewrite E. split; [reflexivity|]. split; [apply (clampAndApply_ok _ c els), K|].
    apply clampAndApply_ratio.
  - intros Hb Hf Hh He. rewrite (handleKey_other s key Hb Hf Hh He).
    cbn [fst snd]. rewrite since_after. repeat split; reflexivity.
Qed.

Lemma handleKey_steps_witness :
  ratio (snd (handleKey "ArrowRight" Sample.halfway))
  = clamp01 (ratio Sample.halfway
             + _dragStep (this Sample.halfway) / travel Sample.halfway) /\
  ratio (snd (handleKey "End" Sample.halfway)) = 1 /\
  this (snd (handleKey "PageDown" Sample.halfway)) = this Sample.halfway.
Proof.
  assert (H : contentEls (cfg Sample.halfway) = [4%nat; 5%nat])
    by (vm_compute; reflexivity).
  pose proof (handleKey_steps Sample.halfway "ArrowRight" 4%nat [5%nat] H) as F.
  pose proof (handleKey_steps Sample.halfway "End" 4%nat [5%nat] H) as E.
  pose proof (handleKey_steps Sample.halfway "PageDown" 4%nat [5%nat] H) as O.
  split; [|split].
  - apply F. vm_compute. reflexivity.
  - apply E. reflexivity.
  - apply O; vm_compute; discriminate.
Defined.

Lemma applyPosition_writes_witness :
  exists s',
    applyPosition Sample.halfway = (Ok tt, s') /\
    (forall el, el ∈ [4%nat; 5%nat] ->
       style (elements (host s') el) left_ = Some (Px (-150))) /\
    this s' = this Sample.halfway.
Proof.
  assert (H : contentEls (cfg Sample.halfway) = [4%nat; 5%nat])
    by (vm_compute; reflexivity).
  destruct (applyPosition_writes Sample.halfway 4%nat [5%nat] H)
    as (s' & E & _ & St & _ & _ & _ & T).
  exists s'. split; [exact E|]. split; [|exact T].
  rewrite H in St. vm_compute in St. exact St.
Defined.

(** ** The life of an instance *)

Lemma bind_clearTimeout {B} id (k : unit -> M Sys B) s :
  bind (dom (clearTimeout id)) k s = k tt (after [ClearTimeout id] s).
Proof. reflexivity. Qed.

Lemma bind_setTimeout {B} delay (k : nat -> M Sys B) s :
  bind (dom (setTimeout delay)) k s
  = k (nextTimeout (host s)) (after [SetTimeout (nextTimeout (host s)) delay] s).
Proof. reflexivity. Qed.

Lemma bind_hasAttribute {B} n a (k : bool -> M Sys B) s :
  bind (dom (hasAttribute n a)) k s
  = k (bool_decide (is_Some (attributes (elements (host s) n) !! a)))
      (after [HasAttribute n a] s).
Proof. reflexivity. Qed.

Lemma destroy_again s : _destroyed (this s) = true -> destroy s = (Ok tt, s).
Proof. intros H. unfold destroy. rewrite bind_field, H. reflexivity. Qed.

Lemma destroy_eq s :
  _destroyed (this s) = false ->
  destroy s = (Ok tt, after (destroy_effects s) (with_this (set_destroyed true) s)).
Proof.
  intros H. unfold destroy. rewrite bind_field, H.
  rewrite bind_assign, bind_option, !bind_removeEventListener, !bind_option.
  unfold destroy_effects. obs.
  destruct (trackClick (cfg s)); simpl when;
    rewrite ?bind_removeEventListener, ?bind_ret, bind_option; obs;
    destruct (autoResize (cfg s)); simpl when;
    rewrite ?bind_removeEventListener, ?bind_ret, bind_field; obs;
    cbn [this with_this after set_destroyed _resizeTimer];
    destruct (_resizeTimer (this s)); reflexivity.
Qed.

Lemma handleResize_eq s :
  handleResize s
  = (Ok tt,
     with_this (set_resizeTimer (Some (nextTimeout (host s))))
       (after (resize_effects s) s)).
Proof.
  unfold handleResize, resize_effects. rewrite bind_field.
  destruct (_resizeTimer (this s)) as [id|].
  - rewrite bind_clearTimeout, bind_option, bind_setTimeout. reflexivity.
  - rewrite bind_ret, bind_option, bind_setTimeout. reflexivity.
Qed.

Lemma focus_eq s : focus s = (Ok tt, after [Focus (thumb (cfg s))] s).
Proof. reflexivity. Qed.

Lemma handleDown_none e s :
  pointer_of e s = None ->
  handleDown e s
  = (Throw (TypeError "Cannot read properties of undefined"),
     with_this (set_isDragging true)
       (after [PreventDefault; Focus (thumb (cfg s))] s)).
Proof.
  intros H. unfold handleDown.
  rewrite bind_preventDefault, bind_option, bind_focus, bind_assign.
  rewrite bind_pointerPos_none by exact H. reflexivity.
Qed.

Lemma handleMove_none e s :
  pointer_of e s = None ->
  handleMove e s
  = (Throw (TypeError "Cannot read properties of undefined"),
     after [PreventDefault] s).
Proof.
  intros H. unfold handleMove.
  rewrite bind_preventDefault, bind_pointerPos_none by exact H. reflexivity.
Qed.

(** *** Quiet steps *)

Lemma quiet_refl s : quiet_step s s.
Proof.
  exists []. repeat split; auto.
Qed.

Lemma quiet_trans s1 s2 s3 : quiet_step s1 s2 -> quiet_step s2 s3 -> quiet_step s1 s3.
Proof.
  intros (es1 & Q1 & H1 & C1 & D1 & T1 & X1 & R1) (es2 & Q2 & H2 & C2 & D2 & T2 & X2 & R2).
  exists (es1 ++ es2). split; [apply Forall_app; split; assumption|].
  split.
  { rewrite H2. unfold after. simpl. rewrite H1. unfold after. simpl.
    rewrite fold_left_app. reflexivity. }
  repeat split; try congruence.
  destruct R2 as [R2|R2]; [|right; exact R2].
  destruct R1 as [R1|R1]; [left; congruence | right; rewrite R2; exact R1].
Qed.

Lemma quiet_after es s : Forall (fun e => quiet e = true) es -> quiet_step s (after es s).
Proof. intros Q. exists es. repeat split; auto. Qed.

Lemma quiet_after_then es s s' :
  Forall (fun e => quiet e = true) es -> quiet_step (after es s) s' -> quiet_step s s'.
Proof. intros Q H. eapply quiet_trans; [apply quiet_after, Q | exact H]. Qed.

Lemma quiet_set_ratio r s : ratio_ok r -> quiet_step s (with_this (set_ratio r) s).
Proof.
  intros R. exists []. split; [constructor|]. rewrite after_nil.
  repeat split; auto.
Qed.

Lemma quiet_set_lastPointer p s : quiet_step s (with_this (set_lastPointer p) s).
Proof.
  exists []. split; [constructor|]. rewrite after_nil. repeat split; auto.
Qed.

Lemma quiet_set_dragStep x s : quiet_step s (with_this (set_dragStep x) s).
Proof.
  exists []. split; [constructor|]. rewrite after_nil. repeat split; auto.
Qed.

Ltac all_quiet := repeat (constructor; try reflexivity).

Lemma apply_effects_quiet s c :
  Forall (fun e => quiet e = true)
    (apply_reads s c ++ apply_writes s c ++ apply_notify s).
Proof.
  apply Forall_app. split; [all_quiet|].
  apply Forall_app. split.
  - unfold apply_writes. constructor; [reflexivity|].
    apply Forall_app. split; [|all_quiet].
    apply Forall_forall. intros e He.
    apply list_elem_of_In, in_map_iff in He as (el & <- & _). reflexivity.
  - unfold apply_notify. destruct (onScrollCb (cfg s)); all_quiet.
Qed.

Lemma quiet_applyPosition s : quiet_step s (snd (applyPosition s)).
Proof.
  destruct (contentEls (cfg s)) as [|c els] eqn:H.
  - rewrite applyPosition_empty by exact H. apply quiet_after. all_quiet.
  - rewrite (applyPosition_eq s c els) by exact H.
    apply quiet_after, apply_effects_quiet.
Qed.

(** A method that clamps and then applies: it is [applyPosition] run from a
    state that a quiet step reached, whose ratio is in order. *)
Lemma quiet_applied s s1 r :
  ratio_ok r ->
  quiet_step s s1 ->
  quiet_step s (snd (applyPosition (with_this (set_ratio r) s1))).
Proof.
  intros R Q. eapply quiet_trans; [exact Q|].
  eapply quiet_trans; [apply quiet_set_ratio, R|].
  apply quiet_applyPosition.
Qed.

Lemma quiet_clamped s s1 r :
  quiet_step s s1 ->
  quiet_step s (snd (applyPosition (with_this (set_ratio (clamp01 r)) s1))).
Proof. apply quiet_applied, clamp01_ok. Qed.

Lemma quiet_scrollTo r s : quiet_step s (snd (scrollTo r s)).
Proof. rewrite scrollTo_eq. apply quiet_clamped, quiet_refl. Qed.

Lemma quiet_scrollToOffset x s : quiet_step s (snd (scrollToOffset x s)).
Proof.
  destruct (contentEls (cfg s)) as [|c els] eqn:H.
  - rewrite scrollToOffset_empty by exact H. apply quiet_after. all_quiet.
  - rewrite (scrollToOffset_eq x s c els) by exact H.
    apply quiet_clamped, quiet_after. all_quiet.
Qed.

Lemma quiet_update s : quiet_step s (snd (update s)).
Proof.
  destruct (contentEls (cfg s)) as [|c els] eqn:H.
  - rewrite update_empty by exact H. apply quiet_after. all_quiet.
  - rewrite (update_eq s c els) by exact H.
    eapply quiet_trans; [|apply quiet_applyPosition].
    eapply quiet_after_then; [|apply quiet_set_dragStep]. all_quiet.
Qed.

Lemma quiet_focus s : quiet_step s (snd (focus s)).
Proof. rewrite focus_eq. apply quiet_after. all_quiet. Qed.

Lemma quiet_handleMove e s : quiet_step s (snd (handleMove e s)).
Proof.
  destruct (pointer_of e s) as [pos|] eqn:H.
  - rewrite (handleMove_eq e s pos H).
    change (with_this (fun t => set_ratio ?r (set_lastPointer ?p t)) ?x)
      with (with_this (set_ratio r) (with_this (set_lastPointer p) x)).
    apply quiet_clamped.
    eapply quiet_after_then; [|apply quiet_set_lastPointer]. all_quiet.
  - rewrite (handleMove_none e s H). apply quiet_after. all_quiet.
Qed.

Lemma quiet_handleKey key s : quiet_step s (snd (handleKey key s)).
Proof.
  destruct (decide (key = backKey s)) as [Hb|Hb].
  { rewrite (handleKey_back s key Hb). apply quiet_clamped, quiet_after.
    unfold key_reads. all_quiet. }
  destruct (decide (key = fwdKey s)) as [Hf|Hf].
  { rewrite (handleKey_fwd s key Hf). apply quiet_clamped, quiet_after.
    unfold key_reads. all_quiet. }
  destruct (decide (key = "Home")) as [->|Hh].
  { rewrite handleKey_home.
    apply quiet_applied; [right; reflexivity|apply quiet_after].
    unfold key_reads. all_quiet. }
  destruct (decide (key = "End")) as [->|He].
  { rewrite handleKey_end.
    apply quiet_applied; [right; reflexivity|apply quiet_after].
    unfold key_reads. all_quiet. }
  rewrite (handleKey_other s key Hb Hf Hh He). apply quiet_after.
  unfold key_reads. all_quiet.
Qed.

Lemma quiet_handleTrackClick target x y s :
  quiet_step s (snd (handleTrackClick target x y s)).
Proof.
  destruct (decide (target = thumb (cfg s))) as [Ht|Ht].
  { rewrite (handleTrackClick_thumb target x y s Ht). apply quiet_refl. }
  destruct (descendant (host s) (thumb (cfg s)) target) eqn:Hd.
  - rewrite (handleTrackClick_inside target x y s Ht Hd). apply quiet_after. all_quiet.
  - rewrite (handleTrackClick_outside target x y s Ht Hd).
    apply quiet_clamped, quiet_after. all_quiet.
Qed.

(** *** Listeners and timers after a run of effects *)

Lemma listeners_after es s :
  listeners (host (after es s)) = fold_left listener_change es (listeners (host s)).
Proof.
  revert s. induction es as [|e es IH]; intros s; [reflexivity|].
  rewrite after_cons, IH. simpl. f_equal.
  destruct e; try reflexivity. simpl. case_bool_decide; reflexivity.
Qed.

Lemma timeouts_after es s :
  timeouts (host (after es s)) = fold_left timer_change es (timeouts (host s)).
Proof.
  revert s. induction es as [|e es IH]; intros s; [reflexivity|].
  rewrite after_cons, IH. simpl. f_equal.
  destruct e; try reflexivity. simpl. case_bool_decide; reflexivity.
Qed.

Lemma quiet_listeners es ls :
  Forall (fun e => quiet e = true) es -> fold_left listener_change es ls = ls.
Proof.
  intros Q. revert ls. induction Q as [|e es He _ IH]; intros ls; [reflexivity|].
  simpl. rewrite IH. destruct e; try reflexivity; discriminate.
Qed.

Lemma quiet_timeouts es ts :
  Forall (fun e => quiet e = true) es -> fold_left timer_change es ts = ts.
Proof.
  intros Q. revert ts. induction Q as [|e es He _ IH]; intros ts; [reflexivity|].
  simpl. rewrite IH. destruct e; try reflexivity; discriminate.
Qed.

(** A listener is registered after [es] only if it was before or [es]
    adds it. *)
Lemma listener_bound es ls x :
  x ∈ fold_left listener_change es ls -> x ∈ ls \/ AddEventListener x ∈ es.
Proof.
  revert ls. induction es as [|e es IH]; intros ls Hx; [left; exact Hx|].
  simpl in Hx. apply IH in Hx as [Hx|Hx].
  - destruct e; simpl in Hx; try (left; exact Hx).
    + case_bool_decide; [left; exact Hx|].
      apply elem_of_app in Hx as [Hx|Hx]; [left; exact Hx|].
      apply list_elem_of_singleton in Hx. subst. right. apply elem_of_cons. left.
      reflexivity.
    + apply list_elem_of_filter in Hx as [_ Hx]. left. exact Hx.
  - right. apply elem_of_cons. right. exact Hx.
Qed.

(** A listener that [es] never removes stays. *)
Lemma listener_kept es ls x :
  x ∈ ls -> RemoveEventListener x ∉ es -> x ∈ fold_left listener_change es ls.
Proof.
  revert ls. induction es as [|e es IH]; intros ls Hx Hr; [exact Hx|].
  simpl. apply IH.
  - destruct e; simpl; try exact Hx.
    + case_bool_decide; [exact Hx|]. apply elem_of_app. left. exact Hx.
    + apply list_elem_of_filter. split; [|exact Hx].
      intros ->. apply Hr, elem_of_cons. left. reflexivity.
  - intros H. apply Hr, elem_of_cons. right. exact H.
Qed.

(** A listener that [es] adds and never removes is registered. *)
Lemma listener_added es ls x :
  AddEventListener x ∈ es -> RemoveEventListener x ∉ es ->
  x ∈ fold_left listener_change es ls.
Proof.
  revert ls. induction es as [|e es IH]; intros ls Ha Hr; [inversion Ha|].
  simpl. apply elem_of_cons in Ha as [Ha|Ha].
  - subst e. apply listener_kept.
    + simpl. case_bool_decide; [assumption|].
      apply elem_of_app. right. apply list_elem_of_singleton. reflexivity.
    + intros H. apply Hr, elem_of_cons. right. exact H.
  - apply IH; [exact Ha|]. intros H. apply Hr, elem_of_cons. right. exact H.
Qed.

(** A listener that [es] removes and never adds is gone. *)
Lemma listener_removed es ls x :
  RemoveEventListener x ∈ es -> AddEventListener x ∉ es ->
  x ∉ fold_left listener_change es ls.
Proof.
  intros Hr Ha Hx.
  apply list_elem_of_split in Hr as (es1 & es2 & ->).
  rewrite fold_left_app in Hx. simpl in Hx.
  apply listener_bound in Hx as [Hx|Hx].
  - apply list_elem_of_filter in Hx as [Hne _]. apply Hne. reflexivity.
  - apply Ha, elem_of_app. right. apply elem_of_cons. right. exact Hx.
Qed.

Lemma timeouts_untimed es ts :
  Forall (fun e => is_timer e = false) es -> fold_left timer_change es ts = ts.
Proof.
  intros Q. revert ts. induction Q as [|e es He _ IH]; intros ts; [reflexivity|].
  simpl. rewrite IH. destruct e; try reflexivity; discriminate.
Qed.

(** Case analysis of a membership in an explicit list of effects. *)
Ltac effect_cases H :=
  repeat
    match type of H with
    | _ ∈ [] => apply elem_of_nil in H; contradiction
    | _ ∈ _ ++ _ => apply elem_of_app in H as [H|H]
    | _ ∈ _ :: _ => apply elem_of_cons in H as [H|H]; [try discriminate|]
    | _ ∈ (if ?b then _ else _) => destruct b
    | _ ∈ match ?o with Some _ => _ | None => _ end => destruct o
    end.

(** Membership in an explicit list. *)
Ltac in_list :=
  first [ apply elem_of_cons; left; reflexivity
        | apply list_elem_of_singleton; reflexivity
        | apply elem_of_cons; right; in_list
        | apply elem_of_app; left; in_list
        | apply elem_of_app; right; in_list ].

Lemma elem_of_owned c l :
  l ∈ owned c <-> l ∈ thumb_listeners c \/ l ∈ drag_listeners \/ l ∈ option_listeners c.
Proof. unfold owned. rewrite !elem_of_app. tauto. Qed.

(** *** The invariant is kept *)

Lemma lifecycle_quiet s s' : quiet_step s s' -> lifecycle s -> lifecycle s'.
Proof.
  intros (es & Q & H & C & D & T & X & _) [La Lb Lc Ld Le].
  assert (Ls : listeners (host s') = listeners (host s))
    by (rewrite H, listeners_after; apply quiet_listeners, Q).
  assert (Lt : timeouts (host s') = timeouts (host s))
    by (rewrite H, timeouts_after; apply quiet_timeouts, Q).
  unfold cfg in *.
  constructor; unfold cfg; rewrite ?Ls, ?Lt, ?C, ?D, ?T, ?X; assumption.
Qed.

Lemma lifecycle_handleDown e s p :
  pointer_of e s = Some p ->
  _destroyed (this s) = false ->
  lifecycle s -> lifecycle (snd (handleDown e s)).
Proof.
  intros Hp Hlive [La Lb Lc Ld Le]. rewrite (handleDown_eq e s p Hp).
  cbn [snd].
  assert (Ls : forall x, x ∈ listeners (host (after (down_effects s) s)) <->
                         x ∈ listeners (host s) \/ x ∈ drag_listeners).
  { intros x. rewrite listeners_after. split.
    - intros Hx. apply listener_bound in Hx as [Hx|Hx]; [left; exact Hx|].
      right. unfold down_effects in Hx. effect_cases Hx;
        inversion Hx; subst; unfold drag_listeners;
        repeat first [apply elem_of_cons; left; reflexivity | apply elem_of_cons; right].
    - intros [Hx|Hx].
      + apply listener_kept; [exact Hx|]. intros H. unfold down_effects in H.
        effect_cases H.
      + apply listener_added.
        * unfold down_effects, drag_listeners in *. apply elem_of_app. left.
          effect_cases Hx; subst;
            repeat first [apply elem_of_cons; left; reflexivity | apply elem_of_cons; right].
        * intros H. unfold down_effects in H. effect_cases H. }
  assert (Lt : timeouts (host (after (down_effects s) s)) = timeouts (host s)).
  { rewrite timeouts_after. apply timeouts_untimed. unfold down_effects.
    apply Forall_app. split; [repeat (constructor; try reflexivity)|].
    destruct (onDragStartCb (cfg s)); repeat (constructor; try reflexivity). }
  constructor; cbn [host this with_this cfg config set_lastPointer set_isDragging
                      _destroyed _isDragging _resizeTimer].
  - intros l Hl. apply Ls in Hl as [Hl|Hl]; [apply La, Hl|].
    apply elem_of_owned. right. left. exact Hl.
  - intros id Hid. rewrite Lt in Hid. apply Lb, Hid.
  - intros Hd. change (_destroyed (this s) = true) in Hd. congruence.
  - intros _ l Hl. apply Ls. left. apply (Ld Hlive), Hl.
  - intros _ _. split; apply Ls; right; unfold drag_listeners;
      repeat first [apply elem_of_cons; left; reflexivity | apply elem_of_cons; right].
Qed.

Lemma lifecycle_handleUp s : lifecycle s -> lifecycle (snd (handleUp s)).
Proof.
  intros [La Lb Lc Ld Le]. rewrite handleUp_eq. cbn [snd].
  assert (Lsub : forall x, x ∈ listeners (host (after (up_effects s) s)) ->
                           x ∈ listeners (host s)).
  { intros x Hx. rewrite listeners_after in Hx.
    apply listener_bound in Hx as [Hx|Hx]; [exact Hx|].
    unfold up_effects in Hx. effect_cases Hx. }
  assert (Lt : timeouts (host (after (up_effects s) s)) = timeouts (host s)).
  { rewrite timeouts_after. apply timeouts_untimed. unfold up_effects.
    apply Forall_app. split; [repeat (constructor; try reflexivity)|].
    destruct (onDragEndCb (cfg s)); repeat (constructor; try reflexivity). }
  constructor; cbn [host this with_this cfg config set_isDragging
                      _destroyed _isDragging _resizeTimer].
  - intros l Hl. apply La, Lsub, Hl.
  - intros id Hid. rewrite Lt in Hid. apply Lb, Hid.
  - intros Hd. change (_destroyed (this s) = true) in Hd.
    destruct (Lc Hd) as [L0 T0]. split; [|rewrite Lt; exact T0].
    apply elem_of_nil_inv. intros x Hx. apply Lsub in Hx. rewrite L0 in Hx.
    inversion Hx.
  - intros Hd l Hl. rewrite listeners_after. apply listener_kept.
    + apply (Ld Hd), Hl.
    + intros H. unfold up_effects in H. unfold thumb_listeners in Hl.
      effect_cases H; inversion H; subst; effect_cases Hl; discriminate.
  - intros _ Hf. discriminate.
Qed.

Lemma lifecycle_handleResize s :
  _destroyed (this s) = false ->
  lifecycle s -> lifecycle (snd (handleResize s)).
Proof.
  intros Hlive [La Lb Lc Ld Le]. rewrite handleResize_eq. cbn [snd].
  assert (Ls : listeners (host (after (resize_effects s) s)) = listeners (host s)).
  { rewrite listeners_after. unfold resize_effects.
    destruct (_resizeTimer (this s)); reflexivity. }
  assert (Lt : timeouts (host (after (resize_effects s) s)) = [nextTimeout (host s)]).
  { rewrite timeouts_after. unfold resize_effects.
    destruct (_resizeTimer (this s)) as [old|] eqn:E; simpl.
    - replace (filter (fun t => t ≠ old) (timeouts (host s))) with (@nil nat);
        [reflexivity|].
      symmetry. apply elem_of_nil_inv. intros x Hx.
      apply list_elem_of_filter in Hx as [Hne Hx]. apply Lb in Hx. congruence.
    - replace (timeouts (host s)) with (@nil nat); [reflexivity|].
      symmetry. apply elem_of_nil_inv. intros x Hx. apply Lb in Hx. congruence. }
  constructor; cbn [host this with_this cfg config set_resizeTimer
                      _destroyed _isDragging _resizeTimer].
  - intros l Hl. rewrite Ls in Hl. apply La, Hl.
  - intros id Hid. rewrite Lt in Hid. apply list_elem_of_singleton in Hid.
    subst. reflexivity.
  - intros Hd. change (_destroyed (this s) = true) in Hd. congruence.
  - intros Hd l Hl. rewrite Ls. apply (Ld Hlive), Hl.
  - intros Hd Hdr. rewrite Ls. apply (Le Hlive), Hdr.
Qed.

(** [destroy] leaves the host without a listener or a timer of the
    instance. *)
Lemma lifecycle_destroy s :
  lifecycle s ->
  lifecycle (snd (destroy s)) /\
  _destroyed (this (snd (destroy s))) = true.
Proof.
  intros L. destruct (_destroyed (this s)) eqn:Hd.
  { rewrite (destroy_again s Hd). split; [exact L|exact Hd]. }
  destruct L as [La Lb Lc Ld Le]. rewrite (destroy_eq s Hd). cbn [snd].
  set (s0 := with_this (set_destroyed true) s).
  assert (L0 : listeners (host (after (destroy_effects s) s0)) = []).
  { apply elem_of_nil_inv. intros x Hx. rewrite listeners_after in Hx.
    assert (Hin : x ∈ listeners (host s)).
    { apply listener_bound in Hx as [Hx|Hx]; [exact Hx|].
      unfold destroy_effects in Hx. effect_cases Hx. }
    revert Hx. apply listener_removed.
    - apply La, elem_of_owned in Hin. unfold destroy_effects.
      destruct Hin as [Hin|[Hin|Hin]].
      + unfold thumb_listeners in Hin. apply elem_of_app. left.
        effect_cases Hin; subst;
          repeat first [apply elem_of_cons; left; reflexivity | apply elem_of_cons; right].
      + unfold drag_listeners in Hin. apply elem_of_app. left.
        effect_cases Hin; subst;
          repeat first [apply elem_of_cons; left; reflexivity | apply elem_of_cons; right].
      + unfold option_listeners in Hin. apply elem_of_app. right.
        apply elem_of_app in Hin as [Hin|Hin].
        * apply elem_of_app. left. destruct (trackClick (cfg s)); [|inversion Hin].
          apply list_elem_of_singleton in Hin. subst.
          apply list_elem_of_singleton. reflexivity.
        * apply elem_of_app. right. apply elem_of_app. left.
          destruct (autoResize (cfg s)); [|inversion Hin].
          apply list_elem_of_singleton in Hin. subst.
          apply list_elem_of_singleton. reflexivity.
    - intros H. unfold destroy_effects in H. effect_cases H. }
  assert (T0 : timeouts (host (after (destroy_effects s) s0)) = []).
  { rewrite timeouts_after. unfold destroy_effects.
    rewrite !fold_left_app.
    rewrite (timeouts_untimed [_; _; _; _; _; _; _])
      by (repeat (constructor; try reflexivity)).
    rewrite (timeouts_untimed (if trackClick (cfg s) then _ else _))
      by (destruct (trackClick (cfg s)); repeat (constructor; try reflexivity)).
    rewrite (timeouts_untimed (if autoResize (cfg s) then _ else _))
      by (destruct (autoResize (cfg s)); repeat (constructor; try reflexivity)).
    change (timeouts (host s0)) with (timeouts (host s)).
    apply elem_of_nil_inv. intros x Hx.
    destruct (_resizeTimer (this s)) as [old|] eqn:E; simpl in Hx.
    - apply list_elem_of_filter in Hx as [Hne Hx]. apply Lb in Hx. congruence.
    - apply Lb in Hx. congruence. }
  split; [|reflexivity].
  constructor; rewrite ?L0, ?T0.
  - intros l Hl. inversion Hl.
  - intros id Hid. inversion Hid.
  - intros _. split; reflexivity.
  - intros H. discriminate.
  - intros H. discriminate.
Qed.

(** *** Construction *)

Lemma thumb_size_after es s c : thumb_size (after es s) c = thumb_size s c.
Proof. unfold thumb_size. autorewrite with obs. reflexivity. Qed.

Lemma size_effects_after es s c : size_effects (after es s) c = size_effects s c.
Proof.
  unfold size_effects. autorewrite with obs. rewrite thumb_size_after. reflexivity.
Qed.

#[global] Hint Rewrite thumb_size_after size_effects_after : obs.

Ltac mstep :=
  repeat first
    [ rewrite bind_bind | rewrite bind_ret | rewrite bind_option
    | rewrite bind_field | rewrite bind_assign | rewrite bind_hasAttribute
    | rewrite bind_setAttribute | rewrite bind_addEventListener
    | rewrite bind_removeEventListener ].

Ltac astep :=
  repeat first
    [ rewrite bind_bind | rewrite bind_ret | rewrite bind_hasAttribute
    | rewrite bind_setAttribute ].
Lemma init_attributes s : exists s1, quiet_step s s1 /\ init s = init_listen s1.
Proof.
  unfold init. rewrite bind_option. astep.
  (destruct (bool_decide _); cbn [negb when]; astep;
    (destruct (bool_decide _); cbn [negb when]; astep);
    (destruct (bool_decide _); cbn [negb when]; astep);
    obs).
  all: (match goal with
   | |- exists s1, _ /\ ?f ?S1 = _ => exists S1; split; [|reflexivity]
   end).
  all: (apply quiet_after; all_quiet).
Qed.

Lemma init_listen_eq s c els :
  contentEls (cfg s) = c :: els ->
  init_listen s
  = (Ok tt,
     with_this (set_dragStep (trackExtent s / keyboardSteps (cfg s)))
       (after (init_effects s ++ size_effects s c) s)).
Proof.
  intros H. unfold init_listen, init_effects. mstep. obs.
  destruct (trackClick (cfg s)); cbn [when]; mstep; obs;
    (destruct (autoResize (cfg s)); cbn [when]; mstep; obs);
    rewrite (sizeThumb_eq _ c els) by exact H; obs; reflexivity.
Qed.

Lemma init_listen_empty s :
  contentEls (cfg s) = [] ->
  fst (init_listen s) = Throw (TypeError "Cannot read properties of undefined").
Proof.
  intros H. unfold init_listen. mstep. obs.
  destruct (trackClick (cfg s)); cbn [when]; mstep; obs;
    (destruct (autoResize (cfg s)); cbn [when]; mstep; obs);
    rewrite sizeThumb_empty by exact H; reflexivity.
Qed.

Lemma resolveElement_host i w :
  listeners (snd (resolveElement i w)) = listeners w /\
  timeouts (snd (resolveElement i w)) = timeouts w.
Proof.
  destruct i as [sel|n]; [|split; reflexivity].
  unfold resolveElement, bind, querySelector. destruct (selectors w sel); split; reflexivity.
Qed.

Lemma map_resolve_host items w :
  listeners (snd (map_resolve items w)) = listeners w /\
  timeouts (snd (map_resolve items w)) = timeouts w.
Proof.
  revert w. induction items as [|i items IH]; intros w; [split; reflexivity|].
  simpl. unfold bind.
  pose proof (resolveElement_host i w) as [L1 T1].
  destruct (resolveElement i w) as [[n|e] w1]; cbn [snd] in *;
    [|split; assumption].
  pose proof (IH w1) as [L2 T2].
  destruct (map_resolve items w1) as [[ns|e] w2]; cbn [snd ret] in *;
    split; congruence.
Qed.

(** [new DetachedScrollbar(options)] returns an instance when the elements
    resolve and [init] returns; [init] then ran from the freshly
    initialised fields. *)
Lemma constructor_Ok options w t w' :
  constructor options w = (Ok t, w') ->
  exists s0,
    listeners (host s0) = listeners w /\
    timeouts (host s0) = timeouts w /\
    _ratio (this s0) = 0 /\
    _isDragging (this s0) = false /\
    _destroyed (this s0) = false /\
    init s0 = (Ok tt, {| this := t; host := w' |}).
Proof.
  unfold constructor. unfold bind at 1.
  pose proof (resolveElement_host (opt_track options) w) as [L1 T1].
  destruct (resolveElement (opt_track options) w) as [[tr|e] w1]; [|discriminate].
  unfold bind at 1.
  pose proof (resolveElement_host (opt_thumb options) w1) as [L2 T2].
  destruct (resolveElement (opt_thumb options) w1) as [[th|e] w2]; [|discriminate].
  unfold bind at 1.
  pose proof (resolveElement_host (opt_viewport options) w2) as [L3 T3].
  destruct (resolveElement (opt_viewport options) w2) as [[vp|e] w3]; [|discriminate].
  unfold bind at 1. unfold resolveContentElements.
  match goal with |- context [map_resolve ?items w3] =>
    pose proof (map_resolve_host items w3) as [L4 T4];
    destruct (map_resolve items w3) as [[els|e] w4]; [|discriminate]
  end.
  simpl in *.
  match goal with |- context [init ?s0] =>
    intros H; exists s0; destruct (init s0) as [[[]|e] [t1 w1']] eqn:E;
      [|discriminate]
  end.
  inversion H; subst. simpl. repeat split; congruence.
Qed.

(** A constructed instance starts its life in order: it has a content
    element, its ratio is in order, it is neither dragging nor destroyed. *)
Lemma constructed_lifecycle options w t w' :
  pristine w ->
  constructor options w = (Ok t, w') ->
  let s := {| this := t; host := w' |} in
  lifecycle s /\ ratio_ok (ratio s) /\ isDragging s = false /\
  _destroyed (this s) = false /\ contentEls (cfg s) <> [].
Proof.
  intros [Pl Pt] Hc s.
  destruct (constructor_Ok options w t w' Hc) as (s0 & L0 & T0 & R0 & D0 & X0 & Hi).
  destruct (init_attributes s0) as (s1 & Q & Hi1). rewrite Hi1 in Hi.
  destruct Q as (es & Qes & Hh & Cc & Dd & Tt & Xx & Rr).
  assert (L1 : listeners (host s1) = [])
    by (rewrite Hh, listeners_after, (quiet_listeners _ _ Qes); congruence).
  assert (T1 : timeouts (host s1) = [])
    by (rewrite Hh, timeouts_after, (quiet_timeouts _ _ Qes); congruence).
  destruct (contentEls (cfg s1)) as [|c els] eqn:Hce.
  { pose proof (init_listen_empty s1 Hce) as Ht. rewrite Hi in Ht. discriminate. }
  rewrite (init_listen_eq s1 c els Hce) in Hi.
  apply (f_equal snd) in Hi. cbn [snd] in Hi. fold s in Hi. rename Hi into Hs.
  assert (Hcfg : cfg s = cfg s1) by (rewrite <- Hs; reflexivity).
  assert (Hl : listeners (host s)
               = fold_left listener_change (init_effects s1 ++ size_effects s1 c) [])
    by (rewrite <- Hs; cbn [host with_this]; rewrite listeners_after, L1; reflexivity).
  assert (Htm : timeouts (host s) = []).
  { rewrite <- Hs. cbn [host with_this]. rewrite timeouts_after, T1.
    apply timeouts_untimed. apply Forall_app. split.
    - unfold init_effects. apply Forall_app. split; [repeat (constructor; try reflexivity)|].
      apply Forall_app. split;
        [destruct (trackClick (cfg s1))|destruct (autoResize (cfg s1))];
        repeat (constructor; try reflexivity).
    - repeat (constructor; try reflexivity). }
  assert (Hd : _destroyed (this s) = false) by (rewrite <- Hs; simpl; congruence).
  assert (Hdr : _isDragging (this s) = false) by (rewrite <- Hs; simpl; congruence).
  split; [|split; [|split; [exact Hdr|split; [exact Hd|]]]].
  - constructor.
    + intros l Hin. rewrite Hl in Hin. apply listener_bound in Hin as [Hin|Hin];
        [inversion Hin|].
      rewrite Hcfg. apply elem_of_owned. unfold init_effects, size_effects in Hin.
      unfold thumb_listeners, option_listeners.
      effect_cases Hin; inversion Hin; subst;
        first [left; in_list | right; right; in_list].
    + intros id Hin. rewrite Htm in Hin. inversion Hin.
    + intros H. congruence.
    + intros _ l Hin. rewrite Hl, Hcfg in *. apply listener_added.
      * apply elem_of_app. left. unfold init_effects. apply elem_of_app. left.
        unfold thumb_listeners in Hin.
        effect_cases Hin; subst; in_list.
      * intros H. unfold init_effects, size_effects in H. effect_cases H.
    + intros _ H. congruence.
  - assert (Hr : ratio s = ratio s1) by (rewrite <- Hs; reflexivity).
    rewrite Hr. destruct Rr as [Rr|Rr]; [|exact Rr].
    rewrite Rr. unfold ratio. rewrite R0. right. reflexivity.
  - rewrite Hcfg, Hce. discriminate.
Qed.

(** *** One handler *)

Lemma elem_of_registered t ty s h :
  h ∈ registered t ty s <-> (t, ty, h) ∈ listeners (host s).
Proof.
  unfold registered. rewrite list_elem_of_omap. split.
  - intros ([[t' ty'] h'] & Hin & Heq). case_bool_decide as Hd; [|discriminate].
    destruct Hd as [-> ->]. inversion Heq; subst. exact Hin.
  - intros Hin. exists (t, ty, h). split; [exact Hin|].
    rewrite bool_decide_eq_true_2 by (split; reflexivity). reflexivity.
Qed.

Lemma fold_handlers (P : Sys -> Prop) hs e s :
  (forall h s', h ∈ hs -> P s' -> P (attempt (invoke h e) s')) ->
  P s ->
  P (fold_left (fun s' h => attempt (invoke h e) s') hs s).
Proof.
  revert s. induction hs as [|h hs IH]; intros s Hstep Hs; [exact Hs|].
  simpl. apply IH.
  - intros h' s' Hin. apply Hstep, elem_of_cons. right. exact Hin.
  - apply Hstep; [apply elem_of_cons; left; reflexivity | exact Hs].
Qed.

Lemma handled_quiet h s s' :
  h <> OnDown -> h <> OnUp -> quiet_step s s' -> handled h s s'.
Proof.
  intros Hd Hu (es & _ & _ & C & D & _ & X & R).
  constructor; try assumption. destruct h; try congruence; exact D.
Qed.

Lemma invoke_handled h e s : handled h s (attempt (invoke h e) s).
Proof.
  unfold attempt. destruct h; cbn [invoke].
  - destruct (pointer_of e s) as [p|] eqn:Hp.
    + rewrite (handleDown_eq e s p Hp). constructor; auto.
    + rewrite (handleDown_none e s Hp). constructor; auto.
  - apply handled_quiet; [discriminate..|apply quiet_handleMove].
  - rewrite handleUp_eq. constructor; auto.
  - destruct e; try (apply handled_quiet; [discriminate..|apply quiet_refl]).
    apply handled_quiet; [discriminate..|apply quiet_handleKey].
  - destruct e; try (apply handled_quiet; [discriminate..|apply quiet_refl]).
    apply handled_quiet; [discriminate..|apply quiet_handleTrackClick].
  - rewrite handleResize_eq. constructor; auto.
Qed.

Lemma owned_OnDown c t ty e :
  (t, ty, OnDown) ∈ owned c -> event_class ty e = true ->
  forall s, exists p, pointer_of e s = Some p.
Proof.
  intros Hin Hc s. unfold owned, thumb_listeners, drag_listeners, option_listeners in Hin.
  effect_cases Hin; inversion Hin; subst;
    destruct e as [tg x y|[|[x y] ts]|k|]; try discriminate; eexists; reflexivity.
Qed.

Lemma invoke_lifecycle t ty h e s :
  (t, ty, h) ∈ owned (cfg s) ->
  event_class ty e = true ->
  _destroyed (this s) = false ->
  lifecycle s -> lifecycle (attempt (invoke h e) s).
Proof.
  intros Hin Hc Hlive L. unfold attempt. destruct h; cbn [invoke].
  - destruct (owned_OnDown _ _ _ _ Hin Hc s) as [p Hp].
    apply (lifecycle_handleDown e s p Hp Hlive L).
  - apply (lifecycle_quiet s); [apply quiet_handleMove|exact L].
  - apply lifecycle_handleUp, L.
  - destruct e; try exact L.
    apply (lifecycle_quiet s); [apply quiet_handleKey|exact L].
  - destruct e; try exact L.
    apply (lifecycle_quiet s); [apply quiet_handleTrackClick|exact L].
  - apply (lifecycle_handleResize s Hlive L).
Qed.

(** *** One operation *)

Lemma registered_destroyed t ty s :
  lifecycle s -> _destroyed (this s) = true -> registered t ty s = [].
Proof.
  intros L Hd. apply elem_of_nil_inv. intros h Hh.
  apply elem_of_registered in Hh. destruct (destroyed_bare s L Hd) as [L0 _].
  rewrite L0 in Hh. inversion Hh.
Qed.

Lemma deliver_destroyed t ty e s :
  lifecycle s -> _destroyed (this s) = true -> deliver t ty e s = s.
Proof.
  intros L Hd. unfold deliver. destruct (event_class ty e); [|reflexivity].
  rewrite (registered_destroyed t ty s L Hd). reflexivity.
Qed.

Lemma fire_destroyed id s :
  lifecycle s -> _destroyed (this s) = true -> fire id s = s.
Proof.
  intros L Hd. unfold fire. destruct (destroyed_bare s L Hd) as [_ T0].
  rewrite T0. rewrite bool_decide_eq_false_2; [reflexivity|]. intros H. inversion H.
Qed.

Lemma deliver_lifecycle t ty e s : lifecycle s -> lifecycle (deliver t ty e s).
Proof.
  intros L. destruct (_destroyed (this s)) eqn:Hd.
  { rewrite (deliver_destroyed t ty e s L Hd). exact L. }
  unfold deliver. destruct (event_class ty e) eqn:Hc; [|exact L].
  apply (fold_handlers
           (fun s' => lifecycle s' /\ _destroyed (this s') = false /\ cfg s' = cfg s)).
  - intros h s' Hh (L' & Hd' & Hcfg).
    apply elem_of_registered in Hh. apply (listeners_owned s L) in Hh.
    pose proof (invoke_handled h e s') as [Hc1 Hd1 _ _].
    split; [|split].
    + apply (invoke_lifecycle t ty h e s'); try assumption. rewrite Hcfg. exact Hh.
    + congruence.
    + unfold cfg in *. congruence.
  - auto.
Qed.

Lemma fire_lifecycle id s : lifecycle s -> lifecycle (fire id s).
Proof.
  intros L. unfold fire. case_bool_decide as Hin; [|exact L].
  unfold attempt. apply (lifecycle_quiet _ _ (quiet_update _)).
  destruct L as [La Lb Lc Ld Le]. constructor; cbn [host this timeouts listeners with_timeouts cfg].
  - exact La.
  - intros id' Hid. apply list_elem_of_filter in Hid as [_ Hid]. apply Lb, Hid.
  - intros Hd. destruct (Lc Hd) as [L0 T0]. rewrite T0 in Hin. inversion Hin.
  - exact Ld.
  - exact Le.
Qed.

Lemma relayout_lifecycle g r s : lifecycle s -> lifecycle (relayout g r s).
Proof. intros [La Lb Lc Ld Le]. constructor; assumption. Qed.

Lemma step_lifecycle s o : lifecycle s -> lifecycle (step s o).
Proof.
  intros L. destruct o; cbn [step]; unfold attempt.
  - apply (lifecycle_quiet s); [apply quiet_scrollTo|exact L].
  - apply (lifecycle_quiet s); [apply quiet_scrollToOffset|exact L].
  - apply (lifecycle_quiet s); [apply quiet_update|exact L].
  - apply (lifecycle_quiet s); [apply quiet_focus|exact L].
  - apply lifecycle_destroy, L.
  - apply deliver_lifecycle, L.
  - apply fire_lifecycle, L.
  - apply relayout_lifecycle, L.
Qed.

Lemma run_lifecycle ops s : lifecycle s -> lifecycle (run ops s).
Proof.
  revert s. induction ops as [|o ops IH]; intros s L; [exact L|].
  simpl. apply IH, step_lifecycle, L.
Qed.






(** ** The ratio stays in order (C1) *)



Lemma since_assigned f es s : since s (with_this f (after es s)) = es.
Proof. apply since_after. Qed.











(** ** The drag flag (C9) *)











Lemma quiet_destroyed s s' :
  quiet_step s s' -> _destroyed (this s') = _destroyed (this s) /\ cfg s' = cfg s.
Proof. intros (es & _ & _ & C & _ & _ & X & _). split; [exact X|exact C]. Qed.

Lemma step_destroyed s o :
  is_destroy o = false ->
  _destroyed (this (step s o)) = _destroyed (this s) /\ cfg (step s o) = cfg s.
Proof.
  intros Ho. destruct o; try discriminate; cbn [step]; unfold attempt.
  - apply quiet_destroyed, quiet_scrollTo.
  - apply quiet_destroyed, quiet_scrollToOffset.
  - apply quiet_destroyed, quiet_update.
  - apply quiet_destroyed, quiet_focus.
  - unfold deliver. destruct (event_class ty e); [|split; reflexivity].
    apply (fold_handlers
             (fun s' => _destroyed (this s') = _destroyed (this s) /\ cfg s' = cfg s));
      [|split; reflexivity].
    intros h s' _ [Hd Hc]. destruct (invoke_handled h e s') as [C X _ _].
    unfold cfg in *. split; congruence.
  - unfold fire. case_bool_decide; [|split; reflexivity].
    unfold attempt, resizeCallback.
    match goal with |- context [snd (?m ?x)] =>
      destruct (quiet_destroyed _ _ (quiet_update x)) as [A B]
    end.
    split; [exact A|exact B].
  - split; reflexivity.
Qed.







(** ** Destruction (C8) *)

Lemma destroy_ok s : fst (destroy s) = Ok tt.
Proof.
  destruct (_destroyed (this s)) eqn:Hd.
  - rewrite (destroy_again s Hd). reflexivity.
  - rewrite (destroy_eq s Hd). reflexivity.
Qed.

Lemma run_host_events ops s :
  lifecycle s -> _destroyed (this s) = true ->
  Forall (fun o => is_host_event o = true) ops ->
  run ops s = s.
Proof.
  intros L Hd Hops. induction Hops as [|o ops Ho _ IH]; [reflexivity|].
  simpl. destruct o; try discriminate; cbn [step].
  - rewrite (deliver_destroyed t ty e s L Hd). exact IH.
  - rewrite (fire_destroyed id s L Hd). exact IH.
Qed.

(** C8, as the code has it -- On a constructed instance, after any
    sequence of operations: [destroy()] returns without an exception; a
    second call returns at once and changes nothing, so no listener removal
    is repeated; and after [destroy()] the host holds no listener and no
    timer of the instance, so no event that is delivered and no timer that
    fires makes it read or write the document: the state, its trace of
    effects included, stays as it is. *)
Theorem destroy_idempotent options w t w' ops :
  pristine w ->
  constructor options w = (Ok t, w') ->
  let s := run ops {| this := t; host := w' |} in
  let d := snd (destroy s) in
  fst (destroy s) = Ok tt /\
  _destroyed (this d) = true /\
  destroy d = (Ok tt, d) /\
  listeners (host d) = [] /\ timeouts (host d) = [] /\
  (forall evs, Forall (fun o => is_host_event o = true) evs -> run evs d = d).
Proof.
  intros P Hc s d.
  destruct (constructed_lifecycle options w t w' P Hc) as (L0 & _).
  assert (L : lifecycle s) by (apply run_lifecycle, L0).
  destruct (lifecycle_destroy s L) as [Ld Hd]. fold d in Ld, Hd.
  destruct (destroyed_bare d Ld Hd) as [Ls Lt].
  split; [apply destroy_ok|]. split; [exact Hd|].
  split; [apply destroy_again, Hd|]. split; [exact Ls|]. split; [exact Lt|].
  intros evs Hevs. apply (run_host_events evs d Ld Hd Hevs).
Qed.

Lemma destroy_idempotent_witness :
  let s := run [Sample.press 10; Deliver TWindow resize UIEvent]
             {| this := this Sample.two_rows; host := host Sample.two_rows |} in
  let d := snd (destroy s) in
  destroy d = (Ok tt, d) /\
  run [Sample.move 50; Fire 0%nat; Sample.release] d = d.
Proof.
  assert (H : constructor (Sample.options [4%nat; 5%nat]) (Sample.page 200 40 0 100 400)
              = (Ok (this Sample.two_rows), host Sample.two_rows))
    by (vm_compute; reflexivity).
  assert (P : pristine (Sample.page 200 40 0 100 400)) by (split; reflexivity).
  destruct (destroy_idempotent _ _ _ _
              [Sample.press 10; Deliver TWindow resize UIEvent] P H)
    as (_ & _ & D2 & _ & _ & Hev).
  split; [exact D2|]. apply Hev. repeat (constructor; try reflexivity).
Defined.

(** C8 as stated fails: the public methods are not guarded by the
    destroyed flag. After [destroy()], [scrollTo(0.5)] still reads the four
    extents and writes the thumb, both content elements and the attribute. *)
Lemma destroyed_scrollTo_writes :
  let d := run [CallDestroy] Sample.two_rows in
  let s' := snd (scrollTo 0.5 d) in
  _destroyed (this d) = true /\
  reads (since d s')
  = [Get 1%nat offsetWidth; Get 2%nat offsetWidth;
     Get 4%nat scrollWidth; Get 3%nat offsetWidth] /\
  writes (since d s')
  = [SetStyle 2%nat left_ (Px 80); SetStyle 4%nat left_ (Px (-150));
     SetStyle 5%nat left_ (Px (-150));
     SetAttribute 2%nat "aria-valuenow" (AttrNum 50)].
Proof. repeat split; vm_compute; reflexivity. Qed.

(** ** The content extent (C10) *)

Lemma apply_effects_assigned f es s c :
  (forall t, config (f t) = config t) ->
  (forall t, _ratio (f t) = _ratio t) ->
  apply_reads (with_this f (after es s)) c
  ++ apply_writes (with_this f (after es s)) c
  ++ apply_notify (with_this f (after es s))
  = apply_reads s c ++ apply_writes s c ++ apply_notify s.
Proof.
  intros Hc Hr.
  assert (C : cfg (with_this f (after es s)) = cfg s) by (unfold cfg; simpl; apply Hc).
  assert (R : ratio (with_this f (after es s)) = ratio s)
    by (unfold ratio; simpl; apply Hr).
  assert (Hp : horizontal_p (with_this f (after es s)) = horizontal_p s)
    by (unfold horizontal_p; rewrite C; reflexivity).
  assert (M : forall n p, measure (with_this f (after es s)) n p = measure s n p)
    by (intros n p; apply (measure_after es s n p)).
  unfold apply_reads, apply_writes, apply_notify, travel, overflow, trackExtent,
    thumbExtent, viewportExtent, contentExtent, posStyle, sizeProp, scrollProp.
  rewrite !M, C, R, Hp. reflexivity.
Qed.

Lemma update_effects_eq s c els :
  contentEls (cfg s) = c :: els ->
  update s
  = (Ok tt,
     with_this (set_dragStep (trackExtent s / keyboardSteps (cfg s)))
       (after (update_effects s c) s)).
Proof.
  intros H. rewrite (update_eq s c els H).
  rewrite (applyPosition_eq _ c els) by exact H.
  rewrite apply_effects_assigned by reflexivity.
  rewrite after_with_this, after_after. reflexivity.
Qed.






(** * Further properties *)

(** ** Construction *)

Lemma attribute_after_untouched es s n a :
  (forall v, SetAttribute n a v ∉ es) ->
  attributes (elements (host (after es s)) n) !! a
  = attributes (elements (host s) n) !! a.
Proof.
  revert s. induction es as [|e es IH] using rev_ind; intros s H; [reflexivity|].
  rewrite after_snoc. unfold after at 1. cbn [host fold_left]. unfold effect.
  change (elements (log e ?w)) with (elements w).
  rewrite change_attribute. destruct e;
    try (apply IH; intros v0 Hin; apply (H v0), elem_of_app; left; exact Hin).
  case_bool_decide as Hd.
  - destruct Hd as [-> ->]. exfalso. apply (H v), elem_of_app. right.
    apply list_elem_of_singleton. reflexivity.
  - apply IH. intros v' Hin. apply (H v'), elem_of_app. left. exact Hin.
Qed.

Lemma has_attribute_after es s a :
  (forall v, SetAttribute (thumb (cfg s)) a v ∉ es) ->
  has_attribute (after es s) a = has_attribute s a.
Proof.
  intros H. unfold has_attribute. rewrite cfg_after.
  rewrite attribute_after_untouched by exact H. reflexivity.
Qed.

Ltac has_attr :=
  obs;
  match goal with
  | |- context [bool_decide (is_Some (attributes (elements (host (after ?es ?s))
                                                     (thumb (cfg ?s))) !! ?a))] =>
      change (bool_decide (is_Some (attributes (elements (host (after es s))
                                                  (thumb (cfg s))) !! a)))
        with (has_attribute (after es s) a);
      rewrite (has_attribute_after es s a)
        by (let Hin := fresh in intros ? Hin; effect_cases Hin)
  end.

Lemma init_eq s : init s = init_listen (after (attr_effects s) s).
Proof.
  unfold init. rewrite bind_option. astep.
  fold (has_attribute s "tabindex").
  unfold attr_effects.
  destruct (has_attribute s "tabindex") eqn:H1; cbn [negb when]; astep;
    has_attr;
    (destruct (has_attribute s "role") eqn:H2; cbn [negb when]; astep);
    has_attr;
    (destruct (has_attribute s "aria-label") eqn:H3; cbn [negb when]; astep);
    obs; reflexivity.
Qed.

Lemma init_effects_after es s : init_effects (after es s) = init_effects s.
Proof. reflexivity. Qed.

Lemma attr_effects_quiet s : Forall (fun e => quiet e = true) (attr_effects s).
Proof.
  unfold attr_effects.
  destruct (has_attribute s "tabindex"), (has_attribute s "role"),
    (has_attribute s "aria-label"); all_quiet.
Qed.

Lemma size_effects_quiet s c : Forall (fun e => quiet e = true) (size_effects s c).
Proof. all_quiet. Qed.

Lemma resolveElement_elements i w :
  elements (snd (resolveElement i w)) = elements w.
Proof.
  destruct i as [sel|n]; [|reflexivity].
  unfold resolveElement, bind, querySelector. destruct (selectors w sel); reflexivity.
Qed.

Lemma map_resolve_elements items w :
  elements (snd (map_resolve items w)) = elements w.
Proof.
  revert w. induction items as [|i items IH]; intros w; [reflexivity|].
  simpl. unfold bind.
  pose proof (resolveElement_elements i w) as E1.
  destruct (resolveElement i w) as [[n|e] w1]; cbn [snd] in *; [|exact E1].
  pose proof (IH w1) as E2.
  destruct (map_resolve items w1) as [[ns|e] w2]; cbn [snd ret] in *; congruence.
Qed.

Lemma constructor_state options w t w' :
  constructor options w = (Ok t, w') ->
  exists s0 c els,
    elements (host s0) = elements w /\
    listeners (host s0) = listeners w /\
    timeouts (host s0) = timeouts w /\
    fresh_fields (this s0) /\
    configured options (cfg s0) /\
    contentEls (cfg s0) = c :: els /\
    {| this := t; host := w' |}
    = with_this (set_dragStep (trackExtent s0 / keyboardSteps (cfg s0)))
        (after (attr_effects s0 ++ init_effects s0 ++ size_effects s0 c) s0).
Proof.
  unfold constructor. unfold bind at 1.
  pose proof (resolveElement_host (opt_track options) w) as [L1 T1].
  pose proof (resolveElement_elements (opt_track options) w) as E1.
  destruct (resolveElement (opt_track options) w) as [[tr|e] w1]; [|discriminate].
  unfold bind at 1.
  pose proof (resolveElement_host (opt_thumb options) w1) as [L2 T2].
  pose proof (resolveElement_elements (opt_thumb options) w1) as E2.
  destruct (resolveElement (opt_thumb options) w1) as [[th|e] w2]; [|discriminate].
  unfold bind at 1.
  pose proof (resolveElement_host (opt_viewport options) w2) as [L3 T3].
  pose proof (resolveElement_elements (opt_viewport options) w2) as E3.
  destruct (resolveElement (opt_viewport options) w2) as [[vp|e] w3]; [|discriminate].
  unfold bind at 1. unfold resolveContentElements.
  match goal with |- context [map_resolve ?items w3] =>
    pose proof (map_resolve_host items w3) as [L4 T4];
    pose proof (map_resolve_elements items w3) as E4;
    destruct (map_resolve items w3) as [[els|e] w4]; [|discriminate]
  end.
  simpl in *.
  match goal with |- context [init ?s0] =>
    intros H; set (s0' := s0) in *;
    destruct (init s0') as [[[]|e] [t1 w1']] eqn:E; [|discriminate]
  end.
  inversion H; subst t1 w1'. clear H.
  rewrite init_eq in E.
  destruct (contentEls (cfg (after (attr_effects s0') s0'))) as [|c els'] eqn:Hce.
  { pose proof (init_listen_empty _ Hce) as Ht. rewrite E in Ht. discriminate. }
  rewrite (init_listen_eq _ c els' Hce) in E.
  apply (f_equal snd) in E. cbn [snd] in E.
  exists s0', c, els'. 
  split; [simpl; congruence|]. split; [simpl; congruence|].
  split; [simpl; congruence|]. split; [repeat split|].
  split; [repeat split|]. split; [exact Hce|].
  rewrite <- E. autorewrite with obs. rewrite init_effects_after.
  reflexivity.
Qed.

(** ** Listener arithmetic *)

Lemma add_fresh ls l : l ∉ ls -> listener_change ls (AddEventListener l) = ls ++ [l].
Proof. intros H. simpl. rewrite bool_decide_eq_false_2 by exact H. reflexivity. Qed.

Lemma add_present ls l : l ∈ ls -> listener_change ls (AddEventListener l) = ls.
Proof. intros H. simpl. rewrite bool_decide_eq_true_2 by exact H. reflexivity. Qed.

Lemma filter_absent (ls : list Listener) l : l ∉ ls -> filter (fun l' => l' ≠ l) ls = ls.
Proof.
  induction ls as [|x ls IH]; intros H; [reflexivity|].
  rewrite filter_cons_True.
  - f_equal. apply IH. intros Hin. apply H, elem_of_cons. right. exact Hin.
  - intros ->. apply H, elem_of_cons. left. reflexivity.
Qed.

Ltac not_in :=
  let Hin := fresh "Hin" in
  intros Hin;
  repeat match type of Hin with
         | _ ∈ [] => apply elem_of_nil in Hin; contradiction
         | _ ∈ _ ++ _ => apply elem_of_app in Hin as [Hin|Hin]
         | _ ∈ _ :: _ => apply elem_of_cons in Hin as [Hin|Hin]; [congruence|]
         | _ ∈ (if ?b then _ else _) => destruct b
         end.

Ltac add_step :=
  match goal with
  | |- context [listener_change ?ls (AddEventListener ?l)] =>
      lazymatch ls with
      | context [listener_change] => fail
      | _ => first [ rewrite (add_fresh ls l) by not_in
                   | rewrite (add_present ls l) by in_list ]
      end; cbn [app]
  end.

Lemma init_effects_listeners s :
  fold_left listener_change (init_effects s) [] = base_listeners (cfg s).
Proof.
  unfold init_effects, base_listeners, thumb_listeners, option_listeners.
  destruct (trackClick (cfg s)), (autoResize (cfg s)); cbn [fold_left app];
    repeat add_step; reflexivity.
Qed.

Lemma elements_after_other es s n :
  Forall (fun e => target_of e ≠ Some n) es ->
  elements (host (after es s)) n = elements (host s) n.
Proof.
  revert s. induction es as [|e es IH] using rev_ind; intros s H; [reflexivity|].
  apply Forall_app in H as [H1 H2]. apply Forall_inv in H2.
  rewrite after_snoc. unfold after at 1. cbn [host fold_left]. unfold effect.
  change (elements (log e ?w)) with (elements w).
  rewrite <- (IH s H1).
  destruct e; cbn [change target_of] in *; try reflexivity;
    try (case_bool_decide; reflexivity);
    unfold with_elements; cbn [elements];
    rewrite fn_lookup_insert_ne by congruence; reflexivity.
Qed.

Lemma init_writes_thumb s c n :
  n ≠ thumb (cfg s) ->
  Forall (fun e => target_of e ≠ Some n)
    (attr_effects s ++ init_effects s ++ size_effects s c).
Proof.
  intros Hn. apply Forall_forall. intros e Hin.
  unfold attr_effects, init_effects, size_effects in Hin.
  effect_cases Hin; subst; cbn [target_of]; congruence.
Qed.

(** X1 -- A successful construction on a page on which nothing is
    registered reads the options with their defaults, registers exactly the
    three listeners of the thumb, then the click listener of the track and
    the resize listener of the window when these options are on, and none on
    the document; it starts no timer, leaves the ratio at 0 and the
    instance neither dragging nor destroyed, sets the step to
    [trackSize / keyboardSteps], and changes no element but the thumb. *)
Theorem construction_outcome options w t w' :
  pristine w ->
  constructor options w = (Ok t, w') ->
  let s := {| this := t; host := w' |} in
  configured options (cfg s) /\
  listeners w' = base_listeners (cfg s) /\
  timeouts w' = [] /\
  _ratio t = 0%float /\ _isDragging t = false /\ _destroyed t = false /\
  _resizeTimer t = None /\
  _dragStep t = (trackExtent s / keyboardSteps (cfg s))%float /\
  (forall n, n ≠ thumb (cfg s) -> elements w' n = elements w n).
Proof.
  intros [Pl Pt] Hc s.
  destruct (constructor_state options w t w' Hc)
    as (s0 & c & els & E0 & L0 & T0 & F0 & C0 & Hce & Hs).
  fold s in Hs. destruct F0 as (R0 & _ & _ & D0 & Rt0 & X0).
  assert (Hcfg : cfg s = cfg s0) by (rewrite Hs; reflexivity).
  rewrite Hcfg.
  split; [exact C0|]. split.
  { change w' with (host s). rewrite Hs. cbn [host with_this].
    rewrite listeners_after, L0, Pl, !fold_left_app.
    rewrite (quiet_listeners _ _ (attr_effects_quiet s0)).
    rewrite init_effects_listeners.
    apply (quiet_listeners _ _ (size_effects_quiet s0 c)). }
  split.
  { change w' with (host s). rewrite Hs. cbn [host with_this].
    rewrite timeouts_after, T0, Pt. apply timeouts_untimed.
    apply Forall_forall. intros e Hin.
    unfold attr_effects, init_effects, size_effects in Hin.
    effect_cases Hin; subst; reflexivity. }
  change t with (this s). rewrite Hs.
  cbn [this with_this set_dragStep _ratio _isDragging _destroyed _resizeTimer _dragStep after].
  split; [exact R0|]. split; [exact D0|]. split; [exact X0|]. split; [exact Rt0|].
  split.
  { change (with_this ?f ?x) with (with_this f x).
    f_equal. symmetry.
    change (trackExtent (with_this ?f (after ?es s0))) with (trackExtent (after es s0)).
    apply trackExtent_after. }
  intros n Hn. change w' with (host s). rewrite Hs. cbn [host with_this].
  rewrite elements_after_other by (apply init_writes_thumb; exact Hn).
  rewrite E0. reflexivity.
Qed.

Lemma construction_outcome_witness :
  let s := {| this := this Sample.two_rows; host := host Sample.two_rows |} in
  listeners (host Sample.two_rows) = base_listeners (cfg s) /\
  timeouts (host Sample.two_rows) = [] /\
  _dragStep (this Sample.two_rows) = (trackExtent s / keyboardSteps (cfg s))%float.
Proof.
  assert (H : constructor (Sample.options [4%nat; 5%nat]) (Sample.page 200 40 0 100 400)
              = (Ok (this Sample.two_rows), host Sample.two_rows))
    by (vm_compute; reflexivity).
  assert (P : pristine (Sample.page 200 40 0 100 400)) by (split; reflexivity).
  destruct (construction_outcome _ _ _ _ P H) as (_ & L & T & _ & _ & _ & _ & D & _).
  split; [exact L|]. split; [exact T|exact D].
Defined.

Lemma has_attribute_None s a :
  has_attribute s a = false ->
  attributes (elements (host s) (thumb (cfg s))) !! a = None.
Proof.
  unfold has_attribute. intros H. apply bool_decide_eq_false in H.
  destruct (attributes (elements (host s) (thumb (cfg s))) !! a) eqn:E;
    [exfalso; apply H; eexists; reflexivity|reflexivity].
Qed.

Lemma has_attribute_Some s a :
  has_attribute s a = true ->
  is_Some (attributes (elements (host s) (thumb (cfg s))) !! a).
Proof. unfold has_attribute. intros H. apply bool_decide_eq_true in H. exact H. Qed.

Ltac attr_set :=
  apply attribute_after;
  [ let Hin := fresh in
    intros ? Hin; effect_cases Hin; inversion Hin; reflexivity
  | in_list ].

Ltac attr_kept :=
  rewrite attribute_after_untouched
    by (let Hin := fresh in intros ? Hin; effect_cases Hin).

(** What the attribute part of [init] leaves on the thumb. *)
Lemma attr_effects_lookup s :
  let th := thumb (cfg s) in
  let old := attributes (elements (host s) th) in
  let new := attributes (elements (host (after (attr_effects s) s)) th) in
  new !! "tabindex" = Some (default (AttrStr "0") (old !! "tabindex")) /\
  new !! "aria-label" = Some (default (AttrStr "Scrollbar") (old !! "aria-label")) /\
  new !! "role" = Some (default (AttrStr "slider") (old !! "role")) /\
  (old !! "role" = None ->
     new !! "aria-valuemin" = Some (AttrStr "0") /\
     new !! "aria-valuemax" = Some (AttrStr "100") /\
     new !! "aria-valuenow" = Some (AttrStr "0")) /\
  (is_Some (old !! "role") ->
     new !! "aria-valuemin" = old !! "aria-valuemin" /\
     new !! "aria-valuemax" = old !! "aria-valuemax" /\
     new !! "aria-valuenow" = old !! "aria-valuenow") /\
  (forall a, a ∉ init_attribute_names -> new !! a = old !! a).
Proof.
  intros th old new. unfold new, attr_effects. fold th.
  destruct (has_attribute s "tabindex") eqn:H1;
    [apply has_attribute_Some in H1 as [v1 H1]|apply has_attribute_None in H1];
    (destruct (has_attribute s "role") eqn:H2;
      [apply has_attribute_Some in H2 as [v2 H2]|apply has_attribute_None in H2]);
    (destruct (has_attribute s "aria-label") eqn:H3;
      [apply has_attribute_Some in H3 as [v3 H3]|apply has_attribute_None in H3]);
    fold th old in H1, H2, H3; rewrite H1, H2, H3; cbn [default];
    (split; [first [attr_set | attr_kept; exact H1]|]);
    (split; [first [attr_set | attr_kept; exact H3]|]);
    (split; [first [attr_set | attr_kept; exact H2]|]);
    (split; [intros Hr; try discriminate Hr; repeat split; attr_set|]);
    (split; [intros [? Hr]; try discriminate Hr; repeat split; attr_kept; reflexivity|]);
    intros a Ha;
    (rewrite attribute_after_untouched; [reflexivity|]);
    intros v Hin; apply Ha; unfold init_attribute_names;
    effect_cases Hin; inversion Hin; subst; in_list.
Qed.

Lemma constructed_attributes options w t w' :
  constructor options w = (Ok t, w') ->
  exists s0,
    cfg s0 = config t /\ elements (host s0) = elements w /\
    forall a,
      attributes (elements w' (thumb (config t))) !! a
      = attributes (elements (host (after (attr_effects s0) s0)) (thumb (cfg s0))) !! a.
Proof.
  intros Hc.
  destruct (constructor_state options w t w' Hc)
    as (s0 & c & els & E0 & _ & _ & _ & _ & _ & Hs).
  exists s0.
  assert (Ht : config t = cfg s0) by (apply (f_equal (fun s => config (this s))) in Hs; exact Hs).
  split; [symmetry; exact Ht|]. split; [exact E0|]. intros a.
  apply (f_equal host) in Hs. cbn [host with_this] in Hs. rewrite Hs, Ht.
  rewrite after_app. rewrite attribute_after_untouched; [reflexivity|].
  intros v Hin. unfold init_effects, size_effects in Hin. effect_cases Hin.
Qed.

(** X2 -- The constructor makes the thumb focusable and labels it without
    overwriting what the page has set: [tabindex] becomes "0" and
    [aria-label] "Scrollbar" only when absent; when the thumb has no
    [role], it gets [role] "slider" and [aria-valuemin], [aria-valuemax] and
    [aria-valuenow] are set to "0", "100" and "0" (whatever they were);
    when it has a [role], none of these four is touched; and no other
    attribute changes. *)
Theorem init_thumb_attributes options w t w' :
  constructor options w = (Ok t, w') ->
  let th := thumb (config t) in
  let old := attributes (elements w th) in
  let new := attributes (elements w' th) in
  new !! "tabindex" = Some (default (AttrStr "0") (old !! "tabindex")) /\
  new !! "aria-label" = Some (default (AttrStr "Scrollbar") (old !! "aria-label")) /\
  new !! "role" = Some (default (AttrStr "slider") (old !! "role")) /\
  (old !! "role" = None ->
     new !! "aria-valuemin" = Some (AttrStr "0") /\
     new !! "aria-valuemax" = Some (AttrStr "100") /\
     new !! "aria-valuenow" = Some (AttrStr "0")) /\
  (is_Some (old !! "role") ->
     new !! "aria-valuemin" = old !! "aria-valuemin" /\
     new !! "aria-valuemax" = old !! "aria-valuemax" /\
     new !! "aria-valuenow" = old !! "aria-valuenow") /\
  (forall a, a ∉ init_attribute_names -> new !! a = old !! a).
Proof.
  intros Hc th old new.
  destruct (constructed_attributes options w t w' Hc) as (s0 & Hcfg & E0 & Hn).
  pose proof (attr_effects_lookup s0) as L. cbv zeta in L.
  unfold new, old, th. rewrite <- E0, <- Hcfg. rewrite <- Hcfg in Hn.
  rewrite !Hn.
  destruct L as (L1 & L2 & L3 & L4 & L5 & L6).
  split; [exact L1|]. split; [exact L2|]. split; [exact L3|].
  split; [exact L4|]. split; [exact L5|].
  intros a Ha. rewrite Hn. apply L6, Ha.
Qed.

Lemma init_thumb_attributes_witness :
  attributes (elements (host Sample.two_rows) 2%nat) !! "role" = Some (AttrStr "slider") /\
  attributes (elements (host Sample.two_rows) 2%nat) !! "tabindex" = Some (AttrStr "0").
Proof.
  assert (H : constructor (Sample.options [4%nat; 5%nat]) (Sample.page 200 40 0 100 400)
              = (Ok (this Sample.two_rows), host Sample.two_rows))
    by (vm_compute; reflexivity).
  destruct (init_thumb_attributes _ _ _ _ H) as (T & _ & R & _).
  split; [exact R|exact T].
Defined.

(** ** Resolution of the elements *)

Lemma untouched_refl w : untouched w w.
Proof. repeat split. Qed.

Lemma untouched_trans w1 w2 w3 : untouched w1 w2 -> untouched w2 w3 -> untouched w1 w3.
Proof.
  intros (A1 & A2 & A3 & A4 & A5 & A6 & A7) (B1 & B2 & B3 & B4 & B5 & B6 & B7).
  repeat split; congruence.
Qed.

Lemma untouched_resolves w w' i : untouched w w' -> resolves w' i = resolves w i.
Proof. intros (_ & S & _). destruct i; simpl; [rewrite S|]; reflexivity. Qed.

Lemma resolveElement_cases i w :
  untouched w (snd (resolveElement i w)) /\
  ((resolves w i = true /\ exists n, fst (resolveElement i w) = Ok n) \/
   (resolves w i = false /\ exists msg, fst (resolveElement i w) = Throw (Error msg))).
Proof.
  destruct i as [sel|n]; simpl.
  - unfold bind, querySelector. destruct (selectors w sel) as [n|] eqn:E; simpl.
    + split; [repeat split|]. left. split; [reflexivity|eexists; reflexivity].
    + split; [repeat split|]. right. split; [reflexivity|eexists; reflexivity].
  - split; [repeat split|]. left. split; [reflexivity|eexists; reflexivity].
Qed.

Lemma map_resolve_cases items w :
  untouched w (snd (map_resolve items w)) /\
  ((Forall (fun i => resolves w i = true) items /\
    exists ns, fst (map_resolve items w) = Ok ns) \/
   (Exists (fun i => resolves w i = false) items /\
    exists msg, fst (map_resolve items w) = Throw (Error msg))).
Proof.
  revert w. induction items as [|i items IH]; intros w.
  { split; [apply untouched_refl|]. left. split; [constructor|eexists; reflexivity]. }
  simpl. unfold bind.
  destruct (resolveElement_cases i w) as [U1 C1].
  destruct (resolveElement i w) as [[n|e] w1]; cbn [fst snd] in *.
  - destruct C1 as [[R1 _]|[_ [msg Hm]]]; [|discriminate].
    destruct (IH w1) as [U2 C2].
    destruct (map_resolve items w1) as [[ns|e] w2]; cbn [fst snd ret] in *.
    + split; [apply (untouched_trans _ _ _ U1 U2)|]. left.
      destruct C2 as [[F _]|[_ [msg Hm]]]; [|discriminate].
      split; [|eexists; reflexivity]. constructor; [exact R1|].
      eapply Forall_impl; [exact F|]. intros j Hj. cbn beta in Hj.
      rewrite <- Hj. symmetry. apply untouched_resolves, U1.
    + split; [apply (untouched_trans _ _ _ U1 U2)|]. right.
      destruct C2 as [[_ [ns Hn]]|[X [msg Hm]]]; [discriminate|].
      split; [|exists msg; exact Hm]. apply Exists_cons_tl.
      eapply Exists_impl; [exact X|]. intros j Hj. cbn beta in Hj.
      rewrite <- Hj. symmetry. apply untouched_resolves, U1.
  - split; [exact U1|]. right.
    destruct C1 as [[_ [n Hn]]|[R1 [msg Hm]]]; [discriminate|].
    split; [apply Exists_cons_hd; exact R1|exists msg].
    injection Hm as ->. reflexivity.
Qed.

Lemma init_result s :
  fst (init s) = Ok tt \/
  fst (init s) = Throw (TypeError "Cannot read properties of undefined").
Proof.
  rewrite init_eq.
  destruct (contentEls (cfg (after (attr_effects s) s))) as [|c els] eqn:Hce.
  - right. apply init_listen_empty, Hce.
  - left. rewrite (init_listen_eq _ c els Hce). reflexivity.
Qed.

Lemma constructor_result options w r w' :
  constructor options w = (r, w') ->
  (Exists (fun i => resolves w i = false) (inputs options) /\
   (exists msg, r = Throw (Error msg)) /\ untouched w w')
  \/
  (Forall (fun i => resolves w i = true) (inputs options) /\
   forall msg, r <> Throw (Error msg)).
Proof.
  unfold constructor, inputs, resolveContentElements.
  fold (content_items (opt_content options)).
  unfold bind at 1.
  destruct (resolveElement_cases (opt_track options) w) as [U1 C1].
  destruct (resolveElement (opt_track options) w) as [[tr|e] w1]; cbn [fst snd] in *.
  2: { intros H. injection H as <- <-. left.
       destruct C1 as [[_ [n Hn]]|[R [msg Hm]]]; [discriminate|].
       split; [apply Exists_cons_hd, R|].
       split; [exists msg; injection Hm as ->; reflexivity|exact U1]. }
  destruct C1 as [[R1 _]|[_ [msg Hm]]]; [|discriminate].
  unfold bind at 1.
  destruct (resolveElement_cases (opt_thumb options) w1) as [U2 C2].
  destruct (resolveElement (opt_thumb options) w1) as [[th|e] w2]; cbn [fst snd] in *.
  2: { intros H. injection H as <- <-. left.
       destruct C2 as [[_ [n Hn]]|[R [msg Hm]]]; [discriminate|].
       split; [apply Exists_cons_tl, Exists_cons_hd;
               rewrite <- R; symmetry; apply untouched_resolves, U1|].
       split; [exists msg; injection Hm as ->; reflexivity
              |apply (untouched_trans _ _ _ U1 U2)]. }
  destruct C2 as [[R2 _]|[_ [msg Hm]]]; [|discriminate].
  pose proof (untouched_trans _ _ _ U1 U2) as U12.
  unfold bind at 1.
  destruct (resolveElement_cases (opt_viewport options) w2) as [U3 C3].
  destruct (resolveElement (opt_viewport options) w2) as [[vp|e] w3]; cbn [fst snd] in *.
  2: { intros H. injection H as <- <-. left.
       destruct C3 as [[_ [n Hn]]|[R [msg Hm]]]; [discriminate|].
       split; [do 2 apply Exists_cons_tl; apply Exists_cons_hd;
               rewrite <- R; symmetry; apply untouched_resolves, U12|].
       split; [exists msg; injection Hm as ->; reflexivity
              |apply (untouched_trans _ _ _ U12 U3)]. }
  destruct C3 as [[R3 _]|[_ [msg Hm]]]; [|discriminate].
  pose proof (untouched_trans _ _ _ U12 U3) as U13.
  unfold bind at 1.
  destruct (map_resolve_cases (content_items (opt_content options)) w3) as [U4 C4].
  destruct (map_resolve (content_items (opt_content options)) w3) as [[els|e] w4];
    cbn [fst snd] in *.
  2: { intros H. injection H as <- <-. left.
       destruct C4 as [[_ [n Hn]]|[X [msg Hm]]]; [discriminate|].
       split; [do 3 apply Exists_cons_tl;
               eapply Exists_impl; [exact X|]; intros j Hj; cbn beta in Hj;
               rewrite <- Hj; symmetry; apply untouched_resolves, U13|].
       split; [exists msg; injection Hm as ->; reflexivity
              |apply (untouched_trans _ _ _ U13 U4)]. }
  destruct C4 as [[F4 _]|[_ [msg Hm]]]; [|discriminate].
  intros H. right. split.
  - constructor; [exact R1|]. constructor.
    { rewrite <- R2. symmetry. apply untouched_resolves, U1. }
    constructor.
    { rewrite <- R3. symmetry. apply untouched_resolves, U12. }
    eapply Forall_impl; [exact F4|]. intros j Hj. cbn beta in Hj.
    rewrite <- Hj. symmetry. apply untouched_resolves, U13.
  - intros msg.
    match type of H with context [init ?s0] =>
      destruct (init_result s0) as [Hi|Hi]; destruct (init s0) as [[[]|e] s1];
        cbn [fst] in *; try discriminate Hi; injection H as <- <-
    end.
    + discriminate.
    + injection Hi as ->. discriminate.
Qed.

(** X3 -- The constructor throws an [Error] exactly when one of the
    selectors it is given (track, thumb, viewport, content items) matches no
    element; it then stops at the first such selector and leaves the page as
    it was: no attribute or style set, no listener registered, no timer
    started. *)
Theorem constructor_unresolved options w :
  (Exists (fun i => resolves w i = false) (inputs options) <->
   exists msg, fst (constructor options w) = Throw (Error msg)) /\
  (forall msg, fst (constructor options w) = Throw (Error msg) ->
   untouched w (snd (constructor options w))).
Proof.
  destruct (constructor_result options w _ _ (surjective_pairing _))
    as [(X & M & U)|(F & N)].
  - split; [split; intros _; assumption|]. intros _ _. exact U.
  - split; [split|].
    + intros X. exfalso. apply Exists_exists in X as (i & Hin & Hi).
      rewrite Forall_forall in F. rewrite (F i Hin) in Hi. discriminate.
    + intros [msg Hm]. exfalso. exact (N msg Hm).
    + intros msg Hm. exfalso. exact (N msg Hm).
Qed.

(** ** Listeners and timers through the life of an instance *)

Lemma steady_quiet s s' : quiet_step s s' -> steady s -> steady s'.
Proof.
  intros (es & Qes & Hh & Cc & Dd & Tt & Xx & _) [L T C].
  constructor.
  - rewrite Hh, listeners_after, (quiet_listeners _ _ Qes), L.
    unfold expected_listeners, cfg. rewrite Xx, Cc, Dd. reflexivity.
  - unfold one_timer in *. rewrite Hh, timeouts_after, (quiet_timeouts _ _ Qes), Tt.
    exact T.
  - unfold cfg in *. rewrite Cc. exact C.
Qed.

Ltac filter_step :=
  first [ rewrite filter_cons_True by congruence
        | rewrite filter_cons_False by (let H := fresh in intros H; apply H; reflexivity)
        | rewrite filter_nil ].

(** One step of the evaluation of the listeners after a list of effects. *)
Ltac listeners_step :=
  match goal with
  | |- context [listener_change ?ls ?e] =>
      lazymatch e with
      | AddEventListener ?l =>
          lazymatch ls with
          | context [listener_change] => fail
          | context [filter] => fail
          | _ => first [ rewrite (add_fresh ls l) by not_in
                       | rewrite (add_present ls l) by in_list ]; cbn [app]
          end
      | RemoveEventListener ?l =>
          change (listener_change ls e) with (filter (fun l' => l' ≠ l) ls)
      | _ => change (listener_change ls e) with ls
      end
  | _ => filter_step
  end.

Ltac explicit_listeners :=
  unfold expected_listeners, base_listeners, thumb_listeners, option_listeners,
    drag_listeners.

Lemma down_listeners s :
  _destroyed (this s) = false ->
  listeners (host s) = expected_listeners s ->
  fold_left listener_change (down_effects s) (listeners (host s))
  = base_listeners (cfg s) ++ drag_listeners.
Proof.
  intros Hd ->. unfold down_effects. explicit_listeners. rewrite Hd.
  destruct (trackClick (cfg s)), (autoResize (cfg s)), (_isDragging (this s)),
    (onDragStartCb (cfg s));
    cbn [fold_left app]; repeat listeners_step; reflexivity.
Qed.

Lemma up_listeners s :
  _destroyed (this s) = false ->
  listeners (host s) = expected_listeners s ->
  fold_left listener_change (up_effects s) (listeners (host s))
  = base_listeners (cfg s).
Proof.
  intros Hd ->. unfold up_effects. explicit_listeners. rewrite Hd.
  destruct (trackClick (cfg s)), (autoResize (cfg s)), (_isDragging (this s)),
    (onDragEndCb (cfg s));
    cbn [fold_left app]; repeat listeners_step; reflexivity.
Qed.

Lemma down_effects_untimed s : Forall (fun e => is_timer e = false) (down_effects s).
Proof.
  unfold down_effects. destruct (onDragStartCb (cfg s)); repeat (constructor; try reflexivity).
Qed.

Lemma up_effects_untimed s : Forall (fun e => is_timer e = false) (up_effects s).
Proof.
  unfold up_effects. destruct (onDragEndCb (cfg s)); repeat (constructor; try reflexivity).
Qed.

Lemma steady_handleDown e s p :
  pointer_of e s = Some p ->
  _destroyed (this s) = false ->
  steady s -> steady (snd (handleDown e s)).
Proof.
  intros Hp Hd [L T C]. rewrite (handleDown_eq e s p Hp). cbn [snd].
  constructor.
  - cbn [host with_this]. rewrite listeners_after, (down_listeners s Hd L).
    unfold expected_listeners. cbn [this with_this after set_lastPointer set_isDragging
      _destroyed _isDragging]. rewrite Hd. reflexivity.
  - unfold one_timer in *. cbn [host with_this this].
    rewrite timeouts_after, (timeouts_untimed _ _ (down_effects_untimed s)). exact T.
  - exact C.
Qed.

Lemma steady_handleUp s :
  _destroyed (this s) = false ->
  steady s -> steady (snd (handleUp s)).
Proof.
  intros Hd [L T C]. rewrite handleUp_eq. cbn [snd].
  constructor.
  - cbn [host with_this]. rewrite listeners_after, (up_listeners s Hd L).
    unfold expected_listeners. cbn [this with_this after set_isDragging
      _destroyed _isDragging]. rewrite Hd, app_nil_r. reflexivity.
  - unfold one_timer in *. cbn [host with_this this].
    rewrite timeouts_after, (timeouts_untimed _ _ (up_effects_untimed s)). exact T.
  - exact C.
Qed.

Lemma resize_timeouts s :
  one_timer s ->
  fold_left timer_change (resize_effects s) (timeouts (host s)) = [nextTimeout (host s)].
Proof.
  intros [T|(id & T & R)]; unfold resize_effects; rewrite T.
  - destruct (_resizeTimer (this s)); reflexivity.
  - rewrite R. cbn [app fold_left timer_change].
    rewrite filter_cons_False by (intros H; apply H; reflexivity).
    reflexivity.
Qed.

Lemma resize_effects_listeners s ls :
  fold_left listener_change (resize_effects s) ls = ls.
Proof. unfold resize_effects. destruct (_resizeTimer (this s)); reflexivity. Qed.

Lemma steady_handleResize s :
  steady s ->
  steady (snd (handleResize s)) /\
  timeouts (host (snd (handleResize s))) = [nextTimeout (host s)].
Proof.
  intros [L T C]. rewrite handleResize_eq. cbn [snd host with_this].
  rewrite timeouts_after, (resize_timeouts s T). split; [|reflexivity].
  constructor.
  - cbn [host with_this]. rewrite listeners_after, resize_effects_listeners, L.
    reflexivity.
  - right. exists (nextTimeout (host s)). cbn [host with_this this].
    rewrite timeouts_after, (resize_timeouts s T). split; reflexivity.
  - exact C.
Qed.

Lemma destroy_timeouts s :
  one_timer s ->
  fold_left timer_change (destroy_effects s) (timeouts (host s)) = [].
Proof.
  intros T. unfold destroy_effects.
  destruct (trackClick (cfg s)), (autoResize (cfg s));
    (destruct T as [T|(id & T & R)]; rewrite T;
     [destruct (_resizeTimer (this s)); reflexivity|]);
    rewrite R; cbn [app fold_left timer_change];
    rewrite filter_cons_False by (intros H; apply H; reflexivity); reflexivity.
Qed.

Lemma destroy_listeners s :
  _destroyed (this s) = false ->
  listeners (host s) = expected_listeners s ->
  fold_left listener_change (destroy_effects s) (listeners (host s)) = [].
Proof.
  intros Hd ->. unfold destroy_effects. explicit_listeners. rewrite Hd.
  destruct (trackClick (cfg s)), (autoResize (cfg s)), (_isDragging (this s)),
    (_resizeTimer (this s));
    cbn [fold_left app]; repeat listeners_step; reflexivity.
Qed.

Lemma steady_destroy s : steady s -> steady (snd (destroy s)).
Proof.
  intros [L T C]. destruct (_destroyed (this s)) eqn:Hd.
  { rewrite (destroy_again s Hd). constructor; assumption. }
  rewrite (destroy_eq s Hd). cbn [snd]. constructor.
  - rewrite listeners_after. cbn [host with_this].
    change (destroy_effects (with_this ?f s)) with (destroy_effects s) || idtac.
    rewrite (destroy_listeners s Hd L). reflexivity.
  - left. rewrite timeouts_after. cbn [host with_this].
    apply (destroy_timeouts s T).
  - exact C.
Qed.

Lemma expected_owned s l : l ∈ expected_listeners s -> l ∈ owned (cfg s).
Proof.
  unfold expected_listeners, base_listeners. rewrite elem_of_owned.
  destruct (_destroyed (this s)); [intros H; inversion H|].
  intros H. apply elem_of_app in H as [H|H].
  - apply elem_of_app in H as [H|H]; auto.
  - destruct (_isDragging (this s)); [auto|inversion H].
Qed.

Lemma invoke_steady t ty h e s :
  (t, ty, h) ∈ owned (cfg s) ->
  event_class ty e = true ->
  _destroyed (this s) = false ->
  steady s -> steady (attempt (invoke h e) s).
Proof.
  intros Hin Hc Hlive S. unfold attempt. destruct h; cbn [invoke].
  - destruct (owned_OnDown _ _ _ _ Hin Hc s) as [p Hp].
    apply (steady_handleDown e s p Hp Hlive S).
  - apply (steady_quiet s); [apply quiet_handleMove|exact S].
  - apply (steady_handleUp s Hlive S).
  - destruct e; try exact S.
    apply (steady_quiet s); [apply quiet_handleKey|exact S].
  - destruct e; try exact S.
    apply (steady_quiet s); [apply quiet_handleTrackClick|exact S].
  - apply (steady_handleResize s S).
Qed.

Lemma deliver_steady t ty e s : steady s -> steady (deliver t ty e s).
Proof.
  intros S. unfold deliver. destruct (event_class ty e) eqn:Hc; [|exact S].
  destruct (_destroyed (this s)) eqn:Hd.
  { assert (R : registered t ty s = []).
    { apply elem_of_nil_inv. intros h Hh. apply elem_of_registered in Hh.
      rewrite (steady_listeners s S) in Hh. unfold expected_listeners in Hh.
      rewrite Hd in Hh. inversion Hh. }
    rewrite R. exact S. }
  apply (fold_handlers
           (fun s' => steady s' /\ _destroyed (this s') = false /\ cfg s' = cfg s)).
  - intros h s' Hh (S' & Hd' & Hcfg).
    apply elem_of_registered in Hh. rewrite (steady_listeners s S) in Hh.
    apply expected_owned in Hh.
    pose proof (invoke_handled h e s') as [Hc1 Hd1 _ _].
    split; [|split].
    + apply (invoke_steady t ty h e s'); try assumption. rewrite Hcfg. exact Hh.
    + congruence.
    + unfold cfg in *. congruence.
  - auto.
Qed.

Lemma fire_steady id s : steady s -> steady (fire id s).
Proof.
  intros S. unfold fire. case_bool_decide as Hin; [|exact S].
  unfold attempt. apply (steady_quiet _ _ (quiet_update _)).
  destruct S as [L T C]. constructor.
  - exact L.
  - left. cbn [host timeouts with_timeouts].
    destruct T as [T|(id' & T & R)]; rewrite T in *; [inversion Hin|].
    apply list_elem_of_singleton in Hin as ->.
    rewrite filter_cons_False by (intros H; apply H; reflexivity). reflexivity.
  - exact C.
Qed.

Lemma relayout_steady g r s : steady s -> steady (relayout g r s).
Proof. intros [L T C]. constructor; assumption. Qed.

Lemma step_steady s o : steady s -> steady (step s o).
Proof.
  intros S. destruct o; cbn [step]; unfold attempt.
  - apply (steady_quiet s); [apply quiet_scrollTo|exact S].
  - apply (steady_quiet s); [apply quiet_scrollToOffset|exact S].
  - apply (steady_quiet s); [apply quiet_update|exact S].
  - apply (steady_quiet s); [apply quiet_focus|exact S].
  - apply steady_destroy, S.
  - apply deliver_steady, S.
  - apply fire_steady, S.
  - apply relayout_steady, S.
Qed.

Lemma run_steady ops s : steady s -> steady (run ops s).
Proof.
  revert s. induction ops as [|o ops IH]; intros s S; [exact S|].
  simpl. apply IH, step_steady, S.
Qed.

Lemma constructed_steady options w t w' :
  pristine w ->
  constructor options w = (Ok t, w') ->
  steady {| this := t; host := w' |}.
Proof.
  intros [Pl Pt] Hc.
  destruct (constructor_state options w t w' Hc)
    as (s0 & c & els & E0 & L0 & T0 & F0 & C0 & Hce & Hs).
  destruct F0 as (R0 & _ & _ & D0 & Rt0 & X0).
  rewrite Hs. constructor.
  - cbn [host with_this].
    rewrite listeners_after, L0, Pl, !fold_left_app.
    rewrite (quiet_listeners _ _ (attr_effects_quiet s0)).
    rewrite init_effects_listeners.
    rewrite (quiet_listeners _ _ (size_effects_quiet s0 c)).
    unfold expected_listeners.
    cbn [this with_this set_dragStep _destroyed _isDragging after].
    rewrite X0, D0, app_nil_r. reflexivity.
  - left. cbn [host with_this].
    rewrite timeouts_after, T0, Pt. apply timeouts_untimed.
    apply Forall_forall. intros e Hin.
    unfold attr_effects, init_effects, size_effects in Hin.
    effect_cases Hin; subst; reflexivity.
  - change (contentEls (cfg s0) <> []). rewrite Hce. discriminate.
Qed.

Lemma expected_NoDup s : NoDup (expected_listeners s).
Proof.
  explicit_listeners.
  destruct (_destroyed (this s)); [constructor|].
  destruct (trackClick (cfg s)), (autoResize (cfg s)), (_isDragging (this s));
    cbn [app]; repeat (constructor; [not_in|]); constructor.
Qed.

(** X4 -- Through the whole life of an instance constructed on a page on
    which nothing is registered, the listeners registered are exactly: none
    once it is destroyed; otherwise those of the construction followed,
    while it is dragging, by the four listeners of the document
    ([mousemove], [touchmove], [mouseup], [touchend]). No listener is ever
    registered twice and none is left behind by a release. *)
Theorem listeners_exact options w t w' ops :
  pristine w ->
  constructor options w = (Ok t, w') ->
  let s := run ops {| this := t; host := w' |} in
  listeners (host s) = expected_listeners s /\ NoDup (listeners (host s)).
Proof.
  intros P Hc s.
  assert (S : steady s) by (apply run_steady, (constructed_steady options w t w' P Hc)).
  split; [apply (steady_listeners s S)|].
  rewrite (steady_listeners s S). apply expected_NoDup.
Qed.

Lemma listeners_exact_witness :
  let s0 := {| this := this Sample.two_rows; host := host Sample.two_rows |} in
  listeners (host (run [Sample.press 10; Sample.press 20; Sample.release] s0))
  = expected_listeners (run [Sample.press 10; Sample.press 20; Sample.release] s0).
Proof.
  assert (H : constructor (Sample.options [4%nat; 5%nat]) (Sample.page 200 40 0 100 400)
              = (Ok (this Sample.two_rows), host Sample.two_rows))
    by (vm_compute; reflexivity).
  assert (P : pristine (Sample.page 200 40 0 100 400)) by (split; reflexivity).
  exact (proj1 (listeners_exact _ _ _ _
                  [Sample.press 10; Sample.press 20; Sample.release] P H)).
Defined.

(** ** Events nobody listens to *)

Lemma deliver_unregistered t ty e s :
  (forall h, (t, ty, h) ∉ listeners (host s)) -> deliver t ty e s = s.
Proof.
  intros H. unfold deliver. destruct (event_class ty e); [|reflexivity].
  assert (R : registered t ty s = []).
  { apply elem_of_nil_inv. intros h Hh. apply elem_of_registered in Hh.
    exact (H h Hh). }
  rewrite R. reflexivity.
Qed.

(** X5 -- An instance reacts only to the events it subscribed to: when it
    is not dragging, no event delivered at the document changes anything
    (the pointer can move and be released anywhere); with [trackClick]
    off a click on the track does nothing, with [autoResize] off no event
    of the window does; and no event at an element other than the thumb
    and the track does. *)
Theorem unsubscribed_events_ignored options w t w' ops :
  pristine w ->
  constructor options w = (Ok t, w') ->
  let s := run ops {| this := t; host := w' |} in
  (isDragging s = false -> forall ty e, deliver TDocument ty e s = s) /\
  (trackClick (cfg s) = false ->
   forall e, deliver (TNode (track (cfg s))) click e s = s) /\
  (autoResize (cfg s) = false -> forall ty e, deliver TWindow ty e s = s) /\
  (forall n ty e, n <> thumb (cfg s) -> n <> track (cfg s) ->
                  deliver (TNode n) ty e s = s).
Proof.
  intros P Hc s.
  assert (S : steady s) by (apply run_steady, (constructed_steady options w t w' P Hc)).
  pose proof (steady_listeners s S) as L.
  split; [|split; [|split]].
  - intros Hd ty e. apply deliver_unregistered. intros h. rewrite L.
    unfold isDragging in Hd. explicit_listeners. rewrite Hd.
    destruct (_destroyed (this s)); not_in.
  - intros Ht e. apply deliver_unregistered. intros h. rewrite L.
    explicit_listeners. rewrite Ht.
    destruct (_destroyed (this s)); not_in.
  - intros Ha ty e. apply deliver_unregistered. intros h. rewrite L.
    explicit_listeners. rewrite Ha.
    destruct (_destroyed (this s)); not_in.
  - intros n ty e Hth Htr. apply deliver_unregistered. intros h. rewrite L.
    explicit_listeners.
    destruct (_destroyed (this s)); not_in.
Qed.

Lemma unsubscribed_events_ignored_witness :
  let s := run [Sample.press 10; Sample.release]
             {| this := this Sample.two_rows; host := host Sample.two_rows |} in
  deliver TDocument mousemove (MouseEvent 2%nat 50 0) s = s.
Proof.
  assert (H : constructor (Sample.options [4%nat; 5%nat]) (Sample.page 200 40 0 100 400)
              = (Ok (this Sample.two_rows), host Sample.two_rows))
    by (vm_compute; reflexivity).
  assert (P : pristine (Sample.page 200 40 0 100 400)) by (split; reflexivity).
  apply (proj1 (unsubscribed_events_ignored _ _ _ _
                  [Sample.press 10; Sample.release] P H)).
  vm_compute. reflexivity.
Defined.

(** ** The debounced resize *)

Ltac registered_eval :=
  cbn [omap app];
  repeat first
    [ rewrite bool_decide_eq_true_2 by (split; reflexivity)
    | rewrite bool_decide_eq_false_2 by (intros [? ?]; congruence) ];
  cbn [omap].

Lemma registered_resize s :
  listeners (host s) = expected_listeners s ->
  _destroyed (this s) = false -> autoResize (cfg s) = true ->
  registered TWindow resize s = [OnResize].
Proof.
  intros L Hd Ha. unfold registered. rewrite L. explicit_listeners. rewrite Hd, Ha.
  destruct (trackClick (cfg s)), (_isDragging (this s)); registered_eval; reflexivity.
Qed.

Lemma run_cfg ops s : cfg (run ops s) = cfg s.
Proof.
  revert s. induction ops as [|o ops IH]; intros s; [reflexivity|].
  simpl. rewrite IH. destruct (is_destroy o) eqn:Ho.
  - destruct o; try discriminate Ho. cbn [step]. unfold attempt.
    destruct (_destroyed (this s)) eqn:Hd.
    + rewrite (destroy_again s Hd). reflexivity.
    + rewrite (destroy_eq s Hd). reflexivity.
  - apply (step_destroyed s o Ho).
Qed.

(** X6 -- Resize events are debounced with a single timer. In every state
    of an instance constructed on a page without timers at most one timer
    is pending, and it is the one held in [_resizeTimer]. A resize event
    on a live instance with [autoResize] cancels the timer held, if any,
    and starts one with the delay [resizeDebounce], which is then the only
    one pending; when it fires, the thumb is sized and the position is
    applied once, and nothing stays pending. *)
Theorem resize_debounced options w t w' ops :
  pristine w ->
  constructor options w = (Ok t, w') ->
  let s := run ops {| this := t; host := w' |} in
  length (timeouts (host s)) <= 1 /\
  (forall id, id ∈ timeouts (host s) -> _resizeTimer (this s) = Some id) /\
  (_destroyed (this s) = false -> autoResize (cfg s) = true ->
   let id := nextTimeout (host s) in
   let s1 := deliver TWindow resize UIEvent s in
   since s s1
   = match _resizeTimer (this s) with Some old => [ClearTimeout old] | None => [] end
     ++ [SetTimeout id (resizeDebounce (cfg s))] /\
   timeouts (host s1) = [id] /\
   this s1 = set_resizeTimer (Some id) (this s) /\
   exists c,
     head (contentEls (cfg s)) = Some c /\
     since s1 (fire id s1) = update_effects s1 c /\
     timeouts (host (fire id s1)) = [] /\
     ratio (fire id s1) = ratio s).
Proof.
  intros P Hc s.
  assert (S : steady s) by (apply run_steady, (constructed_steady options w t w' P Hc)).
  split; [|split].
  - destruct (steady_timer s S) as [T|(id & T & _)]; rewrite T; simpl; lia.
  - intros id Hin. destruct (steady_timer s S) as [T|(id' & T & R)]; rewrite T in Hin.
    + inversion Hin.
    + apply list_elem_of_singleton in Hin as ->. exact R.
  - intros Hd Ha id s1.
    assert (E1 : s1 = snd (handleResize s)).
    { unfold s1, deliver. cbn [event_class].
      rewrite (registered_resize s (steady_listeners s S) Hd Ha). reflexivity. }
    destruct (steady_handleResize s S) as [S1 T1]. rewrite <- E1 in S1, T1.
    assert (E2 : s1 = with_this (set_resizeTimer (Some id)) (after (resize_effects s) s))
      by (rewrite E1, handleResize_eq; reflexivity).
    split; [rewrite E2, since_assigned; reflexivity|].
    split; [exact T1|]. split; [rewrite E2; reflexivity|].
    destruct (contentEls (cfg s)) as [|c els] eqn:Hce;
      [exfalso; exact (steady_content s S Hce)|].
    exists c. split; [reflexivity|].
    unfold fire. rewrite T1.
    rewrite bool_decide_eq_true_2 by (apply list_elem_of_singleton; reflexivity).
    rewrite filter_cons_False by (intros H; apply H; reflexivity).
    rewrite filter_nil. unfold attempt.
    set (s2 := {| this := this s1;
                  host := with_timeouts [] (nextTimeout (host s1)) (host s1) |}).
    assert (Hce2 : contentEls (cfg s2) = c :: els)
      by (unfold s2, cfg; cbn [this]; rewrite E2; exact Hce).
    change resizeCallback with update.
    rewrite (update_effects_eq s2 c els Hce2). cbn [snd].
    split; [|split].
    + unfold since. cbn [host with_this]. rewrite after_trace.
      change (trace (host s2)) with (trace (host s1)).
      rewrite drop_app_length. reflexivity.
    + cbn [host with_this]. rewrite timeouts_after. apply timeouts_untimed.
      apply Forall_forall. intros e Hin.
      unfold update_effects, size_effects, apply_reads, apply_writes, apply_notify in Hin.
      effect_cases Hin; subst; try reflexivity.
      apply list_elem_of_In, in_map_iff in Hin as (el & <- & _). reflexivity.
    + unfold ratio. cbn [this with_this set_dragStep _ratio after].
      unfold s2. cbn [this]. rewrite E2. reflexivity.
Qed.

Lemma resize_debounced_witness :
  let s := run [Deliver TWindow resize UIEvent; Deliver TWindow resize UIEvent]
             {| this := this Sample.two_rows; host := host Sample.two_rows |} in
  length (timeouts (host s)) <= 1.
Proof.
  assert (H : constructor (Sample.options [4%nat; 5%nat]) (Sample.page 200 40 0 100 400)
              = (Ok (this Sample.two_rows), host Sample.two_rows))
    by (vm_compute; reflexivity).
  assert (P : pristine (Sample.page 200 40 0 100 400)) by (split; reflexivity).
  exact (proj1 (resize_debounced _ _ _ _
                  [Deliver TWindow resize UIEvent; Deliver TWindow resize UIEvent] P H)).
Defined.

(** ** No exception in the steady state *)

Lemma applyPosition_ok s c els :
  contentEls (cfg s) = c :: els -> fst (applyPosition s) = Ok tt.
Proof. intros H. rewrite (applyPosition_eq s c els H). reflexivity. Qed.

Lemma handleKey_ok s key c els :
  contentEls (cfg s) = c :: els -> fst (handleKey key s) = Ok tt.
Proof.
  intros H.
  destruct (decide (key = backKey s)) as [Hb|Hb].
  { rewrite (handleKey_back s key Hb). apply (applyPosition_ok _ c els). exact H. }
  destruct (decide (key = fwdKey s)) as [Hf|Hf].
  { rewrite (handleKey_fwd s key Hf). apply (applyPosition_ok _ c els). exact H. }
  destruct (decide (key = "Home")) as [->|Hh].
  { rewrite handleKey_home. apply (applyPosition_ok _ c els). exact H. }
  destruct (decide (key = "End")) as [->|He].
  { rewrite handleKey_end. apply (applyPosition_ok _ c els). exact H. }
  rewrite (handleKey_other s key Hb Hf Hh He). reflexivity.
Qed.

Lemma handleTrackClick_ok s target x y c els :
  contentEls (cfg s) = c :: els -> fst (handleTrackClick target x y s) = Ok tt.
Proof.
  intros H. destruct (decide (target = thumb (cfg s))) as [Ht|Ht].
  { rewrite (handleTrackClick_thumb target x y s Ht). reflexivity. }
  destruct (descendant (host s) (thumb (cfg s)) target) eqn:Hd.
  - rewrite (handleTrackClick_inside target x y s Ht Hd). reflexivity.
  - rewrite (handleTrackClick_outside target x y s Ht Hd).
    apply (applyPosition_ok _ c els). exact H.
Qed.

Lemma owned_OnMove c t ty e :
  (t, ty, OnMove) ∈ owned c -> event_class ty e = true ->
  forall s, exists p, pointer_of e s = Some p.
Proof.
  intros Hin Hc s. unfold owned, thumb_listeners, drag_listeners, option_listeners in Hin.
  effect_cases Hin; inversion Hin; subst;
    destruct e as [tg x y|[|[x y] ts]|key|]; try discriminate Hc;
    eexists; reflexivity.
Qed.

Lemma invoke_ok t ty h e s c els :
  (t, ty, h) ∈ owned (cfg s) ->
  event_class ty e = true ->
  contentEls (cfg s) = c :: els ->
  fst (invoke h e s) = Ok tt.
Proof.
  intros Hin Hc H. destruct h; cbn [invoke].
  - destruct (owned_OnDown _ _ _ _ Hin Hc s) as [p Hp].
    rewrite (handleDown_eq e s p Hp). reflexivity.
  - destruct (owned_OnMove _ _ _ _ Hin Hc s) as [p Hp].
    rewrite (handleMove_eq e s p Hp). apply (applyPosition_ok _ c els). exact H.
  - rewrite handleUp_eq. reflexivity.
  - destruct e; try reflexivity. apply (handleKey_ok s _ c els H).
  - destruct e; try reflexivity. apply (handleTrackClick_ok s _ _ _ c els H).
  - rewrite handleResize_eq. reflexivity.
Qed.

(** X7 -- Once constructed, an instance throws no exception: in every
    state it reaches, whatever the numbers passed and the layout of the
    page, [scrollTo], [scrollToOffset], [update], [focus] and [destroy]
    return normally, the resize callback returns normally, and so does
    every listener registered when the host calls it with an event of its
    type. *)
Theorem steady_state_total options w t w' ops :
  pristine w ->
  constructor options w = (Ok t, w') ->
  let s := run ops {| this := t; host := w' |} in
  (forall r, fst (scrollTo r s) = Ok tt) /\
  (forall x, fst (scrollToOffset x s) = Ok tt) /\
  fst (update s) = Ok tt /\
  fst (focus s) = Ok tt /\
  fst (destroy s) = Ok tt /\
  fst (resizeCallback s) = Ok tt /\
  (forall tg ty h e,
     (tg, ty, h) ∈ listeners (host s) -> event_class ty e = true ->
     fst (invoke h e s) = Ok tt).
Proof.
  intros P Hc s.
  assert (S : steady s) by (apply run_steady, (constructed_steady options w t w' P Hc)).
  destruct (contentEls (cfg s)) as [|c els] eqn:Hce;
    [exfalso; exact (steady_content s S Hce)|].
  split; [|split; [|split; [|split; [|split; [|split]]]]].
  - intros r. rewrite scrollTo_eq. apply (applyPosition_ok _ c els). exact Hce.
  - intros x. rewrite (scrollToOffset_eq x s c els Hce).
    apply (applyPosition_ok _ c els). exact Hce.
  - rewrite (update_effects_eq s c els Hce). reflexivity.
  - rewrite focus_eq. reflexivity.
  - destruct (_destroyed (this s)) eqn:Hd.
    + rewrite (destroy_again s Hd). reflexivity.
    + rewrite (destroy_eq s Hd). reflexivity.
  - change resizeCallback with update.
    rewrite (update_effects_eq s c els Hce). reflexivity.
  - intros tg ty h e Hin Hev. apply (invoke_ok tg ty h e s c els); [|exact Hev|exact Hce].
    rewrite (steady_listeners s S) in Hin. apply expected_owned, Hin.
Qed.

Lemma steady_state_total_witness :
  let s := run [Sample.press 10; Relayout (fun _ _ => 0%float)
                                   (fun _ => {| rect_left := 0; rect_top := 0 |})]
             {| this := this Sample.two_rows; host := host Sample.two_rows |} in
  fst (scrollToOffset 50 s) = Ok tt.
Proof.
  assert (H : constructor (Sample.options [4%nat; 5%nat]) (Sample.page 200 40 0 100 400)
              = (Ok (this Sample.two_rows), host Sample.two_rows))
    by (vm_compute; reflexivity).
  assert (P : pristine (Sample.page 200 40 0 100 400)) by (split; reflexivity).
  exact (proj1 (proj2 (steady_state_total _ _ _ _ _ P H)) 50%float).
Defined.

(** ** The track, and default handling *)

Section ClampFacts.
Local Open Scope float_scope.

(** The clamp of a number that is at least 1 is exactly 1. *)
Lemma clamp01_ge_one q : (1 <=? q) = true -> clamp01 q = 1.
Proof.
  intros H. unfold clamp01.
  assert (H0 : (q <? 0) = false).
  { rewrite FloatAxioms.leb_spec in H. rewrite FloatAxioms.ltb_spec.
    change (Prim2SF 1) with (S754_finite false 4503599627370496 (-52)) in H.
    change (Prim2SF 0) with (S754_zero false).
    destruct (Prim2SF q) as [s|s| |s m e]; try destruct s; try discriminate H;
      reflexivity. }
  rewrite H0. destruct (1 <? q) eqn:E; [reflexivity|].
  apply Prim2SF_inj.
  rewrite FloatAxioms.leb_spec in H. rewrite FloatAxioms.ltb_spec in E.
  change (Prim2SF 1) with (S754_finite false 4503599627370496 (-52)) in *.
  unfold SFleb in H. unfold SFltb in E.
  destruct (Prim2SF q) as [s|s| |s m e]; try destruct s;
    try (simpl in H; discriminate H); try (simpl in E; discriminate E).
  unfold SFcompare in H, E.
  destruct (Z.compare_spec (-52) e) as [He| |]; try discriminate H; try discriminate E.
  subst e.
  change (Pos.compare_cont Eq 4503599627370496 m) with (4503599627370496 ?= m)%positive
    in H, E.
  destruct (Pos.compare_spec 4503599627370496 m) as [Hm| |];
    try discriminate H; try discriminate E.
  subst m. reflexivity.
Qed.

(** [+0] divided by a positive number is [+0]. *)
Lemma zero_div_pos t : (0 <? t) = true -> 0 / t = 0.
Proof.
  rewrite FloatAxioms.ltb_spec. intros H. apply Prim2SF_inj.
  rewrite FloatAxioms.div_spec.
  change (Prim2SF 0) with (S754_zero false) in *.
  destruct (Prim2SF t) as [s|s| |s m e]; try destruct s; try discriminate H;
    reflexivity.
Qed.
End ClampFacts.

Lemma apply_writes_assigned f es s c :
  (forall t, config (f t) = config t) ->
  apply_writes (with_this f (after es s)) c = apply_writes (with_this f s) c.
Proof.
  intros Hc. unfold apply_writes, travel, overflow, trackExtent, thumbExtent,
    viewportExtent, contentExtent, posStyle, sizeProp, scrollProp, horizontal_p, cfg,
    ratio, measure.
  cbn [this with_this after host]. rewrite !Hc.
  change (fold_left (fun w e => effect e w) es (host s)) with (host (after es s)).
  assert (M : forall n p, layout (elements (host (after es s)) n) p
                          = layout (elements (host s) n) p)
    by (intros n p; apply (measure_after es s n p)).
  rewrite !M. reflexivity.
Qed.

(** X8 -- A click on the track. When the target is the thumb or inside
    it, nothing happens. Otherwise the ratio becomes the clamp of the
    distance from the start of the track to the pointer over the size of
    the track (not over the travel of the thumb), and the position is
    applied: a click at the very start gives 0 and a click at or beyond
    the end of a track of positive size gives exactly 1. *)
Theorem track_click s target x y c els :
  contentEls (cfg s) = c :: els ->
  let s' := snd (handleTrackClick target x y s) in
  let rect := boundingClientRect (elements (host s) (track (cfg s))) in
  let clickPos := if horizontal_p s then x - rect_left rect else y - rect_top rect in
  fst (handleTrackClick target x y s) = Ok tt /\
  (target = thumb (cfg s) \/ descendant (host s) (thumb (cfg s)) target = true ->
     this s' = this s /\ elements (host s') = elements (host s) /\
     writes (since s s') = [] /\ notifications (since s s') = []) /\
  (target <> thumb (cfg s) -> descendant (host s) (thumb (cfg s)) target = false ->
     ratio s' = clamp01 (clickPos / trackExtent s) /\
     ratio_ok (ratio s') /\
     writes (since s s') = apply_writes (with_this (set_ratio (ratio s')) s) c /\
     ((0 <? trackExtent s) = true -> (trackExtent s <? infinity) = true ->
        (trackExtent s <=? clickPos) = true -> ratio s' = 1) /\
     (clickPos = 0 -> (0 <? trackExtent s) = true -> ratio s' = 0)).
Proof.
  intros H s' rect clickPos.
  split; [apply (handleTrackClick_ok s target x y c els H)|]. split.
  - intros Hin. unfold s'.
    destruct (decide (target = thumb (cfg s))) as [Ht|Ht].
    { rewrite (handleTrackClick_thumb target x y s Ht). cbn [snd].
      unfold since. rewrite drop_all. repeat split; reflexivity. }
    destruct Hin as [Hin|Hin]; [contradiction|].
    rewrite (handleTrackClick_inside target x y s Ht Hin). cbn [snd].
    rewrite since_after. repeat split; reflexivity.
  - intros Ht Hd.
    assert (E : s' = with_this (set_ratio (clamp01 (click_ratio x y s)))
                   (after ([Contains (thumb (cfg s)) target;
                            GetBoundingClientRect (track (cfg s));
                            Get (track (cfg s)) (sizeProp s)]
                           ++ apply_reads s c
                           ++ apply_writes (with_this (set_ratio (clamp01 (click_ratio x y s))) s) c
                           ++ apply_notify (with_this (set_ratio (clamp01 (click_ratio x y s))) s))
                      s)).
    { unfold s'. rewrite (handleTrackClick_outside target x y s Ht Hd).
      rewrite (applyPosition_eq _ c els) by exact H. cbn [snd].
      rewrite after_with_this, after_after.
      rewrite (apply_writes_assigned _ _ s c) by reflexivity. reflexivity. }
    assert (R : ratio s' = clamp01 (clickPos / trackExtent s)) by (rewrite E; reflexivity).
    split; [exact R|]. split; [rewrite R; apply clamp01_ok|]. split.
    { rewrite R. rewrite E at 1. rewrite since_assigned.
      change (?a :: ?b :: ?d :: apply_reads s c ++ ?w ++ ?n)
        with ([a; b; d] ++ apply_reads s c ++ w ++ n).
      rewrite writes_app. cbn [writes filter].
      unfold writes at 1. cbn [filter].
      match goal with |- context [apply_notify ?s1] =>
        change (apply_reads s c) with (apply_reads s1 c);
        rewrite (writes_apply s1 c)
      end.
      reflexivity. }
    split.
    + intros H0 Hf Hle. rewrite R. apply clamp01_ge_one, div_ge_one; assumption.
    + intros Hz H0. rewrite R, Hz, (zero_div_pos _ H0). reflexivity.
Qed.

Lemma track_click_witness :
  ratio (snd (handleTrackClick 1%nat 250 0 Sample.two_rows)) = 1.
Proof.
  assert (H : contentEls (cfg Sample.two_rows) = [4%nat; 5%nat])
    by (vm_compute; reflexivity).
  destruct (track_click Sample.two_rows 1%nat 250 0 4%nat [5%nat] H)
    as (_ & _ & F).
  assert (Ht : 1%nat <> thumb (cfg Sample.two_rows)) by (vm_compute; discriminate).
  destruct (F Ht eq_refl) as (_ & _ & _ & G & _).
  apply G; vm_compute; reflexivity.
Defined.

(** ** Default handling *)

Lemma prevented_app es1 es2 : prevented (es1 ++ es2) = (prevented es1 + prevented es2)%nat.
Proof. unfold prevented. rewrite filter_app, length_app. reflexivity. Qed.

Lemma prevented_none es :
  Forall (fun e => is_preventDefault e = false) es -> prevented es = 0%nat.
Proof.
  unfold prevented. induction 1 as [|e es He _ IH]; [reflexivity|].
  rewrite filter_cons_False; [exact IH|]. rewrite He. intros H. exact H.
Qed.

Lemma prevented_apply s c :
  prevented (apply_reads s c ++ apply_writes s c ++ apply_notify s) = 0%nat.
Proof.
  apply prevented_none, Forall_forall. intros e Hin.
  unfold apply_reads, apply_writes, apply_notify in Hin.
  effect_cases Hin; subst; try reflexivity.
  apply list_elem_of_In, in_map_iff in Hin as (el & <- & _). reflexivity.
Qed.

Lemma since_applied f es s c els :
  contentEls (cfg s) = c :: els ->
  (forall t, config (f t) = config t) ->
  let s1 := with_this f (after es s) in
  since s (snd (applyPosition s1))
  = es ++ apply_reads s1 c ++ apply_writes s1 c ++ apply_notify s1.
Proof.
  intros H Hc s1.
  assert (H1 : contentEls (cfg s1) = c :: els).
  { unfold s1, cfg. cbn [this with_this after]. rewrite Hc. exact H. }
  rewrite (applyPosition_eq s1 c els H1). cbn [snd].
  set (E := apply_reads s1 c ++ apply_writes s1 c ++ apply_notify s1).
  replace (after E s1) with (with_this f (after (es ++ E) s))
    by (unfold s1; rewrite after_with_this, after_after; reflexivity).
  apply since_assigned.
Qed.

(** X9 -- Which handlers suppress the default handling of their event.
    A key-down calls [preventDefault] once when the key is one of the four
    it recognises (the two arrows of the axis, [Home], [End]) and never
    otherwise, so every other key keeps its native effect; a press and a
    move of a drag call it once each; a release, a click on the track and
    a resize never do. *)
Theorem preventDefault_policy s c els :
  contentEls (cfg s) = c :: els ->
  (forall key,
     prevented (since s (snd (handleKey key s)))
     = if recognised s key then 1%nat else 0%nat) /\
  (forall e p, pointer_of e s = Some p ->
     prevented (since s (snd (handleDown e s))) = 1%nat /\
     prevented (since s (snd (handleMove e s))) = 1%nat) /\
  prevented (since s (snd (handleUp s))) = 0%nat /\
  (forall target x y,
     prevented (since s (snd (handleTrackClick target x y s))) = 0%nat) /\
  prevented (since s (snd (handleResize s))) = 0%nat.
Proof.
  intros H. split; [|split; [|split; [|split]]].
  - intros key. unfold recognised.
    destruct (decide (key = backKey s)) as [Hb|Hb].
    { rewrite bool_decide_eq_true_2 by (subst; in_list).
      rewrite (handleKey_back s key Hb), (since_applied _ _ s c els H) by reflexivity.
      cbv zeta. rewrite prevented_app, prevented_apply. reflexivity. }
    destruct (decide (key = fwdKey s)) as [Hf|Hf].
    { rewrite bool_decide_eq_true_2 by (subst; in_list).
      rewrite (handleKey_fwd s key Hf), (since_applied _ _ s c els H) by reflexivity.
      cbv zeta. rewrite prevented_app, prevented_apply. reflexivity. }
    destruct (decide (key = "Home")) as [->|Hh].
    { rewrite bool_decide_eq_true_2 by in_list.
      rewrite handleKey_home, (since_applied _ _ s c els H) by reflexivity.
      cbv zeta. rewrite prevented_app, prevented_apply. reflexivity. }
    destruct (decide (key = "End")) as [->|He].
    { rewrite bool_decide_eq_true_2 by in_list.
      rewrite handleKey_end, (since_applied _ _ s c els H) by reflexivity.
      cbv zeta. rewrite prevented_app, prevented_apply. reflexivity. }
    rewrite bool_decide_eq_false_2 by not_in.
    rewrite (handleKey_other s key Hb Hf Hh He). cbn [snd]. rewrite since_after.
    reflexivity.
  - intros e p Hp. split.
    + rewrite (handleDown_eq e s p Hp). cbn [snd]. rewrite since_assigned.
      unfold down_effects. destruct (onDragStartCb (cfg s)); reflexivity.
    + rewrite (handleMove_eq e s p Hp), (since_applied _ _ s c els H) by reflexivity.
      cbv zeta. rewrite prevented_app, prevented_apply. reflexivity.
  - rewrite handleUp_eq. cbn [snd]. rewrite since_assigned.
    unfold up_effects. destruct (onDragEndCb (cfg s)); reflexivity.
  - intros target x y.
    destruct (decide (target = thumb (cfg s))) as [Ht|Ht].
    { rewrite (handleTrackClick_thumb target x y s Ht). cbn [snd].
      unfold since. rewrite drop_all. reflexivity. }
    destruct (descendant (host s) (thumb (cfg s)) target) eqn:Hd.
    + rewrite (handleTrackClick_inside target x y s Ht Hd). cbn [snd].
      rewrite since_after. reflexivity.
    + rewrite (handleTrackClick_outside target x y s Ht Hd),
        (since_applied _ _ s c els H) by reflexivity.
      cbv zeta. rewrite prevented_app, prevented_apply. reflexivity.
  - rewrite handleResize_eq. cbn [snd]. rewrite since_assigned.
    unfold resize_effects. destruct (_resizeTimer (this s)); reflexivity.
Qed.

Lemma preventDefault_policy_witness :
  prevented (since Sample.two_rows (snd (handleKey "Tab" Sample.two_rows))) = 0%nat /\
  prevented (since Sample.two_rows (snd (handleKey "End" Sample.two_rows))) = 1%nat.
Proof.
  assert (H : contentEls (cfg Sample.two_rows) = [4%nat; 5%nat])
    by (vm_compute; reflexivity).
  pose proof (proj1 (preventDefault_policy Sample.two_rows 4%nat [5%nat] H)) as K.
  split; [exact (K "Tab")|exact (K "End")].
Defined.

(** ** The document after a position is applied *)

Lemma style_after_untouched es s n p :
  (forall v, SetStyle n p v ∉ es) ->
  style (elements (host (after es s)) n) p = style (elements (host s) n) p.
Proof.
  revert s. induction es as [|e es IH] using rev_ind; intros s H; [reflexivity|].
  rewrite after_snoc. unfold after at 1. cbn [host fold_left]. unfold effect.
  change (elements (log e ?w)) with (elements w).
  rewrite change_style.
  destruct e;
    try (apply IH; intros v0 Hin; apply (H v0), elem_of_app; left; exact Hin).
  case_bool_decide as Hd.
  - destruct Hd as [-> ->]. exfalso. apply (H v), elem_of_app. right.
    apply list_elem_of_singleton. reflexivity.
  - apply IH. intros v' Hin. apply (H v'), elem_of_app. left. exact Hin.
Qed.


Lemma apply_effects_style s c n p v :
  SetStyle n p v ∈ apply_reads s c ++ apply_writes s c ++ apply_notify s ->
  p = posStyle s /\
  ((n = thumb (cfg s) /\ v = Px (ratio s * travel s)) \/
   (n ∈ contentEls (cfg s) /\ v = Px (- ratio s * overflow s c))).
Proof.
  intros Hin. unfold apply_reads, apply_writes, apply_notify in Hin.
  effect_cases Hin.
  - inversion Hin; subst. split; [reflexivity|]. left. split; reflexivity.
  - apply list_elem_of_In, in_map_iff in Hin as (el & Heq & Hel).
    inversion Heq; subst. split; [reflexivity|]. right.
    split; [apply list_elem_of_In, Hel|reflexivity].
Qed.

Lemma apply_effects_attribute s c n a v :
  SetAttribute n a v ∈ apply_reads s c ++ apply_writes s c ++ apply_notify s ->
  n = thumb (cfg s) /\ a = "aria-valuenow" /\ v = AttrNum (Math_round (ratio s * 100)).
Proof.
  intros Hin. unfold apply_reads, apply_writes, apply_notify in Hin.
  effect_cases Hin.
  - apply list_elem_of_In, in_map_iff in Hin as (el & Heq & Hel). discriminate.
  - inversion Hin; subst. repeat split.
Qed.



Lemma activeElement_after es s :
  (forall n, Focus n ∉ es) ->
  activeElement (host (after es s)) = activeElement (host s).
Proof.
  revert s. induction es as [|e es IH] using rev_ind; intros s H; [reflexivity|].
  rewrite after_snoc. rewrite <- (IH s)
    by (intros n Hin; apply (H n), elem_of_app; left; exact Hin).
  unfold after at 1. cbn [host fold_left]. unfold effect.
  destruct e; try reflexivity; try (cbn [change]; case_bool_decide; reflexivity).
  exfalso. apply (H n), elem_of_app. right. apply list_elem_of_singleton. reflexivity.
Qed.



(** ** A later scroll overrides an earlier one *)







(** ** What is never written *)

Lemma footprint_cfg s s' n p :
  cfg s' = cfg s -> footprint_style s' n p <-> footprint_style s n p.
Proof.
  intros H. unfold footprint_style, posStyle, extentStyle, horizontal_p. rewrite H.
  reflexivity.
Qed.

Lemma confined_cfg s s' es :
  cfg s' = cfg s -> Forall (confined s') es -> Forall (confined s) es.
Proof.
  intros H F. eapply Forall_impl; [exact F|].
  intros e. destruct e; cbn [confined]; try tauto.
  - rewrite H. tauto.
  - apply (proj1 (footprint_cfg s s' n p H)).
Qed.

Lemma keeps_refl s : keeps s s.
Proof. repeat split. Qed.

Lemma keeps_trans s1 s2 s3 : keeps s1 s2 -> keeps s2 s3 -> keeps s1 s3.
Proof.
  intros (C1 & S1 & A1) (C2 & S2 & A2). split; [congruence|]. split.
  - intros n p Hn. rewrite S2, S1; [reflexivity|exact Hn|].
    rewrite (footprint_cfg s1 s2 n p C1). exact Hn.
  - intros n a Hn. rewrite A2, A1; [reflexivity|exact Hn|]. rewrite C1. exact Hn.
Qed.

Lemma keeps_after es s f :
  (forall t, config (f t) = config t) ->
  Forall (confined s) es ->
  keeps s (with_this f (after es s)).
Proof.
  intros Hc Hes. rewrite Forall_forall in Hes. split; [|split].
  - unfold cfg. cbn [this with_this after]. apply Hc.
  - intros n p Hn. cbn [host with_this]. apply style_after_untouched.
    intros v Hin. apply Hn. exact (Hes _ Hin).
  - intros n a Hn. cbn [host with_this]. apply attribute_after_untouched.
    intros v Hin. destruct (Hes _ Hin) as [-> ->]. destruct Hn as [Hn|Hn]; apply Hn; reflexivity.
Qed.

Lemma confined_apply s c :
  Forall (confined s) (apply_reads s c ++ apply_writes s c ++ apply_notify s).
Proof.
  apply Forall_forall. intros e Hin. destruct e; cbn [confined]; try exact I.
  - apply apply_effects_attribute in Hin as (-> & -> & _). split; reflexivity.
  - unfold footprint_style. apply apply_effects_style in Hin as [-> [[-> _]|[Hc _]]].
    + left. split; [reflexivity|left; reflexivity].
    + right. split; [exact Hc|reflexivity].
Qed.

Lemma confined_size s c : Forall (confined s) (size_effects s c).
Proof.
  apply Forall_forall. intros e Hin. unfold size_effects in Hin.
  effect_cases Hin; subst; cbn [confined]; try exact I.
  unfold footprint_style. left. split; [reflexivity|right; reflexivity].
Qed.

(** A list of effects that sets no style and no attribute. *)
Ltac confined_list :=
  let Hin := fresh "Hin" in
  apply Forall_forall; intros ? Hin;
  unfold key_reads, down_effects, up_effects, destroy_effects, resize_effects in Hin;
  effect_cases Hin; subst; exact I.

Lemma keeps_applied s f es c els :
  contentEls (cfg s) = c :: els ->
  (forall t, config (f t) = config t) ->
  Forall (confined s) es ->
  keeps s (snd (applyPosition (with_this f (after es s)))).
Proof.
  intros H Hc Hes. set (s1 := with_this f (after es s)).
  assert (C1 : cfg s1 = cfg s) by (unfold s1, cfg; cbn [this with_this after]; apply Hc).
  assert (H1 : contentEls (cfg s1) = c :: els) by (rewrite C1; exact H).
  rewrite (applyPosition_eq s1 c els H1). cbn [snd].
  set (E := apply_reads s1 c ++ apply_writes s1 c ++ apply_notify s1).
  replace (after E s1) with (with_this f (after (es ++ E) s))
    by (unfold s1; rewrite after_with_this, after_after; reflexivity).
  apply keeps_after; [exact Hc|]. apply Forall_app. split; [exact Hes|].
  apply (confined_cfg s s1 E C1), confined_apply.
Qed.

Section Footprint.
Variables (s : Sys) (c : node) (els : list node).
Hypothesis Hce : contentEls (cfg s) = c :: els.

Lemma keeps_scrollTo r : keeps s (snd (scrollTo r s)).
Proof.
  rewrite scrollTo_eq.
  apply (keeps_applied s (set_ratio (clamp01 r)) [] c els Hce); [reflexivity|constructor].
Qed.

Lemma keeps_scrollToOffset x : keeps s (snd (scrollToOffset x s)).
Proof.
  rewrite (scrollToOffset_eq x s c els Hce).
  apply (keeps_applied s _ _ c els Hce); [reflexivity|confined_list].
Qed.

Lemma keeps_update : keeps s (snd (update s)).
Proof.
  rewrite (update_effects_eq s c els Hce). cbn [snd].
  apply keeps_after; [reflexivity|]. unfold update_effects.
  apply Forall_app. split; [apply confined_size|apply confined_apply].
Qed.

Lemma keeps_focus : keeps s (snd (focus s)).
Proof.
  rewrite focus_eq. cbn [snd]. apply (keeps_after _ s (fun t => t)); [reflexivity|].
  confined_list.
Qed.

Lemma keeps_destroy : keeps s (snd (destroy s)).
Proof.
  destruct (_destroyed (this s)) eqn:Hd.
  - rewrite (destroy_again s Hd). apply keeps_refl.
  - rewrite (destroy_eq s Hd). cbn [snd]. rewrite after_with_this.
    apply keeps_after; [reflexivity|]. unfold destroy_effects. confined_list.
Qed.

Lemma keeps_handleDown e : keeps s (snd (handleDown e s)).
Proof.
  destruct (pointer_of e s) as [p|] eqn:Hp.
  - rewrite (handleDown_eq e s p Hp). cbn [snd]. apply keeps_after; [reflexivity|].
    unfold down_effects. confined_list.
  - rewrite (handleDown_none e s Hp). cbn [snd]. apply keeps_after; [reflexivity|].
    confined_list.
Qed.

Lemma keeps_handleMove e : keeps s (snd (handleMove e s)).
Proof.
  destruct (pointer_of e s) as [p|] eqn:Hp.
  - rewrite (handleMove_eq e s p Hp).
    apply (keeps_applied s _ _ c els Hce); [reflexivity|confined_list].
  - rewrite (handleMove_none e s Hp). cbn [snd].
    apply (keeps_after _ s (fun t => t)); [reflexivity|confined_list].
Qed.

Lemma keeps_handleUp : keeps s (snd (handleUp s)).
Proof.
  rewrite handleUp_eq. cbn [snd]. apply keeps_after; [reflexivity|].
  unfold up_effects. confined_list.
Qed.

Lemma keeps_handleKey key : keeps s (snd (handleKey key s)).
Proof.
  destruct (decide (key = backKey s)) as [Hb|Hb].
  { rewrite (handleKey_back s key Hb).
    apply (keeps_applied s _ _ c els Hce); [reflexivity|confined_list]. }
  destruct (decide (key = fwdKey s)) as [Hf|Hf].
  { rewrite (handleKey_fwd s key Hf).
    apply (keeps_applied s _ _ c els Hce); [reflexivity|confined_list]. }
  destruct (decide (key = "Home")) as [->|Hh].
  { rewrite handleKey_home.
    apply (keeps_applied s _ _ c els Hce); [reflexivity|confined_list]. }
  destruct (decide (key = "End")) as [->|He].
  { rewrite handleKey_end.
    apply (keeps_applied s _ _ c els Hce); [reflexivity|confined_list]. }
  rewrite (handleKey_other s key Hb Hf Hh He). cbn [snd].
  apply (keeps_after _ s (fun t => t)); [reflexivity|confined_list].
Qed.

Lemma keeps_handleTrackClick target x y : keeps s (snd (handleTrackClick target x y s)).
Proof.
  destruct (decide (target = thumb (cfg s))) as [Ht|Ht].
  { rewrite (handleTrackClick_thumb target x y s Ht). apply keeps_refl. }
  destruct (descendant (host s) (thumb (cfg s)) target) eqn:Hd.
  - rewrite (handleTrackClick_inside target x y s Ht Hd). cbn [snd].
    apply (keeps_after _ s (fun t => t)); [reflexivity|confined_list].
  - rewrite (handleTrackClick_outside target x y s Ht Hd).
    apply (keeps_applied s _ _ c els Hce); [reflexivity|confined_list].
Qed.

Lemma keeps_handleResize : keeps s (snd (handleResize s)).
Proof.
  rewrite handleResize_eq. cbn [snd]. apply keeps_after; [reflexivity|].
  unfold resize_effects. confined_list.
Qed.

Lemma keeps_invoke h e : keeps s (attempt (invoke h e) s).
Proof.
  unfold attempt. destruct h; cbn [invoke].
  - apply keeps_handleDown.
  - apply keeps_handleMove.
  - apply keeps_handleUp.
  - destruct e; try apply keeps_refl. apply keeps_handleKey.
  - destruct e; try apply keeps_refl. apply keeps_handleTrackClick.
  - apply keeps_handleResize.
Qed.
End Footprint.

Lemma keeps_content s s' c els :
  keeps s s' -> contentEls (cfg s) = c :: els -> contentEls (cfg s') = c :: els.
Proof. intros (C & _) H. rewrite C. exact H. Qed.

Lemma keeps_deliver t ty e s c els :
  contentEls (cfg s) = c :: els -> keeps s (deliver t ty e s).
Proof.
  intros H. unfold deliver. destruct (event_class ty e); [|apply keeps_refl].
  apply (fold_handlers (fun s' => keeps s s')); [|apply keeps_refl].
  intros h s' _ K. apply (keeps_trans _ _ _ K).
  apply (keeps_invoke s' c els (keeps_content s s' c els K H)).
Qed.

Lemma keeps_fire id s c els :
  contentEls (cfg s) = c :: els -> keeps s (fire id s).
Proof.
  intros H. unfold fire. case_bool_decide; [|apply keeps_refl]. unfold attempt.
  set (s1 := {| this := this s;
                host := with_timeouts (filter (fun t => t ≠ id) (timeouts (host s)))
                          (nextTimeout (host s)) (host s) |}).
  apply (keeps_trans s s1).
  - repeat split.
  - change resizeCallback with update. apply (keeps_update s1 c els). exact H.
Qed.

Lemma keeps_relayout g r s : keeps s (relayout g r s).
Proof. repeat split. Qed.

Lemma keeps_step s o c els :
  contentEls (cfg s) = c :: els -> keeps s (step s o).
Proof.
  intros H. destruct o; cbn [step]; unfold attempt.
  - apply (keeps_scrollTo s c els H).
  - apply (keeps_scrollToOffset s c els H).
  - apply (keeps_update s c els H).
  - apply keeps_focus.
  - apply keeps_destroy.
  - apply (keeps_deliver t ty e s c els H).
  - apply (keeps_fire id s c els H).
  - apply keeps_relayout.
Qed.

Lemma keeps_run ops s c els :
  contentEls (cfg s) = c :: els -> keeps s (run ops s).
Proof.
  revert s. induction ops as [|o ops IH]; intros s H; [apply keeps_refl|].
  simpl. pose proof (keeps_step s o c els H) as K.
  apply (keeps_trans _ _ _ K). apply IH, (keeps_content s _ c els K H).
Qed.

(** X12 -- What an instance never writes. Through every sequence of
    operations after its construction, the only style properties that
    change are the position and the extent of the thumb along the axis of
    the scrollbar and the position of the content elements along it, and
    the only attribute that changes is [aria-valuenow] of the thumb: the
    track, the viewport, the properties of the other axis and every other
    element and attribute keep the value they had after the construction. *)
Theorem document_footprint options w t w' ops :
  constructor options w = (Ok t, w') ->
  let s0 := {| this := t; host := w' |} in
  let s := run ops s0 in
  (forall n p, ~ footprint_style s0 n p ->
     style (elements (host s) n) p = style (elements (host s0) n) p) /\
  (forall n a, n <> thumb (cfg s0) \/ a <> "aria-valuenow" ->
     attributes (elements (host s) n) !! a = attributes (elements (host s0) n) !! a).
Proof.
  intros Hc s0 s.
  destruct (constructor_state options w t w' Hc)
    as (s0' & c & els & _ & _ & _ & _ & _ & Hce & Hs).
  assert (H : contentEls (cfg s0) = c :: els).
  { unfold s0. rewrite Hs. exact Hce. }
  destruct (keeps_run ops s0 c els H) as (_ & S & A). split; assumption.
Qed.

Lemma document_footprint_witness :
  let s0 := {| this := this Sample.two_rows; host := host Sample.two_rows |} in
  let s := run [CallScrollTo 0.5; Sample.press 10; Sample.move 50; CallUpdate] s0 in
  style (elements (host s) 1%nat) left_ = style (elements (host s0) 1%nat) left_ /\
  style (elements (host s) 4%nat) top_ = style (elements (host s0) 4%nat) top_.
Proof.
  assert (H : constructor (Sample.options [4%nat; 5%nat]) (Sample.page 200 40 0 100 400)
              = (Ok (this Sample.two_rows), host Sample.two_rows))
    by (vm_compute; reflexivity).
  pose proof (proj1 (document_footprint _ _ _ _
                  [CallScrollTo 0.5; Sample.press 10; Sample.move 50; CallUpdate] H))
    as F.
  split; apply F.
  - intros [[E _]|[E _]]; [vm_compute in E; discriminate E|].
    change (1%nat ∈ [4%nat; 5%nat]) in E.
    repeat (apply elem_of_cons in E as [E|E]; [discriminate E|]). inversion E.
  - intros [[E _]|[_ E]]; [vm_compute in E; discriminate E|].
    vm_compute in E. discriminate E.
Defined.

(** ** Saturation and observers *)

Lemma applied_ratio f es s :
  ratio (snd (applyPosition (with_this f (after es s)))) = _ratio (f (this s)).
Proof. unfold ratio. rewrite applyPosition_this. reflexivity. Qed.

(** X13 -- Where the ratio saturates. With a positive, finite overflow,
    [scrollToOffset(x)] gives exactly 1 as soon as [x - viewportSize / 2]
    reaches the overflow, and 0 when it is 0. With a positive, finite
    travel, a move of the drag gives exactly 1 as soon as the new thumb
    position reaches the travel, and 0 when it is 0. *)
Theorem saturation s c els :
  contentEls (cfg s) = c :: els ->
  (forall x,
     let target := x - viewportExtent s / 2 in
     (0 <? overflow s c) = true -> (overflow s c <? infinity) = true ->
     ((overflow s c <=? target) = true -> ratio (snd (scrollToOffset x s)) = 1) /\
     (target = 0 -> ratio (snd (scrollToOffset x s)) = 0)) /\
  (forall e pos,
     pointer_of e s = Some pos ->
     let newPos := thumbOffset s - (_lastPointer (this s) - pos) in
     (0 <? travel s) = true -> (travel s <? infinity) = true ->
     ((travel s <=? newPos) = true -> ratio (snd (handleMove e s)) = 1) /\
     (newPos = 0 -> ratio (snd (handleMove e s)) = 0)).
Proof.
  intros H. split.
  - intros x target H0 Hf.
    assert (R : ratio (snd (scrollToOffset x s)) = clamp01 (target / overflow s c)).
    { rewrite (scrollToOffset_eq x s c els H), applied_ratio. reflexivity. }
    rewrite R. split.
    + intros Hle. apply clamp01_ge_one, div_ge_one; assumption.
    + intros ->. rewrite (zero_div_pos _ H0). reflexivity.
  - intros e pos Hp newPos H0 Hf.
    assert (R : ratio (snd (handleMove e s)) = clamp01 (newPos / travel s)).
    { rewrite (handleMove_eq e s pos Hp), applied_ratio. reflexivity. }
    rewrite R. split.
    + intros Hle. apply clamp01_ge_one, div_ge_one; assumption.
    + intros ->. rewrite (zero_div_pos _ H0). reflexivity.
Qed.

Lemma saturation_witness :
  ratio (snd (scrollToOffset 350 Sample.two_rows)) = 1 /\
  ratio (snd (scrollToOffset 50 Sample.two_rows)) = 0.
Proof.
  assert (H : contentEls (cfg Sample.two_rows) = [4%nat; 5%nat])
    by (vm_compute; reflexivity).
  pose proof (proj1 (saturation Sample.two_rows 4%nat [5%nat] H)) as S.
  split.
  - apply (S 350); vm_compute; reflexivity.
  - apply (S 50); vm_compute; reflexivity.
Defined.

(** ** The observers *)

Lemma notifications_none es :
  Forall (fun e => match e with Notify _ => False | _ => True end) es ->
  notifications es = [].
Proof.
  induction 1 as [|e es He _ IH]; [reflexivity|].
  destruct e; try contradiction; exact IH.
Qed.

Ltac no_notify :=
  apply notifications_none;
  let Hin := fresh "Hin" in
  apply Forall_forall; intros ? Hin;
  unfold key_reads, size_effects, resize_effects in Hin;
  effect_cases Hin; subst; exact I.

Lemma notifications_applied f es s c els r :
  contentEls (cfg s) = c :: els ->
  (forall t, config (f t) = config t) ->
  notifications es = [] ->
  _ratio (f (this s)) = r ->
  notifications (since s (snd (applyPosition (with_this f (after es s)))))
  = if onScrollCb (cfg s) then [onScroll r] else [].
Proof.
  intros H Hc Hes <-. rewrite (since_applied f es s c els H Hc). cbv zeta.
  rewrite notifications_app, Hes, notifications_apply. cbn [app].
  unfold cfg, ratio. cbn [this with_this after]. rewrite Hc. reflexivity.
Qed.

(** X14 -- The observers are called as follows. Every operation that
    applies a position calls [onScroll] exactly once, with the ratio it
    leaves, changed or not: [scrollTo], [scrollToOffset], [update], a move
    of the drag, a recognised key, a click on the track outside the thumb.
    A press calls [onDragStart] once and nothing else, a release
    [onDragEnd] once and nothing else. An unrecognised key, a click on
    the thumb, [focus], [destroy] and a resize event call no observer. An
    observer that is not given is not called. *)
Theorem observer_protocol s c els :
  contentEls (cfg s) = c :: els ->
  let scrolled (s' : Sys) :=
    notifications (since s s')
    = if onScrollCb (cfg s) then [onScroll (ratio s')] else [] in
  let silent (s' : Sys) := notifications (since s s') = [] in
  (forall r, scrolled (snd (scrollTo r s))) /\
  (forall x, scrolled (snd (scrollToOffset x s))) /\
  scrolled (snd (update s)) /\
  (forall e p, pointer_of e s = Some p -> scrolled (snd (handleMove e s))) /\
  (forall key, if recognised s key then scrolled (snd (handleKey key s))
               else silent (snd (handleKey key s))) /\
  (forall target x y,
     if bool_decide (target = thumb (cfg s))
        || descendant (host s) (thumb (cfg s)) target
     then silent (snd (handleTrackClick target x y s))
     else scrolled (snd (handleTrackClick target x y s))) /\
  (forall e p, pointer_of e s = Some p ->
     notifications (since s (snd (handleDown e s)))
     = if onDragStartCb (cfg s) then [onDragStart] else []) /\
  notifications (since s (snd (handleUp s)))
  = (if onDragEndCb (cfg s) then [onDragEnd] else []) /\
  silent (snd (focus s)) /\ silent (snd (destroy s)) /\ silent (snd (handleResize s)).
Proof.
  intros H scrolled silent. unfold scrolled, silent.
  split; [|split; [|split; [|split; [|split; [|split; [|split; [|split; [|split; [|split]]]]]]]]].
  - intros r. rewrite scrollTo_eq.
    change (with_this (set_ratio (clamp01 r)) s)
      with (with_this (set_ratio (clamp01 r)) (after [] s)).
    rewrite (applied_ratio (set_ratio (clamp01 r)) [] s).
    apply (notifications_applied (set_ratio (clamp01 r)) [] s c els _ H); reflexivity.
  - intros x. rewrite (scrollToOffset_eq x s c els H), applied_ratio.
    apply (notifications_applied _ _ s c els _ H); reflexivity.
  - rewrite (update_eq s c els H), applied_ratio.
    apply (notifications_applied _ _ s c els _ H); [reflexivity|no_notify|reflexivity].
  - intros e p Hp. rewrite (handleMove_eq e s p Hp), applied_ratio.
    apply (notifications_applied _ _ s c els _ H); reflexivity.
  - intros key. unfold recognised.
    destruct (decide (key = backKey s)) as [Hb|Hb].
    { rewrite bool_decide_eq_true_2 by (subst; in_list).
      rewrite (handleKey_back s key Hb), applied_ratio.
      apply (notifications_applied _ _ s c els _ H); [reflexivity|no_notify|reflexivity]. }
    destruct (decide (key = fwdKey s)) as [Hf|Hf].
    { rewrite bool_decide_eq_true_2 by (subst; in_list).
      rewrite (handleKey_fwd s key Hf), applied_ratio.
      apply (notifications_applied _ _ s c els _ H); [reflexivity|no_notify|reflexivity]. }
    destruct (decide (key = "Home")) as [->|Hh].
    { rewrite bool_decide_eq_true_2 by in_list.
      rewrite handleKey_home, applied_ratio.
      apply (notifications_applied _ _ s c els _ H); [reflexivity|no_notify|reflexivity]. }
    destruct (decide (key = "End")) as [->|He].
    { rewrite bool_decide_eq_true_2 by in_list.
      rewrite handleKey_end, applied_ratio.
      apply (notifications_applied _ _ s c els _ H); [reflexivity|no_notify|reflexivity]. }
    rewrite bool_decide_eq_false_2 by not_in.
    rewrite (handleKey_other s key Hb Hf Hh He). cbn [snd]. rewrite since_after.
    no_notify.
  - intros target x y. case_bool_decide as Ht; cbn [orb].
    { rewrite (handleTrackClick_thumb target x y s Ht). cbn [snd].
      unfold since. rewrite drop_all. reflexivity. }
    destruct (descendant (host s) (thumb (cfg s)) target) eqn:Hd.
    + rewrite (handleTrackClick_inside target x y s Ht Hd). cbn [snd].
      rewrite since_after. reflexivity.
    + rewrite (handleTrackClick_outside target x y s Ht Hd), applied_ratio.
      apply (notifications_applied _ _ s c els _ H); reflexivity.
  - intros e p Hp. rewrite (handleDown_eq e s p Hp). cbn [snd].
    rewrite since_assigned. unfold down_effects.
    destruct (onDragStartCb (cfg s)); reflexivity.
  - rewrite handleUp_eq. cbn [snd]. rewrite since_assigned. unfold up_effects.
    destruct (onDragEndCb (cfg s)); reflexivity.
  - rewrite focus_eq. cbn [snd]. rewrite since_after. reflexivity.
  - destruct (_destroyed (this s)) eqn:Hd.
    + rewrite (destroy_again s Hd). cbn [snd]. unfold since. rewrite drop_all.
      reflexivity.
    + rewrite (destroy_eq s Hd). cbn [snd]. rewrite after_with_this, since_assigned.
      apply notifications_none, Forall_forall. intros e Hin.
      unfold destroy_effects in Hin. effect_cases Hin; subst; exact I.
  - rewrite handleResize_eq. cbn [snd]. rewrite since_assigned. no_notify.
Qed.

Lemma observer_protocol_witness :
  notifications (since Sample.two_rows (snd (scrollTo 5 Sample.two_rows)))
  = [onScroll 1].
Proof.
  assert (H : contentEls (cfg Sample.two_rows) = [4%nat; 5%nat])
    by (vm_compute; reflexivity).
  pose proof (proj1 (observer_protocol Sample.two_rows 4%nat [5%nat] H) 5) as S.
  cbv beta in S. rewrite S. vm_compute. reflexivity.
Defined.

(** ** A press and a release *)

Ltac registered_steps :=
  cbn [omap list_omap app];
  repeat (first
    [ rewrite bool_decide_eq_true_2 by (split; reflexivity)
    | rewrite bool_decide_eq_false_2 by (intros [? ?]; congruence) ];
    cbn [omap list_omap]).

Lemma registered_press s :
  listeners (host s) = expected_listeners s ->
  _destroyed (this s) = false ->
  registered (TNode (thumb (cfg s))) mousedown s = [OnDown].
Proof.
  intros L Hd. unfold registered. rewrite L. explicit_listeners. rewrite Hd.
  destruct (trackClick (cfg s)), (autoResize (cfg s)), (_isDragging (this s));
    registered_steps; reflexivity.
Qed.

Lemma registered_release s :
  listeners (host s) = expected_listeners s ->
  _destroyed (this s) = false -> _isDragging (this s) = true ->
  registered TDocument mouseup s = [OnUp].
Proof.
  intros L Hd Hg. unfold registered. rewrite L. explicit_listeners. rewrite Hd, Hg.
  destruct (trackClick (cfg s)), (autoResize (cfg s)); registered_steps; reflexivity.
Qed.

(** X15 -- A press and a release without a move. On a live instance that
    is not dragging, a [mousedown] on the thumb runs [handleDown]: the
    instance is dragging, remembers the coordinate of the pointer along
    the axis, and the thumb has the focus. The [mouseup] that follows
    anywhere in the document runs [handleUp], after which the fields are
    those before the press but for the remembered coordinate, the
    listeners and the timers are those before the press, no element has
    changed, and the observers were told of one drag start and one drag
    end. *)
Theorem press_release options w t w' ops tg x y tg' x' y' :
  pristine w ->
  constructor options w = (Ok t, w') ->
  let s := run ops {| this := t; host := w' |} in
  _destroyed (this s) = false -> isDragging s = false ->
  let p := if horizontal_p s then x else y in
  let s1 := deliver (TNode (thumb (cfg s))) mousedown (MouseEvent tg x y) s in
  let s2 := deliver TDocument mouseup (MouseEvent tg' x' y') s1 in
  s1 = snd (handleDown (MouseEvent tg x y) s) /\ s2 = snd (handleUp s1) /\
  isDragging s1 = true /\ _lastPointer (this s1) = p /\
  activeElement (host s1) = Some (thumb (cfg s)) /\
  this s2 = set_lastPointer p (this s) /\
  listeners (host s2) = listeners (host s) /\
  timeouts (host s2) = timeouts (host s) /\
  (forall n, elements (host s2) n = elements (host s) n) /\
  notifications (since s s2)
  = (if onDragStartCb (cfg s) then [onDragStart] else [])
    ++ (if onDragEndCb (cfg s) then [onDragEnd] else []).
Proof.
  intros P Hc s Hd Hg p s1 s2.
  assert (S : steady s) by (apply run_steady, (constructed_steady options w t w' P Hc)).
  assert (E1 : s1 = with_this (fun t => set_lastPointer p (set_isDragging true t))
                      (after (down_effects s) s)).
  { unfold s1, deliver. cbn [event_class].
    rewrite (registered_press s (steady_listeners s S) Hd). cbn [fold_left].
    unfold attempt. cbn [invoke].
    rewrite (handleDown_eq (MouseEvent tg x y) s p eq_refl). reflexivity. }
  assert (S1 : steady s1).
  { pose proof (steady_handleDown (MouseEvent tg x y) s p eq_refl Hd S) as X.
    rewrite (handleDown_eq (MouseEvent tg x y) s p eq_refl) in X.
    rewrite E1. exact X. }
  assert (E2 : s2 = with_this (set_isDragging false) (after (up_effects s1) s1)).
  { unfold s2, deliver. cbn [event_class].
    rewrite (registered_release s1 (steady_listeners s1 S1)) by (rewrite E1; assumption || reflexivity).
    cbn [fold_left]. unfold attempt. cbn [invoke]. rewrite handleUp_eq. reflexivity. }
  split; [rewrite E1, (handleDown_eq (MouseEvent tg x y) s p eq_refl); reflexivity|].
  split; [rewrite E2, handleUp_eq; reflexivity|].
  split; [rewrite E1; reflexivity|]. split; [rewrite E1; reflexivity|].
  split.
  { rewrite E1. cbn [host with_this].
    change (down_effects s)
      with ([PreventDefault; Focus (thumb (cfg s))]
            ++ ([AddEventListener (TDocument, mousemove, OnMove);
                 AddEventListener (TDocument, touchmove, OnMove);
                 AddEventListener (TDocument, mouseup, OnUp);
                 AddEventListener (TDocument, touchend, OnUp)]
                ++ (if onDragStartCb (cfg s) then [Notify onDragStart] else []))).
    rewrite after_app, activeElement_after
      by (intros m Hin; effect_cases Hin).
    reflexivity. }
  assert (Hup : up_effects s1 = up_effects s) by (rewrite E1; reflexivity).
  assert (E3 : s2 = with_this (fun t => set_isDragging false
                                          (set_lastPointer p (set_isDragging true t)))
                      (after (down_effects s ++ up_effects s) s)).
  { rewrite E2, Hup, E1. rewrite after_with_this, after_after. reflexivity. }
  split.
  { rewrite E3. cbn [this with_this after]. unfold isDragging in Hg.
    destruct (this s). cbn in *. subst. reflexivity. }
  split.
  { rewrite (steady_listeners s S). rewrite E2. cbn [host with_this].
    rewrite listeners_after, (up_listeners s1) ;
      [|rewrite E1; exact Hd|apply (steady_listeners s1 S1)].
    unfold expected_listeners. unfold isDragging in Hg. rewrite Hd, Hg, app_nil_r.
    rewrite E1. reflexivity. }
  split.
  { rewrite E3. cbn [host with_this]. rewrite timeouts_after. apply timeouts_untimed.
    apply Forall_app. split; [apply down_effects_untimed|apply up_effects_untimed]. }
  split.
  { intros n. rewrite E3. cbn [host with_this]. apply elements_after_other.
    apply Forall_forall. intros e Hin. unfold down_effects, up_effects in Hin.
    effect_cases Hin; subst; discriminate. }
  rewrite E3, since_assigned. unfold down_effects, up_effects.
  destruct (onDragStartCb (cfg s)), (onDragEndCb (cfg s)); reflexivity.
Qed.

Lemma press_release_witness :
  let s := {| this := this Sample.two_rows; host := host Sample.two_rows |} in
  let s2 := deliver TDocument mouseup (MouseEvent 2%nat 0 0)
              (deliver (TNode 2%nat) mousedown (MouseEvent 2%nat 10 0) s) in
  this s2 = set_lastPointer 10 (this s) /\ listeners (host s2) = listeners (host s).
Proof.
  assert (H : constructor (Sample.options [4%nat; 5%nat]) (Sample.page 200 40 0 100 400)
              = (Ok (this Sample.two_rows), host Sample.two_rows))
    by (vm_compute; reflexivity).
  assert (P : pristine (Sample.page 200 40 0 100 400)) by (split; reflexivity).
  destruct (press_release _ _ _ _ [] 2%nat 10 0 2%nat 0 0 P H eq_refl eq_refl)
    as (_ & _ & _ & _ & _ & T & L & _).
  split; [exact T|exact L].
Defined.
